(** * sign-annotator: the annotation store and the export services

    A shallow embedding of [stores/annotation-store.ts] (markers, spans,
    the mutation operations, the undo history the store is wrapped in) and
    of the exporters of [services/export], with the properties of the
    specification stated and settled against them.

    Times are milliseconds, taken as integers ([Z]).  Identifiers are
    strings.  [crypto.randomUUID()] and [new Date()] are inputs from the
    environment: every operation that calls them takes the value read as
    an explicit argument. *)

From stdpp Require Import gmap strings list fin_maps pretty.
From Stdlib Require Import ZArith Lia Ascii.
From Stdlib Require Import PrimFloat SpecFloat FloatOps.

Local Open Scope Z_scope.

(** ** JavaScript truthiness of strings *)

(** [if (s)] on a string: every string but the empty one is truthy. *)
Definition truthy (s : string) : bool :=
  match s with
  | EmptyString => false
  | String _ _ => true
  end.

(** [if (o)] on a [string | null]. *)
Definition truthy_opt (o : option string) : bool :=
  match o with
  | Some s => truthy s
  | None => false
  end.

(** ** utils/id-generator.ts *)

(** [generateId(prefix)], with [uuid] the value of [crypto.randomUUID()]. *)
Definition generateId (prefix uuid : string) : string :=
  if truthy prefix then prefix +:+ "_" +:+ uuid else uuid.

(** ** utils/time.ts *)

Definition clamp (value min max : Z) : Z := Z.max min (Z.min max value).

(** ** types/annotation.ts *)

Module Marker.
Record t : Type := mk {
    id : string;
    time : Z;
    typeId : string;
    tierId : string;
    videoId : string;
    confirmed : bool;
    value : option string
  }.

Definition with_time (v : Z) (m : t) : t :=
    mk (id m) v (typeId m) (tierId m) (videoId m) (confirmed m) (value m).
Definition with_tierId (v : string) (m : t) : t :=
    mk (id m) (time m) (typeId m) v (videoId m) (confirmed m) (value m).
Definition with_typeId (v : string) (m : t) : t :=
    mk (id m) (time m) v (tierId m) (videoId m) (confirmed m) (value m).
Definition with_value (v : string) (m : t) : t :=
    mk (id m) (time m) (typeId m) (tierId m) (videoId m) (confirmed m) (Some v).
  (** [{ ...m, typeId, confirmed: true }] *)
Definition confirm (ty : string) (m : t) : t :=
    mk (id m) (time m) ty (tierId m) (videoId m) true (value m).
End Marker.

Module Span.
Record t : Type := mk {
    id : string;
    startMarkerId : string;
    endMarkerId : string;
    tierId : string;
    videoId : string;
    gloss : string
  }.

Definition with_gloss (g : string) (sp : t) : t :=
    mk (id sp) (startMarkerId sp) (endMarkerId sp) (tierId sp) (videoId sp) g.
  (** [{ ...sp, startMarkerId, endMarkerId, gloss }] *)
Definition with_anchors (s e g : string) (sp : t) : t :=
    mk (id sp) s e (tierId sp) (videoId sp) g.
End Span.

(** [Omit<AnnotationSpan, 'id'>]: what [addSpan] receives. *)
Module NewSpan.
Record t : Type := mk {
    startMarkerId : string;
    endMarkerId : string;
    tierId : string;
    videoId : string;
    gloss : string
  }.

  (** [{ ...span, id }] *)
Definition with_id (i : string) (sp : t) : Span.t :=
    Span.mk i (startMarkerId sp) (endMarkerId sp) (tierId sp) (videoId sp) (gloss sp).
End NewSpan.

#[global] Instance marker_eq_dec : EqDecision Marker.t.
Proof. solve_decision. Defined.
#[global] Instance span_eq_dec : EqDecision Span.t.
Proof. solve_decision. Defined.

(** ** The state of the annotation store

    The imported ELAN display data ([elanTiers], [elanSpans],
    [showElanAnnotations]) is read and written by no operation below and
    is left out. *)

Record AnnotationState : Type := mkState {
  markers : list Marker.t;
  spans : list Span.t;
  selectedMarkerId : option string;
  pendingMarkerId : option string;
  selectedSpanId : option string;
  editingSpanId : option string
}.

Definition initialState : AnnotationState :=
  mkState [] [] None None None None.

(** [markers.find((m) => m.id === id)] and [spans.find((sp) => sp.id === id)] *)
Definition findMarker (ms : list Marker.t) (i : string) : option Marker.t :=
  List.find (λ m, bool_decide (Marker.id m = i)) ms.

Definition findSpan (sps : list Span.t) (i : string) : option Span.t :=
  List.find (λ sp, bool_decide (Span.id sp = i)) sps.

(** ** The undo history around the store *)

(** [partialize]: what the history keeps of a state. *)
Record Snapshot : Type := mkSnapshot {
  snap_markers : list Marker.t;
  snap_spans : list Span.t
}.

Definition partialize (s : AnnotationState) : Snapshot :=
  mkSnapshot (markers s) (spans s).

Definition limit : nat := 100.

(** The test of the [handleSet] option on a reference: it is a non-empty
    id ([current.pendingMarkerId && ...]) that no marker of the current
    state carries ([!ids.has(...)]). *)
Definition orphaned (current : AnnotationState) (ref : option string) : bool :=
  let ids : gset string := list_to_set (Marker.id <$> markers current) in
  match ref with
  | Some i => truthy i && bool_decide (i ∉ ids)
  | None => false
  end.

(** The state after the [updates] of the [handleSet] option: an orphaned
    reference becomes [null]. *)
Definition cleanOrphans (current : AnnotationState) : AnnotationState :=
  mkState (markers current) (spans current)
    (if orphaned current (selectedMarkerId current) then None
     else selectedMarkerId current)
    (if orphaned current (pendingMarkerId current) then None
     else pendingMarkerId current)
    (selectedSpanId current) (editingSpanId current).

Record Store : Type := mkStore {
  get : AnnotationState;
  pastStates : list Snapshot;
  futureStates : list Snapshot
}.

#[global] Instance state_eq_dec : EqDecision AnnotationState.
Proof. solve_decision. Defined.
#[global] Instance snapshot_eq_dec : EqDecision Snapshot.
Proof. solve_decision. Defined.
#[global] Instance store_eq_dec : EqDecision Store.
Proof. solve_decision. Defined.

Definition initialStore : Store := mkStore initialState [] [].

(** *** The history

    The store is created through the [temporal] middleware of the zundo
    package, a dependency that is not part of the repository; the options
    it is given ([limit], [partialize], [handleSet]) are the source's.
    The middleware hands the creator of the store a [set] that reads the
    projection of the state, applies the patch, and passes the projection
    read before to the [handleSet] option; [setState] of the store is
    wrapped in the same way.  Its [undo] and [redo] put a snapshot back
    through the unwrapped [set]: they record nothing and do not go
    through [handleSet]. *)

(** zundo's [_handleSet], the function the [handleSet] option receives and
    calls first: when [limit] snapshots are held the oldest one is
    dropped, and the snapshot goes to the end of the past states. *)
Definition record (past : list Snapshot) (snap : Snapshot) : list Snapshot :=
  (if bool_decide (limit ≤ length past)%nat then drop 1 past else past) ++ [snap].

(** [set((s) => patch)] as the operations of the store see it.  The patch
    is applied; the [handleSet] option records the projection of the state
    before it, which empties the future states, and then looks for
    orphaned references in the current state.  When there is one it calls
    [useAnnotationStore.setState(updates)]: that call is wrapped too, so
    the projection of the current state is recorded as a second snapshot
    before the references are cleared (the [handleSet] of that call finds
    nothing orphaned any more). *)
Definition set (f : AnnotationState → AnnotationState) (st : Store) : Store :=
  let pastState := partialize (get st) in
  let current := f (get st) in
  let past := record (pastStates st) pastState in
  if orphaned current (pendingMarkerId current)
     || orphaned current (selectedMarkerId current)
  then mkStore (cleanOrphans current) (record past (partialize current)) []
  else mkStore current past [].

(** What zundo's [undo] and [redo] hand to the unwrapped [set]: a
    snapshot replaces markers and spans, the rest of the state stays. *)
Definition restore (snap : Snapshot) (s : AnnotationState) : AnnotationState :=
  mkState (snap_markers snap) (snap_spans snap)
    (selectedMarkerId s) (pendingMarkerId s) (selectedSpanId s) (editingSpanId s).

(** [temporal.getState().undo()]: the last past snapshot is taken off and
    restored, and the projection of the current state becomes the last
    future state.  Without a past snapshot nothing happens. *)
Definition undo (st : Store) : Store :=
  match last (pastStates st) with
  | Some snap =>
      mkStore (restore snap (get st))
        (removelast (pastStates st))
        (futureStates st ++ [partialize (get st)])
  | None => st
  end.

(** [temporal.getState().redo()], the mirror image of [undo]. *)
Definition redo (st : Store) : Store :=
  match last (futureStates st) with
  | Some snap =>
      mkStore (restore snap (get st))
        (pastStates st ++ [partialize (get st)])
        (removelast (futureStates st))
  | None => st
  end.

(** ** Marker operations *)

Definition placeMarker (uuid : string) (time : Z) (tierId videoId : string)
    (st : Store) : string * Store :=
  let id := generateId "m" uuid in
  let marker := Marker.mk id time EmptyString tierId videoId false None in
  (id,
   set (λ s, mkState (markers s ++ [marker]) (spans s)
               (Some id) (Some id) (selectedSpanId s) (editingSpanId s)) st).

(** The loop of [confirmMarker]: the end marker of the first span, in list
    order, on the marker's tier and video, with both anchors present, that
    has the marker's time strictly inside. *)
Definition snapTarget (state : AnnotationState) (marker : Marker.t) : option string :=
  Span.endMarkerId <$>
    List.find (λ span,
      if negb (bool_decide (Span.tierId span = Marker.tierId marker))
         || negb (bool_decide (Span.videoId span = Marker.videoId marker))
      then false
      else
        match findMarker (markers state) (Span.startMarkerId span),
              findMarker (markers state) (Span.endMarkerId span) with
        | Some startM, Some endM =>
            let spanStart := Z.min (Marker.time startM) (Marker.time endM) in
            let spanEnd := Z.max (Marker.time startM) (Marker.time endM) in
            (spanStart <? Marker.time marker) && (Marker.time marker <? spanEnd)
        | _, _ => false
        end) (spans state).

Definition confirmMarker (markerId typeId : string) (st : Store) : Store :=
  let state := get st in
  match findMarker (markers state) markerId with
  | None => st
  | Some marker =>
      let snapEndMarkerId := snapTarget state marker in
      set (λ s,
        mkState
          ((λ m,
             if bool_decide (Marker.id m = markerId) then Marker.confirm typeId m
             else if truthy_opt snapEndMarkerId
                     && bool_decide (Some (Marker.id m) = snapEndMarkerId)
             then Marker.with_time (Marker.time marker) m
             else m) <$> markers s)
          (spans s)
          (selectedMarkerId s)
          (if bool_decide (pendingMarkerId s = Some markerId) then None
           else pendingMarkerId s)
          (selectedSpanId s) (editingSpanId s)) st
  end.

Definition cancelPendingMarker (st : Store) : Store :=
  match pendingMarkerId (get st) with
  | Some pending =>
      if truthy pending then
        set (λ s,
          mkState
            (filter (λ m, Marker.id m ≠ pending) (markers s))
            (spans s)
            (if bool_decide (selectedMarkerId s = Some pending) then None
             else selectedMarkerId s)
            None
            (selectedSpanId s) (editingSpanId s)) st
      else st
  | None => st
  end.

Definition removeMarker (id : string) (st : Store) : Store :=
  set (λ s,
    mkState
      (filter (λ m, Marker.id m ≠ id) (markers s))
      (filter (λ sp, Span.startMarkerId sp ≠ id ∧ Span.endMarkerId sp ≠ id) (spans s))
      (if bool_decide (selectedMarkerId s = Some id) then None else selectedMarkerId s)
      (if bool_decide (pendingMarkerId s = Some id) then None else pendingMarkerId s)
      (selectedSpanId s) (editingSpanId s)) st.

Definition mapMarkers (f : Marker.t → Marker.t) (s : AnnotationState) : AnnotationState :=
  mkState (f <$> markers s) (spans s)
    (selectedMarkerId s) (pendingMarkerId s) (selectedSpanId s) (editingSpanId s).

Definition mapSpans (f : list Span.t → list Span.t) (s : AnnotationState) : AnnotationState :=
  mkState (markers s) (f (spans s))
    (selectedMarkerId s) (pendingMarkerId s) (selectedSpanId s) (editingSpanId s).

Definition nudgeMarker (id : string) (deltaMs maxMs : Z) (st : Store) : Store :=
  set (mapMarkers (λ m,
    if bool_decide (Marker.id m = id)
    then Marker.with_time (clamp (Marker.time m + deltaMs) 0 maxMs) m else m)) st.

Definition updateMarkerTime (id : string) (time : Z) (st : Store) : Store :=
  set (mapMarkers (λ m,
    if bool_decide (Marker.id m = id) then Marker.with_time time m else m)) st.

Definition updateMarkerTier (id tierId : string) (st : Store) : Store :=
  set (mapMarkers (λ m,
    if bool_decide (Marker.id m = id) then Marker.with_tierId tierId m else m)) st.

Definition reclassifyMarker (id newTypeId : string) (st : Store) : Store :=
  set (mapMarkers (λ m,
    if bool_decide (Marker.id m = id) && Marker.confirmed m
    then Marker.with_typeId newTypeId m else m)) st.

Definition updateMarkerValue (id value : string) (st : Store) : Store :=
  set (mapMarkers (λ m,
    if bool_decide (Marker.id m = id) then Marker.with_value value m else m)) st.

(** ** Span operations *)

(** The overlap test of [addSpan] and [mergeSpans]:
    [aStart < bEnd && bStart < aEnd]. *)
Definition overlaps (aStart aEnd bStart bEnd : Z) : bool :=
  (aStart <? bEnd) && (bStart <? aEnd).

Definition addSpan (uuid : string) (span : NewSpan.t) (st : Store) : Store :=
  let state := get st in
  match findMarker (markers state) (NewSpan.startMarkerId span),
        findMarker (markers state) (NewSpan.endMarkerId span) with
  | Some newStart, Some newEnd =>
      let newStartMs := Z.min (Marker.time newStart) (Marker.time newEnd) in
      let newEndMs := Z.max (Marker.time newStart) (Marker.time newEnd) in
      let overlapping :=
        existsb (λ existing,
          if negb (bool_decide (Span.tierId existing = NewSpan.tierId span))
             || negb (bool_decide (Span.videoId existing = NewSpan.videoId span))
          then false
          else
            match findMarker (markers state) (Span.startMarkerId existing),
                  findMarker (markers state) (Span.endMarkerId existing) with
            | Some existStart, Some existEnd =>
                let existStartMs := Z.min (Marker.time existStart) (Marker.time existEnd) in
                let existEndMs := Z.max (Marker.time existStart) (Marker.time existEnd) in
                overlaps newStartMs newEndMs existStartMs existEndMs
            | _, _ => false
            end) (spans state) in
      if overlapping then st
      else set (mapSpans (λ sps, sps ++ [NewSpan.with_id (generateId "sp" uuid) span])) st
  | _, _ => st
  end.

Definition removeSpan (id : string) (st : Store) : Store :=
  set (mapSpans (filter (λ sp, Span.id sp ≠ id))) st.

Definition updateSpanGloss (id gloss : string) (st : Store) : Store :=
  set (mapSpans (fmap (λ sp,
    if bool_decide (Span.id sp = id) then Span.with_gloss gloss sp else sp))) st.

(** [parts.join(' + ')] *)
Fixpoint join (sep : string) (parts : list string) : string :=
  match parts with
  | [] => EmptyString
  | [p] => p
  | p :: rest => p +:+ sep +:+ join sep rest
  end.

(** The last part of [mergeSpans], once validation has passed: which
    markers stay as anchors, which go, the combined gloss, and the patch
    handed to [set]. *)
Definition mergeCommit (keepSpanId removeSpanId : string)
    (keepSpan removeSpan : Span.t) (keepStartMs removeStartMs : Z)
    (s : AnnotationState) : AnnotationState :=
  let isKeepFirst := bool_decide (keepStartMs ≤ removeStartMs) in
  let finalStartMarkerId :=
    if isKeepFirst then Span.startMarkerId keepSpan else Span.startMarkerId removeSpan in
  let finalEndMarkerId :=
    if isKeepFirst then Span.endMarkerId removeSpan else Span.endMarkerId keepSpan in
  let removeMarkerIds : gset string :=
    ({[ if isKeepFirst then Span.endMarkerId keepSpan else Span.endMarkerId removeSpan ]}
     ∪ {[ if isKeepFirst then Span.startMarkerId removeSpan
          else Span.startMarkerId keepSpan ]})
    ∖ {[ finalStartMarkerId ]} ∖ {[ finalEndMarkerId ]} in
  let glossParts :=
    List.filter truthy [Span.gloss keepSpan; Span.gloss removeSpan] in
  let combinedGloss := join " + " glossParts in
  mkState
    (filter (λ m, Marker.id m ∉ removeMarkerIds) (markers s))
    ((λ sp,
       if bool_decide (Span.id sp = keepSpanId)
       then Span.with_anchors finalStartMarkerId finalEndMarkerId combinedGloss sp
       else sp) <$> filter (λ sp, Span.id sp ≠ removeSpanId) (spans s))
    None
    (pendingMarkerId s)
    (Some keepSpanId)
    (editingSpanId s).

Definition mergeSpans (keepSpanId removeSpanId : string) (st : Store) : bool * Store :=
  let state := get st in
  match findSpan (spans state) keepSpanId, findSpan (spans state) removeSpanId with
  | Some keepSpan, Some removeSpan =>
    if negb (bool_decide (Span.tierId keepSpan = Span.tierId removeSpan))
       || negb (bool_decide (Span.videoId keepSpan = Span.videoId removeSpan))
    then (false, st)
    else
    match findMarker (markers state) (Span.startMarkerId keepSpan),
          findMarker (markers state) (Span.endMarkerId keepSpan),
          findMarker (markers state) (Span.startMarkerId removeSpan),
          findMarker (markers state) (Span.endMarkerId removeSpan) with
    | Some keepStart, Some keepEnd, Some removeStart, Some removeEnd =>
      let keepStartMs := Z.min (Marker.time keepStart) (Marker.time keepEnd) in
      let keepEndMs := Z.max (Marker.time keepStart) (Marker.time keepEnd) in
      let removeStartMs := Z.min (Marker.time removeStart) (Marker.time removeEnd) in
      let removeEndMs := Z.max (Marker.time removeStart) (Marker.time removeEnd) in
      let mergedStartMs := Z.min keepStartMs removeStartMs in
      let mergedEndMs := Z.max keepEndMs removeEndMs in
      let overlapsThird :=
        existsb (λ sp,
          if bool_decide (Span.id sp = keepSpanId) || bool_decide (Span.id sp = removeSpanId)
          then false
          else if negb (bool_decide (Span.tierId sp = Span.tierId keepSpan))
                  || negb (bool_decide (Span.videoId sp = Span.videoId keepSpan))
          then false
          else
            match findMarker (markers state) (Span.startMarkerId sp),
                  findMarker (markers state) (Span.endMarkerId sp) with
            | Some s, Some e =>
                let sMs := Z.min (Marker.time s) (Marker.time e) in
                let eMs := Z.max (Marker.time s) (Marker.time e) in
                overlaps mergedStartMs mergedEndMs sMs eMs
            | _, _ => false
            end) (spans state) in
      if overlapsThird then (false, st)
      else
        (true,
         set (mergeCommit keepSpanId removeSpanId keepSpan removeSpan
                keepStartMs removeStartMs) st)
    | _, _, _, _ => (false, st)
    end
  | _, _ => (false, st)
  end.

(** What the loop of [clearOverlappingSpans] collects. *)
Record Clearing : Type := mkClearing {
  removeSpanIds : gset string;
  removeMarkerIds : gset string;
  markerTimeUpdates : gmap string Z
}.

Definition noClearing : Clearing := mkClearing ∅ ∅ ∅.

(** One turn of the loop. *)
Definition clearStep (state : AnnotationState) (startMs endMs : Z)
    (tierId videoId : string) (acc : Clearing) (span : Span.t) : Clearing :=
  if negb (bool_decide (Span.tierId span = tierId))
     || negb (bool_decide (Span.videoId span = videoId))
  then acc
  else
    match findMarker (markers state) (Span.startMarkerId span),
          findMarker (markers state) (Span.endMarkerId span) with
    | Some sM, Some eM =>
        let sTime := Z.min (Marker.time sM) (Marker.time eM) in
        let eTime := Z.max (Marker.time sM) (Marker.time eM) in
        if (endMs <=? sTime) || (eTime <=? startMs) then acc
        else if (startMs <=? sTime) && (eTime <=? endMs) then
          mkClearing
            ({[ Span.id span ]} ∪ removeSpanIds acc)
            ({[ Span.endMarkerId span ]} ∪ ({[ Span.startMarkerId span ]} ∪ removeMarkerIds acc))
            (markerTimeUpdates acc)
        else if (sTime <? startMs) && (endMs <? eTime) then
          let endMarkerId :=
            if Marker.time sM <=? Marker.time eM
            then Span.endMarkerId span else Span.startMarkerId span in
          mkClearing (removeSpanIds acc) (removeMarkerIds acc)
            (<[ endMarkerId := startMs ]> (markerTimeUpdates acc))
        else if sTime <? startMs then
          let endMarkerId :=
            if Marker.time sM <=? Marker.time eM
            then Span.endMarkerId span else Span.startMarkerId span in
          mkClearing (removeSpanIds acc) (removeMarkerIds acc)
            (<[ endMarkerId := startMs ]> (markerTimeUpdates acc))
        else
          let startMarkerId :=
            if Marker.time sM <=? Marker.time eM
            then Span.startMarkerId span else Span.endMarkerId span in
          mkClearing (removeSpanIds acc) (removeMarkerIds acc)
            (<[ startMarkerId := endMs ]> (markerTimeUpdates acc))
    | _, _ => acc
    end.

Definition clearOverlappingSpans (startMs endMs : Z) (tierId videoId : string)
    (st : Store) : Store :=
  let state := get st in
  let c := foldl (clearStep state startMs endMs tierId videoId) noClearing (spans state) in
  if bool_decide (size (removeSpanIds c) = 0%nat)
     && bool_decide (size (markerTimeUpdates c) = 0%nat)
  then st
  else
    set (λ s,
      mkState
        ((λ m,
           match markerTimeUpdates c !! Marker.id m with
           | Some time => Marker.with_time time m
           | None => m
           end) <$> filter (λ m, Marker.id m ∉ removeMarkerIds c) (markers s))
        (filter (λ sp, Span.id sp ∉ removeSpanIds c) (spans s))
        (selectedMarkerId s) (pendingMarkerId s)
        (selectedSpanId s) (editingSpanId s)) st.

(** ** Bulk operations *)

Definition setMarkers (ms : list Marker.t) (st : Store) : Store :=
  set (λ s, mkState ms (spans s)
              (selectedMarkerId s) (pendingMarkerId s)
              (selectedSpanId s) (editingSpanId s)) st.

Definition setSpans (sps : list Span.t) (st : Store) : Store :=
  set (mapSpans (λ _, sps)) st.

Definition clearVideoAnnotations (videoId : string) (st : Store) : Store :=
  set (λ s,
    mkState
      (filter (λ m, Marker.videoId m ≠ videoId) (markers s))
      (filter (λ sp, Span.videoId sp ≠ videoId) (spans s))
      (selectedMarkerId s) (pendingMarkerId s)
      (selectedSpanId s) (editingSpanId s)) st.


(** * services/export: the CSV and JSON exporters

    Strings are sequences of bytes; the byte order mark U+FEFF is its three
    UTF-8 bytes. *)

Module Tier.
Record t : Type := mk {
  id : string;
  name : string;
  markerTypes : list string;
  visible : bool;
  locked : bool;
  color : string
}.
End Tier.

Module MarkerType.
Inductive category : Type := boundary | phase | feature | custom.
Record t : Type := mk {
  id : string;
  key : string;
  name : string;
  color : string;
  cat : category;
  description : option string
}.
End MarkerType.

(** What an invocation reads from its surroundings: the value of
    [new Date().toISOString()]. *)
Record Env : Type := mkEnv {
  dateNowISO : string
}.

Definition quoteChar : ascii := "034".
Definition backslashChar : ascii := "092".
Definition newlineChar : ascii := "010".
Definition quote : string := String quoteChar EmptyString.
Definition newline : string := String newlineChar EmptyString.
Definition bom : string := String "239" (String "187" (String "191" EmptyString)).

(** [value.includes(c)] for a single character. *)
Fixpoint includes (c : ascii) (value : string) : bool :=
  match value with
  | EmptyString => false
  | String x rest => bool_decide (x = c) || includes c rest
  end.

(** [value.replace] of every double quote by two double quotes. *)
Fixpoint doubleQuotes (value : string) : string :=
  match value with
  | EmptyString => EmptyString
  | String x rest =>
      if bool_decide (x = quoteChar)
      then String quoteChar (String quoteChar (doubleQuotes rest))
      else String x (doubleQuotes rest)
  end.

Definition csvEscape (value : string) : string :=
  if includes quoteChar value || includes "," value || includes newlineChar value
  then quote +:+ doubleQuotes value +:+ quote
  else quote +:+ value +:+ quote.

(** [new Map(entries)]: a later entry for a key replaces an earlier one. *)
Definition mapOf {V} (entries : list (string * V)) : gmap string V :=
  foldl (λ m kv, <[ kv.1 := kv.2 ]> m) ∅ entries.

(** [.sort((a, b) => a.time - b.time)]: a stable sort by time. *)
Fixpoint insertByTime (m : Marker.t) (sorted : list Marker.t) : list Marker.t :=
  match sorted with
  | [] => [m]
  | x :: rest =>
      if Marker.time m <=? Marker.time x then m :: x :: rest
      else x :: insertByTime m rest
  end.

Definition sortByTime (ms : list Marker.t) : list Marker.t :=
  foldr insertByTime [] ms.

(** [String(n)] for an integer. *)
Definition stringOfInt (n : Z) : string := pretty n.

(** [(ms / 1000).toFixed(3)] for an integer number of milliseconds. *)
Definition pad3 (n : Z) : string :=
  (if n <? 100 then "0" else EmptyString)
  +:+ (if n <? 10 then "0" else EmptyString)
  +:+ pretty n.

Definition toFixed3 (ms : Z) : string :=
  (if ms <? 0 then "-" else EmptyString)
  +:+ pretty (Z.abs ms / 1000) +:+ "." +:+ pad3 (Z.abs ms mod 1000).

Definition exportMarkersCsv (env : Env) (markers : list Marker.t) (tiers : list Tier.t)
    (markerTypes : list MarkerType.t) (videoName : string)
    (annotatorId : option string) (spans : option (list Span.t)) : string :=
  let confirmed := sortByTime (List.filter Marker.confirmed markers) in
  let tierMap := mapOf ((λ t, (Tier.id t, Tier.name t)) <$> tiers) in
  let typeMap := mapOf ((λ mt, (MarkerType.id mt, MarkerType.name mt)) <$> markerTypes) in
  let markerMap := mapOf ((λ m, (Marker.id m, m)) <$> markers) in
  let rows :=
    [ join "," ["Video"; "Time (ms)"; "Time (s)"; "Tier"; "Marker Type"; "Annotator"] ]
    ++ ((λ m,
           join ","
             [ csvEscape videoName;
               stringOfInt (Marker.time m);
               toFixed3 (Marker.time m);
               csvEscape (default EmptyString (tierMap !! Marker.tierId m));
               csvEscape (default EmptyString (typeMap !! Marker.typeId m));
               csvEscape (default EmptyString annotatorId) ]) <$> confirmed) in
  let spanRows :=
    match spans with
    | Some ((_ :: _) as spans) =>
        let validSpans :=
          List.filter (λ s,
            bool_decide (is_Some (markerMap !! Span.startMarkerId s))
            && bool_decide (is_Some (markerMap !! Span.endMarkerId s))) spans in
        match validSpans with
        | _ :: _ =>
            [ EmptyString;
              join "," ["Video"; "Start Time (ms)"; "End Time (ms)"; "Duration (ms)";
                        "Tier"; "Gloss"] ]
            ++ ((λ s,
                  let startTime :=
                    default 0 (Marker.time <$> markerMap !! Span.startMarkerId s) in
                  let endTime :=
                    default 0 (Marker.time <$> markerMap !! Span.endMarkerId s) in
                  join ","
                    [ csvEscape videoName;
                      stringOfInt startTime;
                      stringOfInt endTime;
                      stringOfInt (endTime - startTime);
                      csvEscape (default EmptyString (tierMap !! Span.tierId s));
                      csvEscape (Span.gloss s) ]) <$> validSpans)
        | [] => []
        end
    | _ => []
    end in
  bom +:+ join newline (rows ++ spanRows).

(** ** JSON.stringify(value, null, 2) *)

#[local] Unset Elimination Schemes.
Inductive JsonValue : Type :=
  | JString (s : string)
  | JNumber (n : Z)
  | JArray (items : list JsonValue)
  | JObject (members : list (string * JsonValue)).
#[local] Set Elimination Schemes.

Definition hexDigit (n : N) : ascii :=
  match n with
  | 0 => "0" | 1 => "1" | 2 => "2" | 3 => "3" | 4 => "4" | 5 => "5" | 6 => "6"
  | 7 => "7" | 8 => "8" | 9 => "9" | 10 => "a" | 11 => "b" | 12 => "c"
  | 13 => "d" | 14 => "e" | _ => "f"
  end%char%N.

(** The escape of one character in a JSON string. *)
Definition escapeChar (c : ascii) : string :=
  let n := N_of_ascii c in
  if bool_decide (c = quoteChar) then String backslashChar (String quoteChar EmptyString)
  else if bool_decide (c = backslashChar)
  then String backslashChar (String backslashChar EmptyString)
  else if bool_decide (n = 8%N) then String backslashChar "b"
  else if bool_decide (n = 9%N) then String backslashChar "t"
  else if bool_decide (n = 10%N) then String backslashChar "n"
  else if bool_decide (n = 12%N) then String backslashChar "f"
  else if bool_decide (n = 13%N) then String backslashChar "r"
  else if bool_decide (n < 32)%N
  then String backslashChar
         (String "u" (String "0" (String "0"
            (String (hexDigit (n / 16)) (String (hexDigit (n mod 16)) EmptyString)))))
  else String c EmptyString.

Fixpoint escapeJson (s : string) : string :=
  match s with
  | EmptyString => EmptyString
  | String c rest => escapeChar c +:+ escapeJson rest
  end.

Definition quoteJson (s : string) : string := quote +:+ escapeJson s +:+ quote.

Fixpoint stringify (indent : string) (v : JsonValue) : string :=
  match v with
  | JString s => quoteJson s
  | JNumber n => stringOfInt n
  | JArray [] => "[]"
  | JArray items =>
      let inner := indent +:+ "  " in
      "[" +:+ newline +:+ inner
      +:+ join ("," +:+ newline +:+ inner) (List.map (stringify inner) items)
      +:+ newline +:+ indent +:+ "]"
  | JObject [] => "{}"
  | JObject members =>
      let inner := indent +:+ "  " in
      "{" +:+ newline +:+ inner
      +:+ join ("," +:+ newline +:+ inner)
            (List.map (λ kv, quoteJson kv.1 +:+ ": " +:+ stringify inner kv.2) members)
      +:+ newline +:+ indent +:+ "}"
  end.

(** [exportAnnotationsJson], in either calling convention (positional
    arguments or one options object: both are unpacked into the same
    variables). *)
Definition exportAnnotationsJson (env : Env) (markers : list Marker.t)
    (spans : list Span.t) (tiers : list Tier.t) (markerTypes : list MarkerType.t)
    (videoName : string) (annotator version : option string) : string :=
  let tierMap := mapOf ((λ t, (Tier.id t, Tier.name t)) <$> tiers) in
  let typeMap := mapOf ((λ mt, (MarkerType.id mt, MarkerType.name mt)) <$> markerTypes) in
  let markerMap := mapOf ((λ m, (Marker.id m, m)) <$> markers) in
  let validSpans :=
    List.filter (λ s,
      bool_decide (is_Some (markerMap !! Span.startMarkerId s))
      && bool_decide (is_Some (markerMap !! Span.endMarkerId s))) spans in
  stringify EmptyString
    (JObject
       ([ ("video", JString videoName);
          ("exportedAt", JString (dateNowISO env)) ]
        ++ (match annotator with
            | Some a => if truthy a then [("annotator", JString a)] else []
            | None => []
            end)
        ++ (match version with
            | Some v => if truthy v then [("version", JString v)] else []
            | None => []
            end)
        ++ [ ("tiers",
              JArray ((λ t, JObject [ ("id", JString (Tier.id t));
                                      ("name", JString (Tier.name t)) ]) <$> tiers));
             ("markerTypes",
              JArray ((λ mt, JObject [ ("id", JString (MarkerType.id mt));
                                       ("name", JString (MarkerType.name mt));
                                       ("key", JString (MarkerType.key mt)) ])
                        <$> markerTypes));
             ("markers",
              JArray ((λ m, JObject
                         [ ("id", JString (Marker.id m));
                           ("time", JNumber (Marker.time m));
                           ("type", JString (default EmptyString
                                               (typeMap !! Marker.typeId m)));
                           ("tier", JString (default EmptyString
                                               (tierMap !! Marker.tierId m))) ])
                        <$> sortByTime (List.filter Marker.confirmed markers)));
             ("spans",
              JArray ((λ s, JObject
                         [ ("start", JNumber (default 0 (Marker.time <$>
                                        markerMap !! Span.startMarkerId s)));
                           ("end", JNumber (default 0 (Marker.time <$>
                                        markerMap !! Span.endMarkerId s)));
                           ("gloss", JString (Span.gloss s));
                           ("tier", JString (default EmptyString
                                               (tierMap !! Span.tierId s))) ])
                        <$> validSpans)) ])).

(** * The rest of the annotation store: selection and queries *)

(** ** Selection *)

(** [set({ selectedMarkerId: id, ...(id ? { selectedSpanId: null,
    editingSpanId: null } : {}) })] *)
Definition selectMarker (id : option string) (st : Store) : Store :=
  set (λ s,
    if truthy_opt id
    then mkState (markers s) (spans s) id (pendingMarkerId s) None None
    else mkState (markers s) (spans s) id (pendingMarkerId s)
           (selectedSpanId s) (editingSpanId s)) st.

(** [set({ selectedSpanId: id, editingSpanId: null, ...(id ? {
    selectedMarkerId: null } : {}) })] *)
Definition selectSpan (id : option string) (st : Store) : Store :=
  set (λ s,
    if truthy_opt id
    then mkState (markers s) (spans s) None (pendingMarkerId s) id None
    else mkState (markers s) (spans s) (selectedMarkerId s) (pendingMarkerId s) id None) st.

Definition setEditingSpan (id : option string) (st : Store) : Store :=
  set (λ s, mkState (markers s) (spans s) (selectedMarkerId s) (pendingMarkerId s)
              (selectedSpanId s) id) st.

(** [set({ selectedMarkerId: id })] *)
Definition setSelectedMarkerId (id : string) (st : Store) : Store :=
  set (λ s, mkState (markers s) (spans s) (Some id) (pendingMarkerId s)
              (selectedSpanId s) (editingSpanId s)) st.

(** [.sort((a, b) => b.time - a.time)]: a stable sort by time, latest
    first. *)
Fixpoint insertByTimeDesc (m : Marker.t) (sorted : list Marker.t) : list Marker.t :=
  match sorted with
  | [] => [m]
  | x :: rest =>
      if Marker.time x <=? Marker.time m then m :: x :: rest
      else x :: insertByTimeDesc m rest
  end.

Definition sortByTimeDesc (ms : list Marker.t) : list Marker.t :=
  foldr insertByTimeDesc [] ms.

(** [markers.filter((m) => m.videoId === videoId && m.confirmed)] *)
Definition confirmedOn (videoId : string) (ms : list Marker.t) : list Marker.t :=
  List.filter (λ m, bool_decide (Marker.videoId m = videoId) && Marker.confirmed m) ms.

(** [currentTime] is the position of the playhead in seconds, a double
    ([float]); [currentTime * 1000], [+ 1] and [- 1] are the IEEE 754
    operations.  Marker times are integers, and comparing one with a
    double compares the two values exactly: a finite double is
    [m * 2 ^ e] for integers [m] and [e]. *)

(** [z > x] for an integer [z] and a double [x]: [false] when [x] is
    NaN. *)
Definition gtDouble (z : Z) (x : float) : bool :=
  match Prim2SF x with
  | S754_zero _ => 0 <? z
  | S754_infinity negative => negative
  | S754_nan => false
  | S754_finite negative m e =>
      let n := if negative then Z.neg m else Z.pos m in
      if 0 <=? e then n * 2 ^ e <? z else n <? z * 2 ^ (- e)
  end.

(** [z < x] for an integer [z] and a double [x]: [false] when [x] is
    NaN. *)
Definition ltDouble (z : Z) (x : float) : bool :=
  match Prim2SF x with
  | S754_zero _ => z <? 0
  | S754_infinity negative => negb negative
  | S754_nan => false
  | S754_finite negative m e =>
      let n := if negative then Z.neg m else Z.pos m in
      if 0 <=? e then z <? n * 2 ^ e else z * 2 ^ (- e) <? n
  end.

Definition selectNextMarker (videoId : string) (currentTime : float) (st : Store) : Store :=
  let markers := sortByTime (confirmedOn videoId (markers (get st))) in
  let currentMs := (currentTime * 1000)%float in
  match List.find (λ m, gtDouble (Marker.time m) (currentMs + 1)%float) markers with
  | Some next => setSelectedMarkerId (Marker.id next) st
  | None =>
      match markers with
      | first :: _ => setSelectedMarkerId (Marker.id first) st
      | [] => st
      end
  end.

Definition selectPrevMarker (videoId : string) (currentTime : float) (st : Store) : Store :=
  let markers := sortByTimeDesc (confirmedOn videoId (markers (get st))) in
  let currentMs := (currentTime * 1000)%float in
  match List.find (λ m, ltDouble (Marker.time m) (currentMs - 1)%float) markers with
  | Some prev => setSelectedMarkerId (Marker.id prev) st
  | None =>
      match markers with
      | first :: _ => setSelectedMarkerId (Marker.id first) st
      | [] => st
      end
  end.

(** ** Queries *)

Definition getVideoMarkers (videoId : string) (st : Store) : list Marker.t :=
  filter (λ m, Marker.videoId m = videoId) (markers (get st)).

Definition getVideoSpans (videoId : string) (st : Store) : list Span.t :=
  filter (λ sp, Span.videoId sp = videoId) (spans (get st)).

Definition getTierMarkers (tierId videoId : string) (st : Store) : list Marker.t :=
  filter (λ m, Marker.tierId m = tierId ∧ Marker.videoId m = videoId) (markers (get st)).

(** * hooks/useKeyboardShortcuts.ts: the Delete key

    What the handler of Delete and Backspace does to the annotation store
    (the toast it shows is left out).  [annStore] is the state read when
    the key event arrives: the selected span is looked up in it, then the
    span and its two anchor markers are removed by three calls; without a
    selected span, the selected marker is removed. *)
Definition deleteSelection (st : Store) : Store :=
  let annStore := get st in
  let deleteMarker :=
    match selectedMarkerId annStore with
    | Some selectedId =>
        if truthy selectedId then removeMarker selectedId st else st
    | None => st
    end in
  match selectedSpanId annStore with
  | Some selectedSpanId =>
      if truthy selectedSpanId then
        match findSpan (spans annStore) selectedSpanId with
        | Some span =>
            let st1 := removeSpan selectedSpanId st in
            let st2 :=
              if truthy (Span.startMarkerId span)
              then removeMarker (Span.startMarkerId span) st1 else st1 in
            if truthy (Span.endMarkerId span)
            then removeMarker (Span.endMarkerId span) st2 else st2
        | None => st
        end
      else deleteMarker
  | None => deleteMarker
  end.

(** * hooks/useKeyboardShortcuts.ts: releasing a held type key

    [finalizeHold], for an active hold.  The marker placed when the key
    went down is [hold.startMarkerId]; [endTimeMs] is the position of the
    playhead, in milliseconds, when the key is released.  The toasts are
    left out. *)
Record HoldState : Type := mkHold {
  hold_key : string;
  hold_startMarkerId : string;
  hold_typeId : string;
  hold_tierId : string;
  hold_videoId : string;
  hold_existingSpanId : option string
}.

(** [s.endsWith(suffix)] *)
Definition endsWith (s suffix : string) : bool :=
  let n := String.length s in
  let k := String.length suffix in
  bool_decide (k ≤ n)%nat && bool_decide (String.substring (n - k) k s = suffix).

(** [id.replace(/-start$/, '-end')], for an id that ends with [-start]. *)
Definition startToEnd (id : string) : string :=
  String.substring 0 (String.length id - 6) id +:+ "-end".

(** The type of the end marker: the [-end] type that goes with a [-start]
    type, when the tier allows it. *)
Definition holdEndTypeId (hold : HoldState) (tiers : list Tier.t)
    (markerTypes : list MarkerType.t) : string :=
  match List.find (λ mt, bool_decide (MarkerType.id mt = hold_typeId hold)) markerTypes with
  | Some startType =>
      if endsWith (MarkerType.id startType) "-start" then
        let endSuffix := startToEnd (MarkerType.id startType) in
        let tierAllowed : list string :=
          default [] (Tier.markerTypes <$>
                        List.find (λ t, bool_decide (Tier.id t = hold_tierId hold)) tiers) in
        match List.find (λ mt, bool_decide (MarkerType.id mt = endSuffix)
                               && bool_decide (MarkerType.id mt ∈ tierAllowed)) markerTypes with
        | Some endType => MarkerType.id endType
        | None => hold_typeId hold
        end
      else hold_typeId hold
  | None => hold_typeId hold
  end.

(** [handleEndMarkerPairing], which a quick tap (less than 20 ms) hands
    over to, is an argument. *)
Definition finalizeHold (handleEndMarkerPairing : Store → Store)
    (uuidMarker uuidSpan : string) (endTimeMs : Z)
    (hold : HoldState) (tiers : list Tier.t) (markerTypes : list MarkerType.t)
    (st : Store) : Store :=
  let annStore := get st in
  match findMarker (markers annStore) (hold_startMarkerId hold) with
  | None => st
  | Some endMarker =>
      if truthy_opt (hold_existingSpanId hold) then
        let st1 :=
          if Marker.time endMarker + 20 <? endTimeMs
          then updateMarkerTime (hold_startMarkerId hold) endTimeMs st else st in
        selectSpan (hold_existingSpanId hold) st1
      else if Z.abs (endTimeMs - Marker.time endMarker) <? 20 then
        handleEndMarkerPairing st
      else
        let endTypeId := holdEndTypeId hold tiers markerTypes in
        let placed :=
          placeMarker uuidMarker endTimeMs (hold_tierId hold) (hold_videoId hold) st in
        let endId := placed.1 in
        let st2 := confirmMarker endId endTypeId placed.2 in
        let spanStartId :=
          if Marker.time endMarker <=? endTimeMs then hold_startMarkerId hold else endId in
        let spanEndId :=
          if Marker.time endMarker <=? endTimeMs then endId else hold_startMarkerId hold in
        let holdStartMs := Z.min (Marker.time endMarker) endTimeMs in
        let holdEndMs := Z.max (Marker.time endMarker) endTimeMs in
        let st3 :=
          clearOverlappingSpans holdStartMs holdEndMs (hold_tierId hold) (hold_videoId hold)
            st2 in
        let st4 :=
          addSpan uuidSpan
            (NewSpan.mk spanStartId spanEndId (hold_tierId hold) (hold_videoId hold)
               EmptyString) st3 in
        match List.find (λ sp, bool_decide (Span.startMarkerId sp = spanStartId)
                               && bool_decide (Span.endMarkerId sp = spanEndId))
                (spans (get st4)) with
        | Some newSpan => selectSpan (Some (Span.id newSpan)) st4
        | None => st4
        end
  end.
(** * Specification predicates and scenarios *)

(** ** Effective intervals and overlap *)

(** The effective interval of a span: [min, max) of the times of its two
    anchors, when both are in the markers list. *)
Definition interval (ms : list Marker.t) (sp : Span.t) : option (Z * Z) :=
  match findMarker ms (Span.startMarkerId sp), findMarker ms (Span.endMarkerId sp) with
  | Some sM, Some eM =>
      Some (Z.min (Marker.time sM) (Marker.time eM),
            Z.max (Marker.time sM) (Marker.time eM))
  | _, _ => None
  end.

(** Two half-open intervals intersect when each starts before the other
    ends.  This is the test the store applies; for non-empty intervals it
    says that they share a point ([intersects_share_point] below), and an
    empty interval [t, t) is treated as the point [t]. *)
Definition intersects (a b : Z * Z) : Prop := a.1 < b.2 ∧ b.1 < a.2.

#[global] Instance intersects_dec a b : Decision (intersects a b).
Proof. unfold intersects. apply _. Defined.

Definition onTrack (tierId videoId : string) (sp : Span.t) : Prop :=
  Span.tierId sp = tierId ∧ Span.videoId sp = videoId.

#[global] Instance onTrack_dec t v sp : Decision (onTrack t v sp).
Proof. unfold onTrack. apply _. Defined.

(** A relation holds between every two elements at different places of a
    list. *)
Fixpoint pairwise {A : Type} (R : A → A → Prop) (l : list A) : Prop :=
  match l with
  | [] => True
  | x :: l' => Forall (R x) l' ∧ pairwise R l'
  end.

#[global] Instance pairwise_dec {A} (R : A → A → Prop)
  `{!∀ x y, Decision (R x y)} (l : list A) : Decision (pairwise R l).
Proof. induction l; simpl; apply _. Defined.

(** Two spans are compatible when, if they lie on the same tier and video
    and all four anchors exist, their effective intervals do not
    intersect. *)
Definition compatible (ms : list Marker.t) (x y : Span.t) : Prop :=
  Span.tierId x = Span.tierId y → Span.videoId x = Span.videoId y →
  match interval ms x, interval ms y with
  | Some a, Some b => ¬ intersects a b
  | _, _ => True
  end.

#[global] Instance compatible_dec ms x y : Decision (compatible ms x y).
Proof.
  unfold compatible. destruct (interval ms x), (interval ms y); apply _.
Defined.

(** A span keeps clear of the interval [a] on a tier and video: it lies on
    another tier or video, or an anchor of it is missing, or its effective
    interval does not intersect [a]. *)
Definition avoids (ms : list Marker.t) (tierId videoId : string) (a : Z * Z)
    (sp : Span.t) : Prop :=
  onTrack tierId videoId sp →
  match interval ms sp with
  | Some c => ¬ intersects a c
  | None => True
  end.

#[global] Instance avoids_dec ms t v a sp : Decision (avoids ms t v a sp).
Proof. unfold avoids. destruct (interval ms sp); apply _. Defined.

(** The no-overlap invariant of a state. *)
Definition NoOverlap (s : AnnotationState) : Prop :=
  pairwise (compatible (markers s)) (spans s).

Definition UniqueSpanIds (s : AnnotationState) : Prop :=
  NoDup (Span.id <$> spans s).

(** The anchors of a span, as a set of marker ids. *)
Definition anchors (sp : Span.t) : gset string :=
  {[ Span.startMarkerId sp ]} ∪ {[ Span.endMarkerId sp ]}.

(** ** mergeSpans: validation *)

(** The merged interval of two intervals: [min of the starts, max of the
    ends). *)
Definition mergedInterval (k r : Z * Z) : Z * Z :=
  (Z.min k.1 r.1, Z.max k.2 r.2).

(** A third span in the way of a merge: another span (by id) on the tier
    and video of the kept span, with both anchors present, whose interval
    intersects the merged interval [m]. *)
Definition blocksMerge (s : AnnotationState) (keepId removeId : string)
    (keep : Span.t) (m : Z * Z) (third : Span.t) : Prop :=
  Span.id third ≠ keepId ∧ Span.id third ≠ removeId ∧
  onTrack (Span.tierId keep) (Span.videoId keep) third ∧
  match interval (markers s) third with
  | Some c => intersects m c
  | None => False
  end.

#[global] Instance blocksMerge_dec s k r keep m third :
  Decision (blocksMerge s k r keep m third).
Proof. unfold blocksMerge. destruct (interval (markers s) third); apply _. Defined.

(** Validation of [mergeSpans keepId removeId] fails when a span id does
    not resolve, the two spans differ in tier or video, an anchor marker is
    missing, or the merged interval intersects a third span. *)
Definition ValidationFails (s : AnnotationState) (keepId removeId : string) : Prop :=
  match findSpan (spans s) keepId, findSpan (spans s) removeId with
  | Some keep, Some remove =>
      Span.tierId keep ≠ Span.tierId remove ∨
      Span.videoId keep ≠ Span.videoId remove ∨
      match interval (markers s) keep, interval (markers s) remove with
      | Some k, Some r =>
          Exists (blocksMerge s keepId removeId keep (mergedInterval k r)) (spans s)
      | _, _ => True
      end
  | _, _ => True
  end.

#[global] Instance ValidationFails_dec s k r : Decision (ValidationFails s k r).
Proof.
  unfold ValidationFails.
  destruct (findSpan (spans s) k) as [keep|], (findSpan (spans s) r) as [remove|];
    try apply _.
  destruct (interval (markers s) keep), (interval (markers s) remove); apply _.
Defined.

(** *** The rejection scenario of the specification

    A = [0, 1000], B = [1000, 2500] and a third span C = [2000, 3000] on
    the same tier and video: merging A and B would reach 2500. *)
Definition mk_marker (id : string) (time : Z) (tierId : string) : Marker.t :=
  Marker.mk id time "sign-start" tierId "v1" true None.

Definition rejectStore : Store :=
  mkStore
    (mkState
       [ mk_marker "a0" 0 "t1"; mk_marker "a1" 1000 "t1";
         mk_marker "b0" 1000 "t1"; mk_marker "b1" 2500 "t1";
         mk_marker "c0" 2000 "t1"; mk_marker "c1" 3000 "t1" ]
       [ Span.mk "A" "a0" "a1" "t1" "v1" "HELLO";
         Span.mk "B" "b0" "b1" "t1" "v1" "WORLD";
         Span.mk "C" "c0" "c1" "t1" "v1" "THIRD" ]
       None None None None)
    [] [].

(** *** The merge scenario of the specification

    A = [0, 1000] with gloss HELLO and the adjacent B = [1000, 2000] with
    gloss WORLD. *)
Definition spanA : Span.t := Span.mk "A" "a0" "a1" "t1" "v1" "HELLO".
Definition spanB : Span.t := Span.mk "B" "b0" "b1" "t1" "v1" "WORLD".

Definition mergeStore : Store :=
  mkStore
    (mkState
       [ mk_marker "a0" 0 "t1"; mk_marker "a1" 1000 "t1";
         mk_marker "b0" 1000 "t1"; mk_marker "b1" 2000 "t1" ]
       [ spanA; spanB ]
       None None None None)
    [] [].


(** *** What a merge leaves behind

    [Merged st A B m st']: in [st'] no span has the id of [B]; the span
    that the id of [A] resolves to lies on the tier and video of [A], has
    [m] as its effective interval (its anchors are the outermost pair),
    carries the two glosses joined by [" + "] with empty ones skipped; and
    the markers list has lost the anchors of [A] and [B] that are not
    anchors of the merged span, and nothing else. *)
Definition Merged (st : Store) (A B : Span.t) (m : Z * Z) (st' : Store) : Prop :=
  findSpan (spans (get st')) (Span.id B) = None ∧
  ∃ A',
    findSpan (spans (get st')) (Span.id A) = Some A' ∧
    onTrack (Span.tierId A) (Span.videoId A) A' ∧
    interval (markers (get st')) A' = Some m ∧
    Span.gloss A' = join " + " (List.filter truthy [Span.gloss A; Span.gloss B]) ∧
    markers (get st') =
      filter (λ mk, Marker.id mk ∉ (anchors A ∪ anchors B) ∖ anchors A')
        (markers (get st)).

(** The merge property as the specification words it: any two distinct
    spans of one tier and video, with their four anchors present and no
    third span in the way of the merged interval. *)
Definition MergesAsClaimed (st : Store) (A B : Span.t) : Prop :=
  ∀ a b,
    findSpan (spans (get st)) (Span.id A) = Some A →
    findSpan (spans (get st)) (Span.id B) = Some B →
    Span.id A ≠ Span.id B →
    onTrack (Span.tierId A) (Span.videoId A) B →
    interval (markers (get st)) A = Some a →
    interval (markers (get st)) B = Some b →
    Forall (λ sp, Span.id sp ≠ Span.id A → Span.id sp ≠ Span.id B →
                  avoids (markers (get st)) (Span.tierId A) (Span.videoId A)
                    (mergedInterval a b) sp)
      (spans (get st)) →
    ∃ st', mergeSpans (Span.id A) (Span.id B) st = (true, st') ∧
           Merged st A B (mergedInterval a b) st'.

(** A = [0, 3000] around B = [1000, 2000]. *)
Definition containStore : Store :=
  mkStore
    (mkState
       [ mk_marker "a0" 0 "t1"; mk_marker "a1" 3000 "t1";
         mk_marker "b0" 1000 "t1"; mk_marker "b1" 2000 "t1" ]
       [ spanA; spanB ]
       None None None None)
    [] [].

(** A = [0, 1000] drawn right to left (its start marker is the later one),
    next to B = [1000, 2000]. *)
Definition reversedStore : Store :=
  mkStore
    (mkState
       [ mk_marker "a0" 1000 "t1"; mk_marker "a1" 0 "t1";
         mk_marker "b0" 1000 "t1"; mk_marker "b1" 2000 "t1" ]
       [ spanA; spanB ]
       None None None None)
    [] [].

(** ** Sequences of marker operations *)

Inductive MarkerOp : Type :=
  | OpPlaceMarker (uuid : string) (time : Z) (tierId videoId : string)
  | OpConfirmMarker (markerId typeId : string)
  | OpCancelPendingMarker.

Definition runMarkerOp (op : MarkerOp) (st : Store) : Store :=
  match op with
  | OpPlaceMarker uuid time tierId videoId => (placeMarker uuid time tierId videoId st).2
  | OpConfirmMarker markerId typeId => confirmMarker markerId typeId st
  | OpCancelPendingMarker => cancelPendingMarker st
  end.

Definition runMarkerOps (ops : list MarkerOp) (st : Store) : Store :=
  foldl (λ st op, runMarkerOp op st) st ops.

(** The number of markers with [confirmed = false]. *)
Definition unconfirmedCount (s : AnnotationState) : nat :=
  length (filter (λ m, Marker.confirmed m = false) (markers s)).

(** Every unconfirmed marker is the pending one, and there is at most one. *)
Definition PendingInv (s : AnnotationState) : Prop :=
  (unconfirmedCount s ≤ 1)%nat ∧
  ∀ m, m ∈ markers s → Marker.confirmed m = false →
       pendingMarkerId s = Some (Marker.id m) ∧ truthy (Marker.id m) = true.

(** Every [placeMarker] of the sequence is issued while no marker is
    pending, as the Enter and Space handlers do (they cancel the pending
    marker first). *)
Fixpoint placesWhenIdle (st : Store) (ops : list MarkerOp) : Prop :=
  match ops with
  | [] => True
  | op :: rest =>
      match op with
      | OpPlaceMarker _ _ _ _ => pendingMarkerId (get st) = None
      | _ => True
      end ∧ placesWhenIdle (runMarkerOp op st) rest
  end.

#[global] Instance placesWhenIdle_dec st ops : Decision (placesWhenIdle st ops).
Proof.
  revert st. induction ops as [|op ops IH]; intros st; simpl; [apply _|].
  destruct op; apply _.
Defined.

(** Drawing a span on the timeline: two markers placed in a row. *)
Definition drawOps : list MarkerOp :=
  [ OpPlaceMarker "u1" 500 "t1" "v1"; OpPlaceMarker "u2" 1500 "t1" "v1" ].

(** Enter, a type key, Enter, Escape, Enter (which finds no pending marker). *)
Definition keyboardOps : list MarkerOp :=
  [ OpPlaceMarker "u1" 500 "t1" "v1"; OpConfirmMarker "m_u1" "sign-start";
    OpPlaceMarker "u2" 900 "t1" "v1"; OpCancelPendingMarker;
    OpPlaceMarker "u3" 1200 "t1" "v1" ].

(** ** confirmMarker *)

(** The time of marker [m] falls strictly inside the effective interval of
    span [sp], a span on the tier and video of [m] with both anchors
    present. *)
Definition strictlyInside (ms : list Marker.t) (m : Marker.t) (sp : Span.t) : Prop :=
  onTrack (Marker.tierId m) (Marker.videoId m) sp ∧
  match interval ms sp with
  | Some a => a.1 < Marker.time m < a.2
  | None => False
  end.

#[global] Instance strictlyInside_dec ms m sp : Decision (strictlyInside ms m sp).
Proof. unfold strictlyInside. destruct (interval ms sp); apply _. Defined.

(** The id of the marker that [confirmMarker] moves: the end marker of the
    first span, in list order, that has the time of [m] strictly inside,
    when that id is a non-empty string. *)
Definition snappedId (s : AnnotationState) (m : Marker.t) : option string :=
  match list_find (strictlyInside (markers s) m) (spans s) with
  | Some (_, sp) =>
      if truthy (Span.endMarkerId sp) then Some (Span.endMarkerId sp) else None
  | None => None
  end.

(** What becomes of a marker [x] when [m] is confirmed as [typeId] and the
    marker with id [snap] is moved: the markers with the id of [m] get the
    type and [confirmed = true] and nothing else changes in them; the
    others with id [snap] get the time of [m]; every other marker is as it
    was. *)
Definition confirmedFrom (m : Marker.t) (typeId : string) (snap : option string)
    (x x' : Marker.t) : Prop :=
  if decide (Marker.id x = Marker.id m) then x' = Marker.confirm typeId x
  else if decide (snap = Some (Marker.id x)) then x' = Marker.with_time (Marker.time m) x
  else x' = x.

(** The snapping as the specification words it: whenever the time of [m]
    is strictly inside a span of its tier and video, the end marker of that
    span is at the time of [m] afterwards. *)
Definition SnapsEverySpan (st : Store) (m : Marker.t) (typeId : string) : Prop :=
  ∀ sp, sp ∈ spans (get st) → strictlyInside (markers (get st)) m sp →
    ∃ e, findMarker (markers (get (confirmMarker (Marker.id m) typeId st)))
           (Span.endMarkerId sp) = Some e ∧
         Marker.time e = Marker.time m.

Definition pendingAt500 : Marker.t :=
  Marker.mk "p" 500 EmptyString "t1" "v1" false None.

(** Two spans, [0, 1000] and [0, 2000], both around the pending marker. *)
Definition overlapStore : Store :=
  mkStore
    (mkState
       [ mk_marker "a0" 0 "t1"; mk_marker "a1" 1000 "t1";
         mk_marker "c0" 0 "t1"; mk_marker "c1" 2000 "t1"; pendingAt500 ]
       [ Span.mk "S1" "a0" "a1" "t1" "v1" "ONE";
         Span.mk "S2" "c0" "c1" "t1" "v1" "TWO" ]
       (Some "p") (Some "p") None None)
    [] [].

(** One span [0, 1000] whose end marker has the empty string as id. *)
Definition emptyIdStore : Store :=
  mkStore
    (mkState
       [ mk_marker "a0" 0 "t1"; mk_marker EmptyString 1000 "t1"; pendingAt500 ]
       [ Span.mk "S1" "a0" EmptyString "t1" "v1" "ONE" ]
       (Some "p") (Some "p") None None)
    [] [].

(** ** The cascade invariant *)

(** No span references a marker id that is absent from the markers list. *)
Definition NoDangling (s : AnnotationState) : Prop :=
  Forall (λ sp, is_Some (findMarker (markers s) (Span.startMarkerId sp)) ∧
                is_Some (findMarker (markers s) (Span.endMarkerId sp)))
    (spans s).

#[global] Instance NoDangling_dec s : Decision (NoDangling s).
Proof. unfold NoDangling. apply _. Defined.

(** Drawing a span on an empty tier: [placeMarker] twice, then [addSpan]
    between the two markers.  The second marker is left pending. *)
Definition drawnStore : Store :=
  addSpan "u3" (NewSpan.mk "m_u1" "m_u2" "t1" "v1" EmptyString)
    (runMarkerOps drawOps initialStore).

(** ** clearOverlappingSpans *)

(** What one turn of the loop of [clearOverlappingSpans] does with a span:
    nothing, schedule the span and its two anchors for removal, or
    schedule a new time for one anchor. *)
Inductive ClearAction : Type :=
  | Skip
  | Remove
  | Trim (markerId : string) (time : Z).

Definition clearAction (state : AnnotationState) (startMs endMs : Z)
    (tierId videoId : string) (span : Span.t) : ClearAction :=
  if decide (onTrack tierId videoId span) then
    match findMarker (markers state) (Span.startMarkerId span),
          findMarker (markers state) (Span.endMarkerId span) with
    | Some sM, Some eM =>
        let sTime := Z.min (Marker.time sM) (Marker.time eM) in
        let eTime := Z.max (Marker.time sM) (Marker.time eM) in
        if decide (endMs ≤ sTime ∨ eTime ≤ startMs) then Skip
        else if decide (startMs ≤ sTime ∧ eTime ≤ endMs) then Remove
        else if decide (sTime < startMs) then
          Trim (if decide (Marker.time sM ≤ Marker.time eM)
                then Span.endMarkerId span else Span.startMarkerId span) startMs
        else
          Trim (if decide (Marker.time sM ≤ Marker.time eM)
                then Span.startMarkerId span else Span.endMarkerId span) endMs
    | _, _ => Skip
    end
  else Skip.

Definition applyClearAction (span : Span.t) (a : ClearAction) (acc : Clearing) : Clearing :=
  match a with
  | Skip => acc
  | Remove =>
      mkClearing
        ({[ Span.id span ]} ∪ removeSpanIds acc)
        ({[ Span.endMarkerId span ]} ∪ ({[ Span.startMarkerId span ]} ∪ removeMarkerIds acc))
        (markerTimeUpdates acc)
  | Trim i t =>
      mkClearing (removeSpanIds acc) (removeMarkerIds acc)
        (<[ i := t ]> (markerTimeUpdates acc))
  end.

(** No marker anchors two spans of the given tier and video. *)
Definition ExclusiveWithin (tierId videoId : string) (s : AnnotationState) : Prop :=
  pairwise (λ x y, onTrack tierId videoId x → onTrack tierId videoId y →
                   anchors x ## anchors y) (spans s).

(** No anchor of a span of the given tier and video anchors another span,
    on any tier or video. *)
Definition ExclusiveOf (tierId videoId : string) (s : AnnotationState) : Prop :=
  pairwise (λ x y, onTrack tierId videoId x ∨ onTrack tierId videoId y →
                   anchors x ## anchors y) (spans s).

#[global] Instance ExclusiveWithin_dec t v s : Decision (ExclusiveWithin t v s).
Proof. unfold ExclusiveWithin. apply _. Defined.

#[global] Instance ExclusiveOf_dec t v s : Decision (ExclusiveOf t v s).
Proof. unfold ExclusiveOf. apply _. Defined.

#[global] Instance UniqueSpanIds_dec s : Decision (UniqueSpanIds s).
Proof. unfold UniqueSpanIds. apply _. Defined.

#[global] Instance NoOverlap_dec s : Decision (NoOverlap s).
Proof. unfold NoOverlap. apply _. Defined.

(** ** addSpan *)

(** The effective interval of a span about to be added. *)
Definition newInterval (ms : list Marker.t) (span : NewSpan.t) : option (Z * Z) :=
  match findMarker ms (NewSpan.startMarkerId span),
        findMarker ms (NewSpan.endMarkerId span) with
  | Some sM, Some eM =>
      Some (Z.min (Marker.time sM) (Marker.time eM),
            Z.max (Marker.time sM) (Marker.time eM))
  | _, _ => None
  end.

(** The new span is in the way of an existing one: some span of its tier
    and video, with both anchors present, has an interval that intersects
    the interval of the new span. *)
Definition IntersectsExisting (s : AnnotationState) (span : NewSpan.t) : Prop :=
  match newInterval (markers s) span with
  | Some a =>
      Exists (λ existing,
        ¬ avoids (markers s) (NewSpan.tierId span) (NewSpan.videoId span) a existing)
        (spans s)
  | None => False
  end.

#[global] Instance IntersectsExisting_dec s span : Decision (IntersectsExisting s span).
Proof. unfold IntersectsExisting. destruct (newInterval (markers s) span); apply _. Defined.

(** *** Scenarios for clearOverlappingSpans

    A key is held from 500 to 2000 on a tier with three spans:
    L = [0, 1000], M = [1200, 1400] and R = [1800, 3000].  The markers [n0]
    and [n1] are the anchors of the span about to be created. *)
Definition holdStore : Store :=
  mkStore
    (mkState
       [ mk_marker "l0" 0 "t1"; mk_marker "l1" 1000 "t1";
         mk_marker "m0" 1200 "t1"; mk_marker "m1" 1400 "t1";
         mk_marker "r0" 1800 "t1"; mk_marker "r1" 3000 "t1";
         mk_marker "n0" 500 "t1"; mk_marker "n1" 2000 "t1" ]
       [ Span.mk "L" "l0" "l1" "t1" "v1" "LEFT";
         Span.mk "M" "m0" "m1" "t1" "v1" "MID";
         Span.mk "R" "r0" "r1" "t1" "v1" "RIGHT" ]
       None None None None)
    [] [].

(** Two adjacent spans A = [0, 1000] and B = [1000, 2000] that share the
    marker at 1000, and a key held from 500 to 1500. *)
Definition sharedStore : Store :=
  mkStore
    (mkState
       [ mk_marker "a0" 0 "t1"; mk_marker "ab" 1000 "t1"; mk_marker "b1" 2000 "t1";
         mk_marker "n0" 500 "t1"; mk_marker "n1" 1500 "t1" ]
       [ Span.mk "A" "a0" "ab" "t1" "v1" "HELLO";
         Span.mk "B" "ab" "b1" "t1" "v1" "WORLD" ]
       None None None None)
    [] [].

Definition heldSpan : NewSpan.t := NewSpan.mk "n0" "n1" "t1" "v1" EmptyString.

(** ** Sequences of span operations *)

Inductive SpanOp : Type :=
  | OpAddSpan (uuid : string) (span : NewSpan.t)
  | OpMergeSpans (keepSpanId removeSpanId : string)
  | OpClearOverlappingSpans (startMs endMs : Z) (tierId videoId : string).

Definition runSpanOp (op : SpanOp) (st : Store) : Store :=
  match op with
  | OpAddSpan uuid span => addSpan uuid span st
  | OpMergeSpans keepSpanId removeSpanId => (mergeSpans keepSpanId removeSpanId st).2
  | OpClearOverlappingSpans startMs endMs tierId videoId =>
      clearOverlappingSpans startMs endMs tierId videoId st
  end.

Definition runSpanOps (ops : list SpanOp) (st : Store) : Store :=
  foldl (λ st op, runSpanOp op st) st ops.

(** What a call relies on: the id drawn for a new span is not in use, and
    [clearOverlappingSpans] is called when no anchor of a span of the
    cleared tier and video anchors another span. *)
Definition admissibleOp (st : Store) (op : SpanOp) : Prop :=
  match op with
  | OpAddSpan uuid _ => generateId "sp" uuid ∉ Span.id <$> spans (get st)
  | OpMergeSpans _ _ => True
  | OpClearOverlappingSpans _ _ tierId videoId => ExclusiveOf tierId videoId (get st)
  end.

Fixpoint Admissible (st : Store) (ops : list SpanOp) : Prop :=
  match ops with
  | [] => True
  | op :: rest => admissibleOp st op ∧ Admissible (runSpanOp op st) rest
  end.

#[global] Instance admissibleOp_dec st op : Decision (admissibleOp st op).
Proof. destruct op; simpl; apply _. Defined.

#[global] Instance Admissible_dec st ops : Decision (Admissible st ops).
Proof. revert st. induction ops as [|op ops IH]; intros st; simpl; apply _. Defined.

(** *** Scenarios for the no-overlap invariant

    The hold of [holdStore] carried through: clear the range, add the held
    span, merge the left span with it. *)
Definition holdOps : list SpanOp :=
  [ OpClearOverlappingSpans 500 2000 "t1" "v1";
    OpAddSpan "u1" heldSpan;
    OpMergeSpans "L" "sp_u1" ].

(** The marker [x1] at 1000 ends span A on tier [t1] and starts span C on
    tier [t2], next to span D = [500, 1000] of [t2]. *)
Definition crossStore : Store :=
  mkStore
    (mkState
       [ mk_marker "a0" 0 "t1"; mk_marker "x1" 1000 "t1";
         mk_marker "c1" 3000 "t2";
         mk_marker "d0" 500 "t2"; mk_marker "d1" 1000 "t2" ]
       [ Span.mk "A" "a0" "x1" "t1" "v1" "ONE";
         Span.mk "C" "x1" "c1" "t2" "v1" "TWO";
         Span.mk "D" "d0" "d1" "t2" "v1" "THREE" ]
       None None None None)
    [] [].

(** ** Operations under the undo history *)

(** The mutating operations of the store. *)
Inductive Action : Type :=
  | PlaceMarker (uuid : string) (time : Z) (tierId videoId : string)
  | ConfirmMarker (markerId typeId : string)
  | CancelPendingMarker
  | RemoveMarker (id : string)
  | NudgeMarker (id : string) (deltaMs maxMs : Z)
  | UpdateMarkerTime (id : string) (time : Z)
  | UpdateMarkerTier (id tierId : string)
  | ReclassifyMarker (id newTypeId : string)
  | UpdateMarkerValue (id value : string)
  | AddSpan (uuid : string) (span : NewSpan.t)
  | RemoveSpan (id : string)
  | UpdateSpanGloss (id gloss : string)
  | MergeSpans (keepSpanId removeSpanId : string)
  | ClearOverlappingSpans (startMs endMs : Z) (tierId videoId : string)
  | SetMarkers (markers : list Marker.t)
  | SetSpans (spans : list Span.t)
  | ClearVideoAnnotations (videoId : string).

Definition perform (a : Action) (st : Store) : Store :=
  match a with
  | PlaceMarker uuid time tierId videoId => (placeMarker uuid time tierId videoId st).2
  | ConfirmMarker markerId typeId => confirmMarker markerId typeId st
  | CancelPendingMarker => cancelPendingMarker st
  | RemoveMarker id => removeMarker id st
  | NudgeMarker id deltaMs maxMs => nudgeMarker id deltaMs maxMs st
  | UpdateMarkerTime id time => updateMarkerTime id time st
  | UpdateMarkerTier id tierId => updateMarkerTier id tierId st
  | ReclassifyMarker id newTypeId => reclassifyMarker id newTypeId st
  | UpdateMarkerValue id value => updateMarkerValue id value st
  | AddSpan uuid span => addSpan uuid span st
  | RemoveSpan id => removeSpan id st
  | UpdateSpanGloss id gloss => updateSpanGloss id gloss st
  | MergeSpans keepSpanId removeSpanId => (mergeSpans keepSpanId removeSpanId st).2
  | ClearOverlappingSpans startMs endMs tierId videoId =>
      clearOverlappingSpans startMs endMs tierId videoId st
  | SetMarkers ms => setMarkers ms st
  | SetSpans sps => setSpans sps st
  | ClearVideoAnnotations videoId => clearVideoAnnotations videoId st
  end.

(** The history holds at most [limit] snapshots, past and future together. *)
Definition HistoryBounded (st : Store) : Prop :=
  (length (pastStates st) + length (futureStates st) ≤ limit)%nat.

#[global] Instance HistoryBounded_dec st : Decision (HistoryBounded st).
Proof. unfold HistoryBounded. apply _. Defined.

(** A session: operations, undos and redos. *)
Inductive HistoryStep : Type :=
  | Do (a : Action)
  | Undo
  | Redo.

Definition runStep (h : HistoryStep) (st : Store) : Store :=
  match h with
  | Do a => perform a st
  | Undo => undo st
  | Redo => redo st
  end.

Definition runSteps (hs : list HistoryStep) (st : Store) : Store :=
  foldl (λ st h, runStep h st) st hs.

(** Enter, a type key, then a nudge of the marker by 10 ms. *)
Definition nudgeSession : list HistoryStep :=
  [ Do (PlaceMarker "u1" 500 "t1" "v1"); Do (ConfirmMarker "m_u1" "sign-start") ].

(** ** The exporters *)

(** Reading back an escaped JSON string (used to show that escaping loses
    nothing). *)
Definition hexValue (c : ascii) : N :=
  let n := N_of_ascii c in
  (if bool_decide (n < 58) then n - 48 else n - 87)%N.

Definition unescapeLetter (c : ascii) : ascii :=
  if bool_decide (c = "b"%char) then "008"
  else if bool_decide (c = "t"%char) then "009"
  else if bool_decide (c = "n"%char) then "010"
  else if bool_decide (c = "f"%char) then "012"
  else if bool_decide (c = "r"%char) then "013"
  else c.

Fixpoint unescapeJson (s : string) : string :=
  match s with
  | EmptyString => EmptyString
  | String c rest =>
      if bool_decide (c = backslashChar) then
        match rest with
        | String "u" (String _ (String _ (String h (String l rest')))) =>
            String (ascii_of_N (16 * hexValue h + hexValue l)) (unescapeJson rest')
        | String d rest' => String (unescapeLetter d) (unescapeJson rest')
        | EmptyString => EmptyString
        end
      else String c (unescapeJson rest)
  end.

(** The JSON exporter as the specification has it: a function of its
    arguments alone. *)
Definition JsonExportIsPure : Prop :=
  ∀ env1 env2 markers spans tiers markerTypes videoName annotator version,
    exportAnnotationsJson env1 markers spans tiers markerTypes videoName annotator version
    = exportAnnotationsJson env2 markers spans tiers markerTypes videoName annotator version.

(** * Further properties of the store and the exporters: definitions *)

(** ** Sequences of store operations *)

Definition performAll (acts : list Action) (st : Store) : Store :=
  foldl (λ st a, perform a st) st acts.

Definition UniqueMarkerIds (s : AnnotationState) : Prop :=
  NoDup (Marker.id <$> markers s).

#[global] Instance UniqueMarkerIds_dec s : Decision (UniqueMarkerIds s).
Proof. unfold UniqueMarkerIds. apply _. Defined.

(** The operations that never leave a span without one of its anchors:
    all of them but [cancelPendingMarker], [mergeSpans],
    [clearOverlappingSpans] and [clearVideoAnnotations], which delete
    markers without looking at the spans anchored at them, and [setMarkers]
    and [setSpans], which replace a list wholesale. *)
Definition keepsAnchors (a : Action) : bool :=
  match a with
  | CancelPendingMarker | MergeSpans _ _ | ClearOverlappingSpans _ _ _ _
  | SetMarkers _ | SetSpans _ | ClearVideoAnnotations _ => false
  | _ => true
  end.

(** The ids drawn for new markers and spans are not in use, and the lists
    handed to [setMarkers] and [setSpans] have no id twice. *)
Definition freshIds (st : Store) (a : Action) : Prop :=
  match a with
  | PlaceMarker uuid _ _ _ => generateId "m" uuid ∉ Marker.id <$> markers (get st)
  | AddSpan uuid _ => generateId "sp" uuid ∉ Span.id <$> spans (get st)
  | SetMarkers ms => NoDup (Marker.id <$> ms)
  | SetSpans sps => NoDup (Span.id <$> sps)
  | _ => True
  end.

Fixpoint FreshIds (st : Store) (acts : list Action) : Prop :=
  match acts with
  | [] => True
  | a :: rest => freshIds st a ∧ FreshIds (perform a st) rest
  end.

#[global] Instance freshIds_dec st a : Decision (freshIds st a).
Proof. destruct a; simpl; apply _. Defined.

#[global] Instance FreshIds_dec st acts : Decision (FreshIds st acts).
Proof. revert st. induction acts as [|a acts IH]; intros st; simpl; apply _. Defined.

(** The operations that move no marker in time and bring no marker under
    an existing span: the id of a placed marker is not an anchor of a span
    of the store. *)
Definition quietOp (st : Store) (a : Action) : Prop :=
  match a with
  | PlaceMarker uuid _ _ _ =>
      Forall (λ sp, generateId "m" uuid ∉ anchors sp) (spans (get st))
  | CancelPendingMarker | RemoveMarker _ | UpdateMarkerTier _ _
  | ReclassifyMarker _ _ | UpdateMarkerValue _ _
  | AddSpan _ _ | RemoveSpan _ | UpdateSpanGloss _ _ => True
  | _ => False
  end.

Fixpoint Quiet (st : Store) (acts : list Action) : Prop :=
  match acts with
  | [] => True
  | a :: rest => quietOp st a ∧ Quiet (perform a st) rest
  end.

#[global] Instance quietOp_dec st a : Decision (quietOp st a).
Proof. destruct a; simpl; apply _. Defined.

#[global] Instance Quiet_dec st acts : Decision (Quiet st acts).
Proof. revert st. induction acts as [|a acts IH]; intros st; simpl; apply _. Defined.

(** A session at the keyboard: two markers placed and typed, a span
    between them, a gloss, a marker on another tier that is then removed. *)
Definition editSession : list Action :=
  [ PlaceMarker "u1" 500 "t1" "v1"; ConfirmMarker "m_u1" "sign-start";
    PlaceMarker "u2" 1500 "t1" "v1"; ConfirmMarker "m_u2" "sign-end";
    AddSpan "u3" (NewSpan.mk "m_u1" "m_u2" "t1" "v1" EmptyString);
    UpdateSpanGloss "sp_u3" "HELLO";
    PlaceMarker "u4" 900 "t2" "v1"; NudgeMarker "m_u4" 10 60000;
    RemoveMarker "m_u4" ].

(** The markers [ms'] show nothing that [ms] does not: a marker found in
    [ms'] under an id of [anch] is found in [ms] under that id, at the same
    time. *)
Definition noNewTimes (anch : gset string) (ms ms' : list Marker.t) : Prop :=
  ∀ i m', i ∈ anch → findMarker ms' i = Some m' →
    ∃ m, findMarker ms i = Some m ∧ Marker.time m = Marker.time m'.

(** Edits on [mergeStore] that move no marker. *)
Definition quietSession : list Action :=
  [ UpdateSpanGloss "A" "HI"; PlaceMarker "u7" 300 "t1" "v1"; CancelPendingMarker;
    ReclassifyMarker "a0" "stroke"; RemoveMarker "b0";
    AddSpan "u8" (NewSpan.mk "b1" "b1" "t1" "v1" EmptyString) ].

(** ** addSpan with one marker as both anchors *)

(** The time [t] lies strictly inside a span of the tier and video. *)
Definition coversStrictly (ms : list Marker.t) (tierId videoId : string) (t : Z)
    (sp : Span.t) : Prop :=
  onTrack tierId videoId sp ∧
  match interval ms sp with
  | Some c => c.1 < t < c.2
  | None => False
  end.

#[global] Instance coversStrictly_dec ms t v x sp : Decision (coversStrictly ms t v x sp).
Proof. unfold coversStrictly. destruct (interval ms sp); apply _. Defined.

(** ** Sorting *)

(** Insertion sort by a comparison, of which [sortByTime] and
    [sortByTimeDesc] are the two instances. *)
Fixpoint insertBy {A} (le : A → A → bool) (m : A) (sorted : list A) : list A :=
  match sorted with
  | [] => [m]
  | x :: rest => if le m x then m :: x :: rest else x :: insertBy le m rest
  end.

Definition sortBy {A} (le : A → A → bool) (l : list A) : list A :=
  foldr (insertBy le) [] l.

Definition earlierFirst (a b : Marker.t) : bool := Marker.time a <=? Marker.time b.
Definition laterFirst (a b : Marker.t) : bool := Marker.time b <=? Marker.time a.

(** ** selectNextMarker and selectPrevMarker *)

(** The tests of the two operations on a marker, for the playhead at
    [currentTime]: [m.time > currentTime * 1000 + 1] and
    [m.time < currentTime * 1000 - 1], in double arithmetic. *)
Definition laterThan (currentTime : float) (m : Marker.t) : Prop :=
  gtDouble (Marker.time m) (currentTime * 1000 + 1)%float = true.

Definition earlierThan (currentTime : float) (m : Marker.t) : Prop :=
  ltDouble (Marker.time m) (currentTime * 1000 - 1)%float = true.

(** ** The Delete key *)

(** [mergeStore] with span A selected. *)
Definition selectedStore : Store := selectSpan (Some "A") mergeStore.

(** ** confirmMarker and the no-overlap invariant *)

(** No marker anchors two spans. *)
Definition ExclusiveAnchors (s : AnnotationState) : Prop :=
  pairwise (λ x y, anchors x ## anchors y) (spans s).

#[global] Instance ExclusiveAnchors_dec s : Decision (ExclusiveAnchors s).
Proof. unfold ExclusiveAnchors. apply _. Defined.

(** [mergeStore] with a pending marker at 500, inside span A. *)
Definition snapStore : Store :=
  mkStore
    (mkState
       [ mk_marker "a0" 0 "t1"; mk_marker "a1" 1000 "t1";
         mk_marker "b0" 1000 "t1"; mk_marker "b1" 2000 "t1"; pendingAt500 ]
       [ spanA; spanB ]
       (Some "p") (Some "p") None None)
    [] [].

(** ** The selection *)

(** At most one of a marker and a span is selected. *)
Definition ExclusiveSelection (s : AnnotationState) : Prop :=
  ¬ (truthy_opt (selectedMarkerId s) = true ∧ truthy_opt (selectedSpanId s) = true).

#[global] Instance ExclusiveSelection_dec s : Decision (ExclusiveSelection s).
Proof. unfold ExclusiveSelection. apply _. Defined.

(** What reaches the store from the timeline, the sidebar and the
    keyboard: the mutating operations, the selection calls and the Delete
    key. *)
Inductive Gesture : Type :=
  | Perform (a : Action)
  | SelectMarker (id : option string)
  | SelectSpan (id : option string)
  | SetEditingSpan (id : option string)
  | SelectNextMarker (videoId : string) (currentTime : float)
  | SelectPrevMarker (videoId : string) (currentTime : float)
  | DeleteSelection.

Definition runGesture (g : Gesture) (st : Store) : Store :=
  match g with
  | Perform a => perform a st
  | SelectMarker id => selectMarker id st
  | SelectSpan id => selectSpan id st
  | SetEditingSpan id => setEditingSpan id st
  | SelectNextMarker videoId currentTime => selectNextMarker videoId currentTime st
  | SelectPrevMarker videoId currentTime => selectPrevMarker videoId currentTime st
  | DeleteSelection => deleteSelection st
  end.

Definition runGestures (gs : list Gesture) (st : Store) : Store :=
  foldl (λ st g, runGesture g st) st gs.

(** The calls that select a marker without looking at the span
    selection. *)
Definition selectsBlindly (g : Gesture) : bool :=
  match g with
  | Perform (PlaceMarker _ _ _ _) | SelectNextMarker _ _ | SelectPrevMarker _ _ => true
  | _ => false
  end.

(** What an operation can do to the selection: clear the marker
    selection, or leave both selections as they are. *)
Definition selectionNarrowed (s s' : AnnotationState) : Prop :=
  selectedMarkerId s' = None ∨
  (selectedSpanId s' = selectedSpanId s ∧ selectedMarkerId s' = selectedMarkerId s).

(** Clicks on the timeline and the sidebar, a merge, the Delete key. *)
Definition clickSession : list Gesture :=
  [ SelectMarker (Some "a0"); SelectSpan (Some "A"); SelectMarker None;
    SetEditingSpan (Some "A"); Perform (MergeSpans "A" "B"); DeleteSelection;
    SelectMarker (Some "b1"); Perform (RemoveMarker "b1") ].

(** ** Reading CSV back

    A reader of comma-separated values: fields are separated by commas,
    records by newlines; a field that starts with a double quote runs to
    the closing double quote, and two double quotes inside it stand for
    one.  The result is the list of records of the text that remains,
    with the field being read as the first field of the first record. *)

Inductive CsvMode : Type := FieldStart | Bare | Quoted | QuoteSeen.

Definition consChar (c : ascii) (rs : list (list string)) : list (list string) :=
  match rs with
  | (f :: fs) :: rs' => (String c f :: fs) :: rs'
  | _ => rs
  end.

Definition newField (rs : list (list string)) : list (list string) :=
  match rs with
  | fs :: rs' => (EmptyString :: fs) :: rs'
  | [] => [[EmptyString]]
  end.

Definition newRecord (rs : list (list string)) : list (list string) :=
  [EmptyString] :: rs.

Fixpoint parseCsvFrom (mode : CsvMode) (s : string) : option (list (list string)) :=
  match s with
  | EmptyString =>
      match mode with
      | Quoted => None
      | _ => Some [[EmptyString]]
      end
  | String c rest =>
      match mode with
      | FieldStart =>
          if bool_decide (c = quoteChar) then parseCsvFrom Quoted rest
          else if bool_decide (c = ","%char) then newField <$> parseCsvFrom FieldStart rest
          else if bool_decide (c = newlineChar) then newRecord <$> parseCsvFrom FieldStart rest
          else consChar c <$> parseCsvFrom Bare rest
      | Bare =>
          if bool_decide (c = quoteChar) then None
          else if bool_decide (c = ","%char) then newField <$> parseCsvFrom FieldStart rest
          else if bool_decide (c = newlineChar) then newRecord <$> parseCsvFrom FieldStart rest
          else consChar c <$> parseCsvFrom Bare rest
      | Quoted =>
          if bool_decide (c = quoteChar) then parseCsvFrom QuoteSeen rest
          else consChar c <$> parseCsvFrom Quoted rest
      | QuoteSeen =>
          if bool_decide (c = quoteChar) then consChar quoteChar <$> parseCsvFrom Quoted rest
          else if bool_decide (c = ","%char) then newField <$> parseCsvFrom FieldStart rest
          else if bool_decide (c = newlineChar) then newRecord <$> parseCsvFrom FieldStart rest
          else None
      end
  end.

Definition parseCsv (s : string) : option (list (list string)) :=
  parseCsvFrom FieldStart s.

(** A cell of a CSV row as the exporter writes it: as it is, or through
    [csvEscape]. *)
Inductive Cell : Type :=
  | Raw (s : string)
  | Esc (s : string).

Definition cellText (c : Cell) : string :=
  match c with Raw s => s | Esc s => s end.

Definition writeCell (c : Cell) : string :=
  match c with Raw s => s | Esc s => csvEscape s end.

Definition plain (s : string) : bool :=
  negb (includes quoteChar s) && negb (includes "," s) && negb (includes newlineChar s).

Definition cellOk (c : Cell) : bool :=
  match c with Raw s => plain s | Esc _ => true end.

Definition rowsText (rows : list (list Cell)) : list (list string) :=
  (λ row : list Cell, cellText <$> row) <$> rows.

Definition writeRows (rows : list (list Cell)) : string :=
  join newline ((λ row, join "," (writeCell <$> row)) <$> rows).

Fixpoint prefixField (b : string) (rs : list (list string)) : list (list string) :=
  match b with
  | EmptyString => rs
  | String c b' => consChar c (prefixField b' rs)
  end.

Definition endOfField (t : string) : Prop :=
  match t with
  | EmptyString => True
  | String c _ => c = ","%char ∨ c = newlineChar
  end.

(** What follows a row: nothing, or a newline and the rows that remain. *)
Fixpoint rowsTail (rows : list (list Cell)) : string :=
  match rows with
  | [] => EmptyString
  | row :: rest => newline +:+ join "," (writeCell <$> row) +:+ rowsTail rest
  end.

Definition csvMarkerHeader : list Cell :=
  Raw <$> ["Video"; "Time (ms)"; "Time (s)"; "Tier"; "Marker Type"; "Annotator"].

(** The rows of [exportMarkersCsv] when it is given no spans, cell by
    cell: which values are written as they are and which through
    [csvEscape]. *)
Definition csvMarkerCells (markers : list Marker.t) (tiers : list Tier.t)
    (markerTypes : list MarkerType.t) (videoName : string)
    (annotatorId : option string) : list (list Cell) :=
  let confirmed := sortByTime (List.filter Marker.confirmed markers) in
  let tierMap := mapOf ((λ t, (Tier.id t, Tier.name t)) <$> tiers) in
  let typeMap := mapOf ((λ mt, (MarkerType.id mt, MarkerType.name mt)) <$> markerTypes) in
  [ csvMarkerHeader ]
  ++ ((λ m,
         [ Esc videoName;
           Raw (stringOfInt (Marker.time m));
           Raw (toFixed3 (Marker.time m));
           Esc (default EmptyString (tierMap !! Marker.tierId m));
           Esc (default EmptyString (typeMap !! Marker.typeId m));
           Esc (default EmptyString annotatorId) ]) <$> confirmed).

(** What a reader of that CSV file gets: the text of every cell. *)
Definition csvMarkerTable (markers : list Marker.t) (tiers : list Tier.t)
    (markerTypes : list MarkerType.t) (videoName : string)
    (annotatorId : option string) : list (list string) :=
  rowsText (csvMarkerCells markers tiers markerTypes videoName annotatorId).

(** The markers of [holdStore]. *)
Definition holdMarkers : list Marker.t := markers (get holdStore).

(** ** The pending and the selected marker *)

(** A reference to a marker resolves: it is null, or a marker has the
    id. *)
Definition resolves (ms : list Marker.t) (ref : option string) : Prop :=
  match ref with
  | Some i => is_Some (findMarker ms i)
  | None => True
  end.

#[global] Instance resolves_dec ms ref : Decision (resolves ms ref).
Proof. destruct ref; simpl; apply _. Defined.

Definition RefsResolve (s : AnnotationState) : Prop :=
  resolves (markers s) (pendingMarkerId s) ∧ resolves (markers s) (selectedMarkerId s).

#[global] Instance RefsResolve_dec s : Decision (RefsResolve s).
Proof. unfold RefsResolve. apply _. Defined.

(** What the clean-up after a [set] makes of a reference, given the
    markers: a non-empty id that no marker carries becomes null. *)
Definition cleared (ms : list Marker.t) (ref : option string) : option string :=
  match ref with
  | Some i => if decide (truthy i = true ∧ findMarker ms i = None) then None else Some i
  | None => None
  end.

(** The store after an Enter that has been taken back: [undo] has removed
    the marker, and the selected and the pending reference still name
    it. *)
Definition undoneStore : Store := undo (placeMarker "u1" 500 "t1" "v1" initialStore).2.

(** The operations that take markers away without looking at the pending
    and the selected marker, or replace the markers wholesale. *)
Definition keepsRefs (a : Action) : bool :=
  match a with
  | MergeSpans _ _ | ClearOverlappingSpans _ _ _ _
  | SetMarkers _ | ClearVideoAnnotations _ => false
  | _ => true
  end.

(** * Proofs *)

(** Membership in sets built from singletons, unions and differences. *)
Ltac elem_of_sets :=
  try apply set_equiv; intros; unfold anchors in *; cbn [removeSpanIds removeMarkerIds
    markerTimeUpdates noClearing applyClearAction] in *;
  rewrite ?elem_of_difference, ?elem_of_union, ?elem_of_singleton, ?elem_of_empty in *;
  intuition congruence.

(** ** Basic facts *)

Section basics.
Implicit Types (ms : list Marker.t) (sps : list Span.t) (i : string).

(** Without an orphaned reference the clean-up changes nothing. *)
Lemma cleanOrphans_settled (s : AnnotationState) :
  orphaned s (pendingMarkerId s) || orphaned s (selectedMarkerId s) = false →
  cleanOrphans s = s.
Proof.
  intros H. apply orb_false_iff in H as [Hp Hs].
  unfold cleanOrphans. rewrite Hp, Hs. by destruct s.
Qed.

Lemma orphaned_elem (s : AnnotationState) i :
  i ∈ Marker.id <$> markers s → orphaned s (Some i) = false.
Proof.
  intros Hi. unfold orphaned. cbv zeta.
  rewrite (bool_decide_eq_false_2 (i ∉ _)); [by rewrite andb_false_r|].
  intros Hn. apply Hn. by apply elem_of_list_to_set.
Qed.


Lemma orphaned_markers (s s' : AnnotationState) ref :
  Marker.id <$> markers s = Marker.id <$> markers s' → orphaned s ref = orphaned s' ref.
Proof. intros H. unfold orphaned. by rewrite H. Qed.

(** The state a [set] leaves: the patched state, with the orphaned
    references cleared. *)
Lemma get_set f st :
  get (set f st) =
    mkState (markers (f (get st))) (spans (f (get st)))
      (if orphaned (f (get st)) (selectedMarkerId (f (get st))) then None
       else selectedMarkerId (f (get st)))
      (if orphaned (f (get st)) (pendingMarkerId (f (get st))) then None
       else pendingMarkerId (f (get st)))
      (selectedSpanId (f (get st))) (editingSpanId (f (get st))).
Proof.
  unfold set. cbv zeta.
  destruct (orphaned (f (get st)) (pendingMarkerId (f (get st)))
            || orphaned (f (get st)) (selectedMarkerId (f (get st)))) eqn:E;
    cbn [get]; [done|].
  rewrite <- (cleanOrphans_settled (f (get st)) E) at 1. done.
Qed.

Lemma get_set_clean f st : get (set f st) = cleanOrphans (f (get st)).
Proof. by rewrite get_set. Qed.

(** A patch that keeps the ids of the markers and the two references
    commutes with the clean-up. *)
Lemma cleanOrphans_mapMarkers (g : Marker.t → Marker.t) (s : AnnotationState) :
  (∀ m, Marker.id (g m) = Marker.id m) →
  cleanOrphans (mapMarkers g s) = mapMarkers g (cleanOrphans s).
Proof.
  intros Hg. unfold cleanOrphans.
  assert (∀ ref, orphaned (mapMarkers g s) ref = orphaned s ref) as Horph.
  { intros ref. apply orphaned_markers. cbn [mapMarkers markers].
    rewrite <- list_fmap_compose. apply list_fmap_ext. intros _ m _. apply Hg. }
  by rewrite !Horph.
Qed.

Lemma cleanOrphans_mapSpans (g : list Span.t → list Span.t) (s : AnnotationState) :
  cleanOrphans (mapSpans g s) = mapSpans g (cleanOrphans s).
Proof. reflexivity. Qed.

Lemma cleanOrphans_idemp (s : AnnotationState) : cleanOrphans (cleanOrphans s) = cleanOrphans s.
Proof.
  assert (∀ ref, orphaned (cleanOrphans s) ref = orphaned s ref) as Horph
    by (intros ref; by apply orphaned_markers).
  assert (∀ ref : option string,
            (if orphaned s (if orphaned s ref then None else ref) then None
             else if orphaned s ref then None else ref)
            = (if orphaned s ref then None else ref)) as Hclean.
  { intros ref. destruct (orphaned s ref) eqn:E; [done|]. by rewrite E. }
  unfold cleanOrphans at 1. rewrite !Horph.
  cbn [cleanOrphans markers spans selectedMarkerId pendingMarkerId selectedSpanId
    editingSpanId]. by rewrite !Hclean.
Qed.

Lemma intersects_share_point (a b : Z * Z) :
    a.1 < a.2 → b.1 < b.2 →
    intersects a b ↔ ∃ x, (a.1 ≤ x < a.2) ∧ (b.1 ≤ x < b.2).
  Proof.
    unfold intersects. intros Ha Hb. split.
    - intros [H1 H2]. exists (Z.max a.1 b.1). lia.
    - intros (x & H1 & H2). lia.
  Qed.

Lemma overlaps_intersects a1 a2 b1 b2 :
    overlaps a1 a2 b1 b2 = true ↔ intersects (a1, a2) (b1, b2).
  Proof.
    unfold overlaps, intersects. simpl.
    rewrite andb_true_iff, !Z.ltb_lt. tauto.
  Qed.

Lemma findMarker_Some ms i m :
    findMarker ms i = Some m → m ∈ ms ∧ Marker.id m = i.
  Proof.
    unfold findMarker. intros H. apply find_some in H as [H1 H2].
    apply bool_decide_eq_true in H2. split; [by apply list_elem_of_In | done].
  Qed.

Lemma findMarker_None ms i :
    findMarker ms i = None ↔ ∀ m, m ∈ ms → Marker.id m ≠ i.
  Proof.
    unfold findMarker. split.
    - intros H m Hm He.
      assert (In m ms) as Hin by (by apply list_elem_of_In).
      pose proof (find_none _ _ H m Hin) as Hf. simpl in Hf.
      by rewrite bool_decide_eq_true_2 in Hf.
    - induction ms as [|m ms IH]; [done|]. intros H. simpl.
      rewrite bool_decide_eq_false_2 by (apply H; left).
      apply IH. intros m' Hm'. apply H. by right.
  Qed.

Lemma findMarker_is_Some ms i :
    is_Some (findMarker ms i) ↔ i ∈ Marker.id <$> ms.
  Proof.
    rewrite list_elem_of_fmap. split.
    - intros [m Hm]. apply findMarker_Some in Hm as [? ?]. eauto.
    - intros (m & -> & Hm). destruct (findMarker ms (Marker.id m)) eqn:E; [eauto|].
      by eapply findMarker_None in E.
  Qed.

Lemma findMarker_app ms ms' i :
    findMarker (ms ++ ms') i =
      match findMarker ms i with Some m => Some m | None => findMarker ms' i end.
  Proof.
    unfold findMarker. induction ms as [|m ms IH]; [done|]. simpl.
    by destruct (bool_decide (Marker.id m = i)).
  Qed.

  (** Lookup after [filter]: the markers with an id in [X] are gone, the
      others resolve as before. *)
Lemma findMarker_filter (X : gset string) ms i :
    findMarker (filter (λ m, Marker.id m ∉ X) ms) i =
      if decide (i ∈ X) then None else findMarker ms i.
  Proof.
    unfold findMarker. induction ms as [|m ms IH].
    - by destruct (decide (i ∈ X)).
    - rewrite filter_cons. destruct (decide (Marker.id m ∉ X)) as [Hm|Hm]; simpl.
      + destruct (decide (Marker.id m = i)) as [He|He].
        * rewrite bool_decide_eq_true_2 by done. subst i. by rewrite decide_False.
        * rewrite bool_decide_eq_false_2 by done. apply IH.
      + rewrite IH. destruct (decide (i ∈ X)); [done|].
        rewrite bool_decide_eq_false_2; [done|]. intros He. subst i. by apply Hm.
  Qed.

Lemma findMarker_filter_ne j ms i :
    findMarker (filter (λ m, Marker.id m ≠ j) ms) i =
      if decide (i = j) then None else findMarker ms i.
  Proof.
    unfold findMarker. induction ms as [|m ms IH].
    - by destruct (decide (i = j)).
    - rewrite filter_cons. destruct (decide (Marker.id m ≠ j)) as [Hm|Hm]; simpl.
      + destruct (decide (Marker.id m = i)) as [He|He].
        * rewrite bool_decide_eq_true_2 by done. subst i. by rewrite decide_False.
        * rewrite bool_decide_eq_false_2 by done. apply IH.
      + rewrite IH. destruct (decide (i = j)) as [He|He]; [done|].
        rewrite bool_decide_eq_false_2; [done|]. intros He'. apply Hm. congruence.
  Qed.

  (** Lookup after a [map] that keeps ids. *)
Lemma findMarker_fmap (f : Marker.t → Marker.t) ms i :
    (∀ m, Marker.id (f m) = Marker.id m) →
    findMarker (f <$> ms) i = f <$> findMarker ms i.
  Proof.
    intros Hf. unfold findMarker. induction ms as [|m ms IH]; [done|].
    simpl. rewrite Hf. by destruct (bool_decide (Marker.id m = i)).
  Qed.

Lemma findSpan_Some sps i sp :
    findSpan sps i = Some sp → sp ∈ sps ∧ Span.id sp = i.
  Proof.
    unfold findSpan. intros H. apply find_some in H as [H1 H2].
    apply bool_decide_eq_true in H2. split; [by apply list_elem_of_In | done].
  Qed.

Lemma findSpan_None sps i :
    findSpan sps i = None ↔ ∀ sp, sp ∈ sps → Span.id sp ≠ i.
  Proof.
    unfold findSpan. split.
    - intros H sp Hsp He.
      assert (In sp sps) as Hin by (by apply list_elem_of_In).
      pose proof (find_none _ _ H sp Hin) as Hf. simpl in Hf.
      by rewrite bool_decide_eq_true_2 in Hf.
    - induction sps as [|sp sps IH]; [done|]. intros H. simpl.
      rewrite bool_decide_eq_false_2 by (apply H; left).
      apply IH. intros sp' Hsp'. apply H. by right.
  Qed.

Lemma existsb_false_iff {A} (f : A → bool) (l : list A) :
    existsb f l = false ↔ ∀ x, x ∈ l → f x = false.
  Proof.
    induction l as [|y l IH]; simpl.
    - split; [intros _ x Hx; by apply elem_of_nil in Hx | done].
    - rewrite orb_false_iff, IH. split.
      + intros [H1 H2] x Hx. apply elem_of_cons in Hx as [->|Hx]; auto.
      + intros H. split; [apply H; left | intros x Hx; apply H; by right].
  Qed.

Lemma existsb_true_iff {A} (f : A → bool) (l : list A) :
    existsb f l = true ↔ ∃ x, x ∈ l ∧ f x = true.
  Proof.
    rewrite existsb_exists. split; intros (x & H1 & H2); exists x; split; try done;
      by apply list_elem_of_In.
  Qed.

Lemma interval_Some ms sp a :
    interval ms sp = Some a ↔
    ∃ sM eM, findMarker ms (Span.startMarkerId sp) = Some sM ∧
             findMarker ms (Span.endMarkerId sp) = Some eM ∧
             a = (Z.min (Marker.time sM) (Marker.time eM),
                  Z.max (Marker.time sM) (Marker.time eM)).
  Proof.
    unfold interval. split.
    - destruct (findMarker ms (Span.startMarkerId sp)) as [sM|]; [|done].
      destruct (findMarker ms (Span.endMarkerId sp)) as [eM|]; [|done].
      intros [= <-]. eauto.
    - intros (sM & eM & -> & -> & ->). done.
  Qed.
(** A reference that resolves is not orphaned, so in a state whose two
    references resolve the clean-up has nothing to do. *)
Lemma resolves_not_orphaned (s : AnnotationState) ref :
  resolves (markers s) ref → orphaned s ref = false.
Proof.
  destruct ref as [i|]; [|done]. intros Hi. apply orphaned_elem.
  by apply findMarker_is_Some.
Qed.

Lemma RefsResolve_settled (s : AnnotationState) :
  RefsResolve s →
  orphaned s (pendingMarkerId s) || orphaned s (selectedMarkerId s) = false.
Proof. intros [Hp Hs]. by rewrite !resolves_not_orphaned. Qed.

Lemma cleanOrphans_resolved (s : AnnotationState) : RefsResolve s → cleanOrphans s = s.
Proof. intros H. by apply cleanOrphans_settled, RefsResolve_settled. Qed.

Lemma get_set_resolved f st : RefsResolve (f (get st)) → get (set f st) = f (get st).
Proof. intros H. by rewrite get_set_clean, cleanOrphans_resolved. Qed.

End basics.

(** ** mergeSpans: validation *)

Section merge_validation.
Implicit Types (st : Store) (s : AnnotationState).

  (** The test [overlapsThird] of the source, in terms of [blocksMerge]. *)
Lemma overlapsThird_spec s keepId removeId keep k r :
    existsb (λ sp,
      if bool_decide (Span.id sp = keepId) || bool_decide (Span.id sp = removeId)
      then false
      else if negb (bool_decide (Span.tierId sp = Span.tierId keep))
              || negb (bool_decide (Span.videoId sp = Span.videoId keep))
      then false
      else
        match findMarker (markers s) (Span.startMarkerId sp),
              findMarker (markers s) (Span.endMarkerId sp) with
        | Some a, Some b =>
            overlaps (Z.min k.1 r.1) (Z.max k.2 r.2)
              (Z.min (Marker.time a) (Marker.time b))
              (Z.max (Marker.time a) (Marker.time b))
        | _, _ => false
        end) (spans s) = true
    ↔ Exists (blocksMerge s keepId removeId keep (mergedInterval k r)) (spans s).
  Proof.
    rewrite existsb_true_iff, Exists_exists.
    apply exist_proper. intros sp. apply and_iff_compat_l.
    unfold blocksMerge, onTrack, interval, mergedInterval.
    repeat case_bool_decide; simpl; try (split; [done | tauto]).
    destruct (findMarker (markers s) (Span.startMarkerId sp)) as [a|];
      [|split; [done | tauto]].
    destruct (findMarker (markers s) (Span.endMarkerId sp)) as [b|];
      [|split; [done | tauto]].
    rewrite overlaps_intersects. tauto.
  Qed.
End merge_validation.

(** C3.  [mergeSpans keepId removeId] returns [false] and leaves the whole
    store (markers, spans and everything else) as it was whenever validation
    fails: a span id does not resolve, the two spans differ in tier or video,
    one of the four anchor markers is missing, or the merged interval
    [min(starts), max(ends)) intersects a third span on the same tier and
    video. *)
Theorem mergeSpans_rejects (st : Store) (keepId removeId : string) :
  ValidationFails (get st) keepId removeId →
  mergeSpans keepId removeId st = (false, st).
Proof.
  unfold ValidationFails, mergeSpans.
  destruct (findSpan (spans (get st)) keepId) as [keep|]; [|done].
  destruct (findSpan (spans (get st)) removeId) as [remove|]; [|done].
  intros H.
  destruct (decide (Span.tierId keep = Span.tierId remove)) as [Ht|Ht];
    [|by rewrite (bool_decide_eq_false_2 _ Ht)].
  destruct (decide (Span.videoId keep = Span.videoId remove)) as [Hv|Hv];
    [|rewrite (bool_decide_eq_false_2 _ Hv); by rewrite orb_true_r].
  rewrite (bool_decide_eq_true_2 _ Ht), (bool_decide_eq_true_2 _ Hv). simpl.
  destruct H as [H|[H|H]]; [done..|].
  unfold interval in H.
  destruct (findMarker (markers (get st)) (Span.startMarkerId keep)) as [ks|]; [|done].
  destruct (findMarker (markers (get st)) (Span.endMarkerId keep)) as [ke|]; [|done].
  destruct (findMarker (markers (get st)) (Span.startMarkerId remove)) as [rs|]; [|done].
  destruct (findMarker (markers (get st)) (Span.endMarkerId remove)) as [re|]; [|done].
  apply (overlapsThird_spec (get st) keepId removeId keep
           (Z.min (Marker.time ks) (Marker.time ke), Z.max (Marker.time ks) (Marker.time ke))
           (Z.min (Marker.time rs) (Marker.time re), Z.max (Marker.time rs) (Marker.time re)))
    in H.
  simpl in H. by rewrite H.
Qed.

Lemma mergeSpans_rejects_witness :
  ValidationFails (get rejectStore) "A" "B" ∧
  mergeSpans "A" "B" rejectStore = (false, rejectStore).
Proof.
  assert (ValidationFails (get rejectStore) "A" "B") as H
    by (apply (bool_decide_unpack _); vm_compute; exact I).
  split; [exact H | exact (mergeSpans_rejects rejectStore "A" "B" H)].
Defined.

(** ** mergeSpans: the accepted case *)

Section merge_accepts.
Implicit Types (st : Store) (s : AnnotationState).

Lemma mergeSpans_accepts st keepId removeId keep remove ks ke rs re :
    findSpan (spans (get st)) keepId = Some keep →
    findSpan (spans (get st)) removeId = Some remove →
    Span.tierId keep = Span.tierId remove →
    Span.videoId keep = Span.videoId remove →
    findMarker (markers (get st)) (Span.startMarkerId keep) = Some ks →
    findMarker (markers (get st)) (Span.endMarkerId keep) = Some ke →
    findMarker (markers (get st)) (Span.startMarkerId remove) = Some rs →
    findMarker (markers (get st)) (Span.endMarkerId remove) = Some re →
    ¬ Exists (blocksMerge (get st) keepId removeId keep
                (mergedInterval
                   (Z.min (Marker.time ks) (Marker.time ke),
                    Z.max (Marker.time ks) (Marker.time ke))
                   (Z.min (Marker.time rs) (Marker.time re),
                    Z.max (Marker.time rs) (Marker.time re))))
        (spans (get st)) →
    mergeSpans keepId removeId st =
      (true,
       set (mergeCommit keepId removeId keep remove
              (Z.min (Marker.time ks) (Marker.time ke))
              (Z.min (Marker.time rs) (Marker.time re))) st).
  Proof.
    intros Hk Hr Ht Hv Hks Hke Hrs Hre Hno.
    unfold mergeSpans. rewrite Hk, Hr.
    rewrite (bool_decide_eq_true_2 _ Ht), (bool_decide_eq_true_2 _ Hv). simpl.
    rewrite Hks, Hke, Hrs, Hre.
    rewrite <- overlapsThird_spec in Hno. simpl in Hno.
    apply not_true_is_false in Hno. by rewrite Hno.
  Qed.

Lemma findSpan_filter_ne sps i j :
    findSpan (filter (λ sp, Span.id sp ≠ j) sps) i =
      if decide (i = j) then None else findSpan sps i.
  Proof.
    unfold findSpan. induction sps as [|sp sps IH].
    - by destruct (decide (i = j)).
    - rewrite filter_cons. destruct (decide (Span.id sp ≠ j)) as [Hm|Hm]; simpl.
      + destruct (decide (Span.id sp = i)) as [He|He].
        * rewrite bool_decide_eq_true_2 by done. subst i. by rewrite decide_False.
        * rewrite bool_decide_eq_false_2 by done. apply IH.
      + rewrite IH. destruct (decide (i = j)) as [He|He]; [done|].
        rewrite bool_decide_eq_false_2; [done|]. intros He'. apply Hm. congruence.
  Qed.

Lemma filter_notin_nothing (X : gset string) (ms : list Marker.t) :
    X ≡ ∅ → filter (λ m, Marker.id m ∉ X) ms = ms.
  Proof.
    intros HX. induction ms as [|m ms IH]; [done|].
    rewrite filter_cons_True by (rewrite HX; apply not_elem_of_empty).
    by rewrite IH.
  Qed.

Lemma fmap_unless_filter_ne (f : Span.t → Span.t) (sps : list Span.t) j :
    (λ sp, if bool_decide (Span.id sp = j) then f sp else sp)
      <$> filter (λ sp, Span.id sp ≠ j) sps
    = filter (λ sp, Span.id sp ≠ j) sps.
  Proof.
    induction sps as [|sp sps IH]; [done|].
    rewrite filter_cons. destruct (decide (Span.id sp ≠ j)); [|exact IH].
    rewrite fmap_cons, IH. by rewrite bool_decide_eq_false_2.
  Qed.

Lemma findSpan_fmap (f : Span.t → Span.t) sps i :
    (∀ sp, Span.id (f sp) = Span.id sp) →
    findSpan (f <$> sps) i = f <$> findSpan sps i.
  Proof.
    intros Hf. unfold findSpan. induction sps as [|sp sps IH]; [done|].
    simpl. rewrite Hf. by destruct (bool_decide (Span.id sp = i)).
  Qed.
End merge_accepts.

(** C10.  Let [k] be the span its id resolves to, with both anchor markers
    present and effective interval [a], and let every span with another id
    keep clear of [a] on the tier and video of [k].  Then
    [mergeSpans k.id k.id] returns [true], no span with the id of [k] is
    left (the other spans stay as they were), and the markers list, the two
    anchors of [k] included, is unchanged. *)
Theorem mergeSpans_same_id_deletes (st : Store) (k : Span.t) (a : Z * Z) :
  findSpan (spans (get st)) (Span.id k) = Some k →
  interval (markers (get st)) k = Some a →
  Forall (λ sp, Span.id sp ≠ Span.id k →
                avoids (markers (get st)) (Span.tierId k) (Span.videoId k) a sp)
    (spans (get st)) →
  ∃ st',
    mergeSpans (Span.id k) (Span.id k) st = (true, st') ∧
    findSpan (spans (get st')) (Span.id k) = None ∧
    spans (get st') = filter (λ sp, Span.id sp ≠ Span.id k) (spans (get st)) ∧
    markers (get st') = markers (get st) ∧
    is_Some (findMarker (markers (get st')) (Span.startMarkerId k)) ∧
    is_Some (findMarker (markers (get st')) (Span.endMarkerId k)).
Proof.
  intros Hk Ha Hno. rewrite Forall_forall in Hno.
  apply interval_Some in Ha as (sM & eM & HsM & HeM & ->).
  eexists. split.
  { eapply mergeSpans_accepts; eauto.
    rewrite Exists_exists. intros (sp & Hsp & Hid & _ & Htrack & Hc).
    specialize (Hno sp Hsp Hid Htrack).
    destruct (interval (markers (get st)) sp) as [c|] eqn:Ec; [|done].
    apply Hno. unfold mergedInterval, intersects in *. simpl in *. lia. }
  rewrite get_set. unfold mergeCommit. cbv zeta. cbn [markers spans].
  rewrite bool_decide_eq_true_2 by lia.
  rewrite filter_notin_nothing by elem_of_sets.
  rewrite fmap_unless_filter_ne.
  split_and!; [| done | done | by rewrite HsM | by rewrite HeM].
  rewrite findSpan_filter_ne. by rewrite decide_True.
Qed.

Lemma mergeSpans_same_id_deletes_witness :
  ∃ st',
    mergeSpans "A" "A" mergeStore = (true, st') ∧
    findSpan (spans (get st')) "A" = None ∧
    spans (get st') = filter (λ sp, Span.id sp ≠ "A") (spans (get mergeStore)) ∧
    markers (get st') = markers (get mergeStore) ∧
    is_Some (findMarker (markers (get st')) "a0") ∧
    is_Some (findMarker (markers (get st')) "a1").
Proof.
  apply (mergeSpans_same_id_deletes mergeStore spanA (0, 1000)).
  - reflexivity.
  - reflexivity.
  - apply (bool_decide_unpack _). vm_compute. exact I.
Defined.

(** ** mergeSpans: the merged span *)

Section merge_result.
Implicit Types (st : Store) (A B : Span.t).

Lemma Forall_avoids_not_blocked st keepId removeId keep m :
  Forall (λ sp, Span.id sp ≠ keepId → Span.id sp ≠ removeId →
                avoids (markers (get st)) (Span.tierId keep) (Span.videoId keep) m sp)
    (spans (get st)) →
  ¬ Exists (blocksMerge (get st) keepId removeId keep m) (spans (get st)).
Proof.
  rewrite Forall_forall, Exists_exists.
  intros Hno (sp & Hsp & Hk & Hr & Htrack & Hc).
  specialize (Hno sp Hsp Hk Hr Htrack).
  destruct (interval (markers (get st)) sp); tauto.
Qed.

Lemma elem_of_anchors i (sp : Span.t) :
  i ∈ anchors sp ↔ i = Span.startMarkerId sp ∨ i = Span.endMarkerId sp.
Proof. unfold anchors. elem_of_sets. Qed.

Lemma filter_ext_set (X Y : gset string) (ms : list Marker.t) :
  X ≡ Y →
  filter (λ m, Marker.id m ∉ X) ms = filter (λ m, Marker.id m ∉ Y) ms.
Proof. intros H. apply list_filter_iff. intros m. by rewrite H. Qed.
End merge_result.

(** C2 (amended).  Let [A] (kept) and [B] (removed) be the spans their
    distinct ids resolve to, on one tier and video, with their four anchor
    markers present, each with its start marker not later than its end
    marker, and in chronological order: either [A] starts and ends no
    later than [B], or [B] starts strictly before [A] and ends no later
    than [A].  If no third span (another id, same tier and video, both
    anchors present) intersects the merged interval
    [min of the starts, max of the ends), then [mergeSpans A.id B.id]
    returns [true] and leaves [Merged]: [B] is gone, the anchors of [A] are
    the outermost pair, the inner markers are deleted from the markers list
    and the gloss of [A] is the two glosses joined by [" + "], empty ones
    skipped. *)
Theorem mergeSpans_merges (st : Store) (A B : Span.t) (ks ke rs re : Marker.t) :
  findSpan (spans (get st)) (Span.id A) = Some A →
  findSpan (spans (get st)) (Span.id B) = Some B →
  Span.id A ≠ Span.id B →
  onTrack (Span.tierId A) (Span.videoId A) B →
  findMarker (markers (get st)) (Span.startMarkerId A) = Some ks →
  findMarker (markers (get st)) (Span.endMarkerId A) = Some ke →
  findMarker (markers (get st)) (Span.startMarkerId B) = Some rs →
  findMarker (markers (get st)) (Span.endMarkerId B) = Some re →
  Marker.time ks ≤ Marker.time ke →
  Marker.time rs ≤ Marker.time re →
  (Marker.time ks ≤ Marker.time rs ∧ Marker.time ke ≤ Marker.time re) ∨
  (Marker.time rs < Marker.time ks ∧ Marker.time re ≤ Marker.time ke) →
  Forall (λ sp, Span.id sp ≠ Span.id A → Span.id sp ≠ Span.id B →
                avoids (markers (get st)) (Span.tierId A) (Span.videoId A)
                  (mergedInterval (Marker.time ks, Marker.time ke)
                                  (Marker.time rs, Marker.time re)) sp)
    (spans (get st)) →
  ∃ st', mergeSpans (Span.id A) (Span.id B) st = (true, st') ∧
         Merged st A B
           (mergedInterval (Marker.time ks, Marker.time ke)
                           (Marker.time rs, Marker.time re)) st'.
Proof.
  intros HA HB Hne [Ht Hv] Hks Hke Hrs Hre Hko Hro Hchron Hno.
  apply Forall_avoids_not_blocked in Hno.
  eexists. split.
  { eapply mergeSpans_accepts; eauto.
    by rewrite !Z.min_l, !Z.max_r by done. }
  rewrite !Z.min_l by done.
  set (g := join " + " (List.filter truthy [Span.gloss A; Span.gloss B])).
  unfold Merged. rewrite get_set. unfold mergeCommit. cbv zeta.
  cbn [markers spans]. fold g.
  split.
  { rewrite findSpan_fmap by (intros sp; by destruct (bool_decide _)).
    rewrite findSpan_filter_ne. by rewrite decide_True. }
  unfold mergedInterval. cbn [fst snd].
  destruct (decide (Marker.time ks ≤ Marker.time rs)) as [Hfirst|Hfirst].
  - assert (Marker.time ke ≤ Marker.time re) as Hlast by lia.
    rewrite (bool_decide_eq_true_2 _ Hfirst).
    exists (Span.with_anchors (Span.startMarkerId A) (Span.endMarkerId B) g A).
    split_and!.
    + rewrite findSpan_fmap by (intros sp; by destruct (bool_decide _)).
      rewrite findSpan_filter_ne, decide_False, HA by done. simpl.
      by rewrite bool_decide_eq_true_2.
    + done.
    + unfold interval. cbn [Span.with_anchors Span.startMarkerId Span.endMarkerId].
      rewrite !findMarker_filter.
      rewrite !decide_False by elem_of_sets. rewrite Hks, Hre.
      f_equal. f_equal; lia.
    + done.
    + apply filter_ext_set. unfold anchors. simpl. elem_of_sets.
  - assert (Marker.time re ≤ Marker.time ke) as Hlast by lia.
    rewrite (bool_decide_eq_false_2 _ Hfirst).
    exists (Span.with_anchors (Span.startMarkerId B) (Span.endMarkerId A) g A).
    split_and!.
    + rewrite findSpan_fmap by (intros sp; by destruct (bool_decide _)).
      rewrite findSpan_filter_ne, decide_False, HA by done. simpl.
      by rewrite bool_decide_eq_true_2.
    + done.
    + unfold interval. cbn [Span.with_anchors Span.startMarkerId Span.endMarkerId].
      rewrite !findMarker_filter.
      rewrite !decide_False by elem_of_sets. rewrite Hrs, Hke.
      f_equal. f_equal; lia.
    + done.
    + apply filter_ext_set. unfold anchors. simpl. elem_of_sets.
Qed.

(** The scenario of the specification: A = [0, 1000] HELLO merged with
    B = [1000, 2000] WORLD leaves one span [0, 2000] with gloss
    HELLO + WORLD. *)
Lemma mergeSpans_merges_witness :
  ∃ st', mergeSpans "A" "B" mergeStore = (true, st') ∧
         Merged mergeStore spanA spanB (0, 2000) st' ∧
         spans (get st') = [Span.mk "A" "a0" "b1" "t1" "v1" "HELLO + WORLD"] ∧
         Marker.id <$> markers (get st') = ["a0"; "b1"].
Proof.
  destruct (mergeSpans_merges mergeStore spanA spanB
              (mk_marker "a0" 0 "t1") (mk_marker "a1" 1000 "t1")
              (mk_marker "b0" 1000 "t1") (mk_marker "b1" 2000 "t1"))
    as (st' & Hm & HM).
  - reflexivity.
  - reflexivity.
  - discriminate.
  - split; reflexivity.
  - reflexivity.
  - reflexivity.
  - reflexivity.
  - reflexivity.
  - simpl. lia.
  - simpl. lia.
  - left. simpl. lia.
  - apply (bool_decide_unpack _). vm_compute. exact I.
  - exists st'. split; [exact Hm|]. split; [exact HM|].
    vm_compute in Hm. injection Hm as <-. split; reflexivity.
Defined.

(** C2 as worded fails, in two ways.  When [A] = [0, 3000] lies around
    [B] = [1000, 2000], the merged span ends at the end marker of [B] and
    the end marker of [A] is deleted; when [A] = [0, 1000] has its start
    marker after its end marker, the merged span starts at 1000. *)
Lemma mergeSpans_not_as_claimed :
  ¬ MergesAsClaimed containStore spanA spanB ∧
  ¬ MergesAsClaimed reversedStore spanA spanB.
Proof.
  split.
  - intros H.
    destruct (H (0, 3000) (1000, 2000)) as (st' & Hm & _ & A' & HA' & _ & Hint & _);
      try reflexivity; try discriminate; try (split; reflexivity).
    { apply (bool_decide_unpack _). vm_compute. exact I. }
    vm_compute in Hm. injection Hm as <-.
    vm_compute in HA'. injection HA' as <-.
    vm_compute in Hint. discriminate Hint.
  - intros H.
    destruct (H (0, 1000) (1000, 2000)) as (st' & Hm & _ & A' & HA' & _ & Hint & _);
      try reflexivity; try discriminate; try (split; reflexivity).
    { apply (bool_decide_unpack _). vm_compute. exact I. }
    vm_compute in Hm. injection Hm as <-.
    vm_compute in HA'. injection HA' as <-.
    vm_compute in Hint. discriminate Hint.
Qed.

(** ** The pending marker *)

Section pending.
Implicit Types (st : Store) (s : AnnotationState) (ms : list Marker.t).

Lemma length_filter_fmap_le (P : Marker.t → Prop) `{!∀ m, Decision (P m)}
    (f : Marker.t → Marker.t) ms :
  (∀ m, P (f m) → P m) →
  (length (filter P (f <$> ms)) ≤ length (filter P ms))%nat.
Proof.
  intros Hf. induction ms as [|m ms IH]; [done|].
  rewrite fmap_cons, !filter_cons.
  destruct (decide (P (f m))) as [HP|HP].
  - rewrite decide_True by auto. simpl. lia.
  - destruct (decide (P m)); simpl; lia.
Qed.

Lemma filter_none (P : Marker.t → Prop) `{!∀ m, Decision (P m)} ms :
  (∀ m, m ∈ ms → ¬ P m) → filter P ms = [].
Proof.
  induction ms as [|m ms IH]; [done|]. intros Hall.
  rewrite filter_cons_False by (apply Hall; left).
  apply IH. intros m' Hm'. apply Hall. by right.
Qed.

Lemma truthy_generateId_m uuid : truthy (generateId "m" uuid) = true.
Proof. reflexivity. Qed.

Lemma PendingInv_initial : PendingInv initialState.
Proof.
  split; [unfold unconfirmedCount; simpl; lia|].
  intros m Hm. by apply elem_of_nil in Hm.
Qed.

Lemma PendingInv_placeMarker uuid time tierId videoId st :
  pendingMarkerId (get st) = None →
  PendingInv (get st) →
  PendingInv (get (placeMarker uuid time tierId videoId st).2).
Proof.
  intros Hidle [_ Hall]. unfold placeMarker. cbn [snd]. rewrite get_set.
  assert (filter (λ m, Marker.confirmed m = false) (markers (get st)) = []) as Hnone.
  { apply filter_none. intros m Hm Hc.
    destruct (Hall m Hm Hc) as [Hp _]. congruence. }
  split.
  - unfold unconfirmedCount. cbn [markers]. rewrite filter_app, Hnone. simpl. lia.
  - cbn [markers pendingMarkerId]. intros m Hm Hc.
    apply elem_of_app in Hm as [Hm|Hm].
    + destruct (Hall m Hm Hc) as [Hp _]. congruence.
    + apply list_elem_of_singleton in Hm as ->. cbn [Marker.id].
      rewrite orphaned_elem; [split; reflexivity|].
      cbn [markers]. rewrite fmap_app. apply elem_of_app. right. by left.
Qed.

Lemma PendingInv_confirmMarker markerId typeId st :
  PendingInv (get st) → PendingInv (get (confirmMarker markerId typeId st)).
Proof.
  intros [Hcount Hall]. unfold confirmMarker.
  destruct (findMarker (markers (get st)) markerId) as [marker|]; [|done].
  rewrite get_set. split.
  - unfold unconfirmedCount in *. cbn [markers].
    etrans; [|exact Hcount]. apply length_filter_fmap_le.
    intros m. case_bool_decide; [done|].
    by destruct (_ && _).
  - cbn [markers pendingMarkerId]. intros m' Hm' Hc.
    apply list_elem_of_fmap in Hm' as (m & -> & Hm).
    case_bool_decide as Hid; [done|].
    assert (Marker.confirmed m = false ∧
            Marker.id (if truthy_opt (snapTarget (get st) marker)
                          && bool_decide (Some (Marker.id m) = snapTarget (get st) marker)
                       then Marker.with_time (Marker.time marker) m else m) = Marker.id m)
      as [Hcm ->].
    { by destruct (_ && _). }
    destruct (Hall m Hm Hcm) as [Hp Ht]. split; [|done].
    rewrite bool_decide_eq_false_2 by congruence.
    rewrite Hp, orphaned_elem; [done|].
    cbn [markers]. rewrite <- list_fmap_compose.
    apply list_elem_of_fmap. exists m. split; [|done].
    unfold compose. rewrite (bool_decide_eq_false_2 _ Hid). by destruct (_ && _).
Qed.

Lemma PendingInv_cancelPendingMarker st :
  PendingInv (get st) → PendingInv (get (cancelPendingMarker st)).
Proof.
  intros Hinv. unfold cancelPendingMarker.
  destruct (pendingMarkerId (get st)) as [pending|] eqn:Hp; [|exact Hinv].
  destruct (truthy pending) eqn:Ht; [|exact Hinv].
  destruct Hinv as [Hcount Hall]. rewrite get_set.
  assert (∀ m, m ∈ filter (λ m, Marker.id m ≠ pending) (markers (get st)) →
               Marker.confirmed m = false → False) as Hnone.
  { intros m Hm Hc. apply list_elem_of_filter in Hm as [Hid Hm].
    destruct (Hall m Hm Hc) as [Hp' _]. congruence. }
  split.
  - unfold unconfirmedCount. cbn [markers].
    rewrite filter_none; [simpl; lia|]. intros m Hm Hc. eapply Hnone; eauto.
  - cbn [markers]. intros m Hm Hc. destruct (Hnone m Hm Hc).
Qed.

Lemma PendingInv_run ops st :
  PendingInv (get st) → placesWhenIdle st ops →
  PendingInv (get (runMarkerOps ops st)).
Proof.
  revert st. induction ops as [|op ops IH]; intros st Hinv Hidle; [done|].
  destruct Hidle as [Hop Hrest]. apply IH; [|done].
  destruct op; simpl.
  - by apply PendingInv_placeMarker.
  - by apply PendingInv_confirmMarker.
  - by apply PendingInv_cancelPendingMarker.
Qed.

Lemma placesWhenIdle_take n ops st :
  placesWhenIdle st ops → placesWhenIdle st (take n ops).
Proof.
  revert st n. induction ops as [|op ops IH]; intros st n H.
  - by destruct n.
  - destruct n as [|n]; [done|]. destruct H as [H1 H2]. split; [done|]. by apply IH.
Qed.
End pending.

(** C5 (amended).  For every sequence of [placeMarker], [confirmMarker]
    and [cancelPendingMarker] calls from the empty store in which every
    [placeMarker] is issued while no marker is pending, at most one marker
    has [confirmed = false] at every point of the sequence. *)
Theorem single_pending (ops : list MarkerOp) (n : nat) :
  placesWhenIdle initialStore ops →
  (unconfirmedCount (get (runMarkerOps (take n ops) initialStore)) ≤ 1)%nat.
Proof.
  intros H. apply (placesWhenIdle_take n) in H.
  by destruct (PendingInv_run (take n ops) initialStore PendingInv_initial H).
Qed.

Lemma single_pending_witness :
  placesWhenIdle initialStore keyboardOps ∧
  (unconfirmedCount (get (runMarkerOps (take 5 keyboardOps) initialStore)) ≤ 1)%nat.
Proof.
  assert (placesWhenIdle initialStore keyboardOps) as H
    by (apply (bool_decide_unpack _); vm_compute; exact I).
  split; [exact H | exact (single_pending keyboardOps 5 H)].
Defined.

(** C5 as worded fails: [placeMarker] does not cancel the marker that is
    pending, and drawing a span places two markers in a row. *)
Lemma two_unconfirmed_markers :
  unconfirmedCount (get (runMarkerOps drawOps initialStore)) = 2%nat ∧
  ¬ (∀ ops : list MarkerOp,
       (unconfirmedCount (get (runMarkerOps ops initialStore)) ≤ 1)%nat).
Proof.
  assert (unconfirmedCount (get (runMarkerOps drawOps initialStore)) = 2%nat) as H
    by reflexivity.
  split; [exact H|]. intros Hall. specialize (Hall drawOps). lia.
Qed.

(** ** confirmMarker *)

Section confirm.
Implicit Types (st : Store) (s : AnnotationState) (m : Marker.t).

Lemma bool_decide_of_iff (b : bool) (P : Prop) `{!Decision P} :
  (b = true ↔ P) → b = bool_decide P.
Proof.
  intros Hb. destruct b; symmetry.
  - apply bool_decide_eq_true_2. by apply Hb.
  - apply bool_decide_eq_false_2. intros HP. apply Hb in HP. discriminate.
Qed.

(** The test of the loop of [confirmMarker] decides [strictlyInside]. *)
Lemma inside_test_spec s m span :
  (if negb (bool_decide (Span.tierId span = Marker.tierId m))
      || negb (bool_decide (Span.videoId span = Marker.videoId m))
   then false
   else
     match findMarker (markers s) (Span.startMarkerId span),
           findMarker (markers s) (Span.endMarkerId span) with
     | Some startM, Some endM =>
         (Z.min (Marker.time startM) (Marker.time endM) <? Marker.time m)
         && (Marker.time m <? Z.max (Marker.time startM) (Marker.time endM))
     | _, _ => false
     end) = bool_decide (strictlyInside (markers s) m span).
Proof.
  apply bool_decide_of_iff. unfold strictlyInside, onTrack, interval.
  destruct (decide (Span.tierId span = Marker.tierId m)) as [Ht|Ht];
    [rewrite (bool_decide_eq_true_2 _ Ht)
    |rewrite (bool_decide_eq_false_2 _ Ht); split; [done | tauto]].
  destruct (decide (Span.videoId span = Marker.videoId m)) as [Hv|Hv];
    [rewrite (bool_decide_eq_true_2 _ Hv)
    |rewrite (bool_decide_eq_false_2 _ Hv); split; [done | tauto]].
  cbn [negb orb].
  destruct (findMarker (markers s) (Span.startMarkerId span)) as [a|];
    [|split; [done | tauto]].
  destruct (findMarker (markers s) (Span.endMarkerId span)) as [b|];
    [|split; [done | tauto]].
  cbn [fst snd]. rewrite andb_true_iff, !Z.ltb_lt. tauto.
Qed.

Lemma find_list_find {A} (P : A → Prop) `{!∀ x, Decision (P x)} (l : list A) :
  List.find (λ x, bool_decide (P x)) l = snd <$> list_find P l.
Proof.
  induction l as [|x l IH]; [done|]. simpl.
  destruct (decide (P x)) as [HP|HP].
  - by rewrite bool_decide_eq_true_2.
  - rewrite bool_decide_eq_false_2 by done. rewrite IH.
    by destruct (list_find P l) as [[? ?]|].
Qed.

Lemma snapTarget_spec s m :
  snapTarget s m =
    Span.endMarkerId <$> (snd <$> list_find (strictlyInside (markers s) m) (spans s)).
Proof.
  unfold snapTarget. f_equal. rewrite <- find_list_find.
  induction (spans s) as [|sp sps IH]; [done|]. simpl.
  rewrite inside_test_spec. by rewrite IH.
Qed.

Lemma truthy_snapTarget s m x :
  truthy_opt (snapTarget s m) && bool_decide (Some (Marker.id x) = snapTarget s m)
  = bool_decide (snappedId s m = Some (Marker.id x)).
Proof.
  rewrite snapTarget_spec. unfold snappedId.
  destruct (list_find _ _) as [[i sp]|]; simpl.
  - destruct (truthy (Span.endMarkerId sp)) eqn:Ht; simpl.
    + apply bool_decide_ext. split; congruence.
    + first [done | symmetry; by apply bool_decide_eq_false_2].
  - first [done | symmetry; by apply bool_decide_eq_false_2].
Qed.
End confirm.

(** C8 (amended).  If no marker has the id [markerId], [confirmMarker]
    leaves the store unchanged.  Otherwise, with [m] the marker the id
    resolves to: the markers with that id get [typeId] and
    [confirmed = true] and keep their time; the pending reference is
    cleared if it was [markerId]; the spans and the span selection are
    unchanged; and if the time of [m] is strictly inside the effective
    interval of some span of its tier and video, the end marker of the
    first such span in list order (the marker its [endMarkerId] names),
    provided that id is a non-empty string, is moved to the time of [m].
    No other marker changes.  A reference to a marker that named no
    marker before is cleared by the clean-up that follows the [set];
    otherwise the selected marker and a pending marker other than
    [markerId] stay. *)
Theorem confirmMarker_spec (st : Store) (markerId typeId : string) :
  match findMarker (markers (get st)) markerId with
  | None => confirmMarker markerId typeId st = st
  | Some m =>
      let st' := confirmMarker markerId typeId st in
      Forall2 (confirmedFrom m typeId (snappedId (get st) m))
        (markers (get st)) (markers (get st')) ∧
      pendingMarkerId (get st') =
        (if decide (pendingMarkerId (get st) = Some markerId) then None
         else pendingMarkerId (cleanOrphans (get st))) ∧
      spans (get st') = spans (get st) ∧
      selectedMarkerId (get st') = selectedMarkerId (cleanOrphans (get st)) ∧
      selectedSpanId (get st') = selectedSpanId (get st) ∧
      editingSpanId (get st') = editingSpanId (get st)
  end.
Proof.
  unfold confirmMarker.
  destruct (findMarker (markers (get st)) markerId) as [m|] eqn:Hm; [|done].
  apply findMarker_Some in Hm as [_ Hid].
  cbv zeta. rewrite get_set. cbn [markers spans pendingMarkerId selectedMarkerId
                                   selectedSpanId editingSpanId].
  set (f := λ x : Marker.t, _).
  assert (∀ ref p sel ssp ed,
            orphaned (mkState (f <$> markers (get st)) (spans (get st)) sel p ssp ed) ref
            = orphaned (get st) ref) as Horph.
  { intros ref p sel ssp ed. apply orphaned_markers. cbn [markers].
    rewrite <- list_fmap_compose. apply list_fmap_ext. intros i x _.
    unfold compose, f. case_bool_decide; [done|]. by destruct (_ && _). }
  rewrite !Horph. unfold cleanOrphans. cbn [pendingMarkerId selectedMarkerId].
  split_and!; try done.
  - apply Forall2_fmap_r, Forall_Forall2_diag, Forall_forall. intros x _.
    unfold confirmedFrom, compose, f. rewrite Hid.
    destruct (decide (Marker.id x = markerId)) as [Hx|Hx]; cbv beta.
    + by rewrite bool_decide_eq_true_2.
    + rewrite bool_decide_eq_false_2 by done.
      rewrite truthy_snapTarget.
      destruct (decide (snappedId (get st) m = Some (Marker.id x))) as [Hs|Hs].
      * by rewrite bool_decide_eq_true_2.
      * by rewrite bool_decide_eq_false_2.
  - by destruct (decide _) as [H|H];
      [rewrite bool_decide_eq_true_2 | rewrite bool_decide_eq_false_2].
Qed.

(** C8 as worded fails.  With the spans [0, 1000] and [0, 2000] both around
    the marker at 500, only the end marker of the first is moved: the loop
    stops at the first span it finds.  And an end marker whose id is the
    empty string is not moved, since the id is tested for truthiness. *)
Lemma confirmMarker_snaps_first_only :
  ¬ SnapsEverySpan overlapStore pendingAt500 "sign-start" ∧
  ¬ SnapsEverySpan emptyIdStore pendingAt500 "sign-start".
Proof.
  split.
  - intros H.
    destruct (H (Span.mk "S2" "c0" "c1" "t1" "v1" "TWO")) as (e & He & Ht).
    + apply (bool_decide_unpack _). vm_compute. exact I.
    + apply (bool_decide_unpack _). vm_compute. exact I.
    + vm_compute in He. injection He as <-. vm_compute in Ht. discriminate Ht.
  - intros H.
    destruct (H (Span.mk "S1" "a0" EmptyString "t1" "v1" "ONE")) as (e & He & Ht).
    + apply (bool_decide_unpack _). vm_compute. exact I.
    + apply (bool_decide_unpack _). vm_compute. exact I.
    + vm_compute in He. injection He as <-. vm_compute in Ht. discriminate Ht.
Qed.

(** In [overlapStore] the end marker of the first span moves to 500 and
    the marker is confirmed; the end marker of the second span stays at
    2000. *)
Example confirmMarker_overlapStore :
  let st' := confirmMarker "p" "sign-start" overlapStore in
  (λ x, (Marker.id x, Marker.time x, Marker.confirmed x)) <$> markers (get st')
    = [ ("a0", 0, true); ("a1", 500, true); ("c0", 0, true); ("c1", 2000, true);
        ("p", 500, true) ] ∧
  pendingMarkerId (get st') = None.
Proof. split; reflexivity. Qed.

(** ** Cascading deletes *)

(** [removeMarker] cascades: the spans anchored at the marker go with it,
    and no span is left dangling. *)
Lemma removeMarker_cascades (st : Store) (id : string) :
  NoDangling (get st) →
  NoDangling (get (removeMarker id st)) ∧
  Forall (λ sp, id ∉ anchors sp) (spans (get (removeMarker id st))).
Proof.
  unfold NoDangling, removeMarker. rewrite get_set. cbn [markers spans].
  rewrite !Forall_forall. intros H. split.
  - intros sp Hsp. apply list_elem_of_filter in Hsp as [[Hs He] Hsp].
    rewrite !findMarker_filter_ne, !decide_False by done. by apply H.
  - intros sp Hsp. apply list_elem_of_filter in Hsp as [[Hs He] Hsp].
    rewrite elem_of_anchors. intros [?|?]; congruence.
Qed.

(** C7 fails on [cancelPendingMarker].  After a span has been drawn
    ([drawnStore]) its end marker is the pending marker; cancelling it
    removes the marker and keeps the span, which then references a marker
    that is not in the markers list. *)
Lemma cancelPendingMarker_leaves_dangling_span :
  NoDangling (get drawnStore) ∧
  pendingMarkerId (get drawnStore) = Some "m_u2" ∧
  let st' := cancelPendingMarker drawnStore in
  Marker.id <$> markers (get st') = ["m_u1"] ∧
  spans (get st') = [Span.mk "sp_u3" "m_u1" "m_u2" "t1" "v1" EmptyString] ∧
  ¬ NoDangling (get st').
Proof.
  split; [apply (bool_decide_unpack _); vm_compute; exact I|].
  split; [reflexivity|]. cbv zeta.
  split; [reflexivity|]. split; [reflexivity|].
  apply (bool_decide_eq_false_1 (NoDangling (get (cancelPendingMarker drawnStore)))).
  vm_compute. reflexivity.
Qed.

(** ** Pairwise relations on lists *)

Section pairwise.
Context {A : Type}.
Implicit Types (R : A → A → Prop) (l : list A).

Lemma pairwise_app R l1 l2 :
  pairwise R (l1 ++ l2) ↔
  pairwise R l1 ∧ pairwise R l2 ∧ ∀ x y, x ∈ l1 → y ∈ l2 → R x y.
Proof.
  induction l1 as [|a l1 IH]; simpl.
  - split; [intros H; split_and!; [done..|] | tauto].
    intros x y Hx. by apply elem_of_nil in Hx.
  - rewrite IH, Forall_app, !Forall_forall. split.
    + intros ((H1 & H2) & H3 & H4 & H5). split_and!; try done.
      intros x y Hx Hy. apply elem_of_cons in Hx as [->|Hx]; auto.
    + intros ((H1 & H2) & H3 & H4). split_and!; try done.
      * intros y Hy. apply H4; [left | done].
      * intros x y Hx Hy. apply H4; [by right | done].
Qed.

Lemma pairwise_snoc R l y :
  pairwise R l → Forall (λ x, R x y) l → pairwise R (l ++ [y]).
Proof.
  intros Hl Hy. apply pairwise_app. split_and!; [done | simpl; auto |].
  intros x y' Hx Hy'. apply list_elem_of_singleton in Hy' as ->.
  rewrite Forall_forall in Hy. by apply Hy.
Qed.

Lemma pairwise_and R1 R2 l :
  pairwise R1 l → pairwise R2 l → pairwise (λ x y, R1 x y ∧ R2 x y) l.
Proof.
  induction l as [|a l IH]; simpl; [done|].
  intros [H1 H1'] [H2 H2']. split; [|by apply IH].
  rewrite Forall_forall in *. intros x Hx. split; auto.
Qed.

(** From a relation on the list to another one on the elements a
    predicate keeps. *)
Lemma pairwise_filter_impl R R' (P : A → Prop) `{!∀ x, Decision (P x)} l :
  pairwise R l →
  (∀ x y, x ∈ l → y ∈ l → P x → P y → R x y → R' x y) →
  pairwise R' (filter P l).
Proof.
  induction l as [|a l IH]; simpl; [done|].
  intros [Ha Hl] Himpl.
  assert (pairwise R' (filter P l)) as Hrec.
  { apply IH; [done|]. intros x y Hx Hy. apply Himpl; by right. }
  rewrite filter_cons. destruct (decide (P a)) as [HPa|HPa]; [|done].
  simpl. split; [|done].
  rewrite Forall_forall in *. intros x Hx.
  apply list_elem_of_filter in Hx as [HPx Hx].
  apply Himpl; auto; [left | by right].
Qed.

Lemma pairwise_impl R R' l :
  pairwise R l →
  (∀ x y, x ∈ l → y ∈ l → R x y → R' x y) →
  pairwise R' l.
Proof.
  induction l as [|a l IH]; simpl; [done|].
  intros [Ha Hl] Himpl. split.
  - rewrite Forall_forall in *. intros x Hx. apply Himpl; auto; [left | by right].
  - apply IH; [done|]. intros x y Hx Hy. apply Himpl; by right.
Qed.

Lemma pairwise_fmap {B} (f : A → B) (R : B → B → Prop) l :
  pairwise (λ x y, R (f x) (f y)) l → pairwise R (f <$> l).
Proof.
  induction l as [|a l IH]; simpl; [done|].
  intros [Ha Hl]. split; [|by apply IH].
  by apply Forall_fmap.
Qed.

(** Two elements of a list are the same or related, when the relation is
    symmetric. *)
Lemma pairwise_elem R l x y :
  (∀ a b, R a b → R b a) →
  pairwise R l → x ∈ l → y ∈ l → x = y ∨ R x y.
Proof.
  intros Hsym. induction l as [|a l IH]; simpl.
  - intros _ Hx. by apply elem_of_nil in Hx.
  - intros [Ha Hl] Hx Hy. rewrite Forall_forall in Ha.
    apply elem_of_cons in Hx as [->|Hx]; apply elem_of_cons in Hy as [->|Hy]; auto.
Qed.

Lemma pairwise_NoDup (f : A → string) l :
  pairwise (λ x y, f x ≠ f y) l ↔ NoDup (f <$> l).
Proof.
  induction l as [|a l IH]; simpl.
  - split; [intros _; constructor | done].
  - rewrite NoDup_cons, <- IH, Forall_forall, list_elem_of_fmap.
    split; intros [H1 H2]; (split; [|done]).
    + intros (y & Hy & Hin). by apply (H1 y).
    + intros y Hy Heq. apply H1. eauto.
Qed.
End pairwise.

(** ** The loop of clearOverlappingSpans *)

Section clear_loop.
Variables (state : AnnotationState) (startMs endMs : Z) (tierId videoId : string).

Local Abbreviation step := (clearStep state startMs endMs tierId videoId).
Local Abbreviation action := (clearAction state startMs endMs tierId videoId).

Lemma clearStep_action acc span :
  step acc span = applyClearAction span (action span) acc.
Proof.
  unfold clearStep, clearAction, onTrack.
  destruct (decide (Span.tierId span = tierId)) as [Ht|Ht];
    [rewrite (bool_decide_eq_true_2 _ Ht)
    |rewrite (bool_decide_eq_false_2 _ Ht), decide_False by tauto; done].
  destruct (decide (Span.videoId span = videoId)) as [Hv|Hv];
    [rewrite (bool_decide_eq_true_2 _ Hv), decide_True by tauto
    |rewrite (bool_decide_eq_false_2 _ Hv), decide_False by tauto; done].
  cbn [negb orb].
  destruct (findMarker (markers state) (Span.startMarkerId span)) as [sM|]; [|done].
  destruct (findMarker (markers state) (Span.endMarkerId span)) as [eM|]; [|done].
  cbv zeta.
  set (sTime := Z.min (Marker.time sM) (Marker.time eM)).
  set (eTime := Z.max (Marker.time sM) (Marker.time eM)).
  destruct (decide (endMs ≤ sTime ∨ eTime ≤ startMs)) as [H1|H1].
  { destruct (Z.leb_spec endMs sTime), (Z.leb_spec eTime startMs); simpl; try done; lia. }
  destruct (Z.leb_spec endMs sTime), (Z.leb_spec eTime startMs); try lia.
  cbn [orb].
  destruct (decide (startMs ≤ sTime ∧ eTime ≤ endMs)) as [H2|H2].
  { destruct (Z.leb_spec startMs sTime), (Z.leb_spec eTime endMs); simpl; try done; lia. }
  destruct (decide (sTime < startMs)) as [H3|H3].
  - assert ((startMs <=? sTime) = false) as -> by (apply Z.leb_gt; lia).
    cbn [andb]. assert ((sTime <? startMs) = true) as -> by (apply Z.ltb_lt; lia).
    assert ((if Marker.time sM <=? Marker.time eM
             then Span.endMarkerId span else Span.startMarkerId span)
            = (if decide (Marker.time sM ≤ Marker.time eM)
               then Span.endMarkerId span else Span.startMarkerId span)) as ->.
    { destruct (Z.leb_spec (Marker.time sM) (Marker.time eM));
        [by rewrite decide_True | by rewrite decide_False by lia]. }
    by destruct (endMs <? eTime).
  - assert ((startMs <=? sTime) = true) as -> by (apply Z.leb_le; lia).
    assert ((eTime <=? endMs) = false) as -> by (apply Z.leb_gt; lia).
    assert ((sTime <? startMs) = false) as -> by (apply Z.ltb_ge; lia).
    cbn [andb].
    assert ((if Marker.time sM <=? Marker.time eM
             then Span.startMarkerId span else Span.endMarkerId span)
            = (if decide (Marker.time sM ≤ Marker.time eM)
               then Span.startMarkerId span else Span.endMarkerId span)) as ->.
    { destruct (Z.leb_spec (Marker.time sM) (Marker.time eM));
        [by rewrite decide_True | by rewrite decide_False by lia]. }
    done.
Qed.

(** The time scheduled for a marker comes from a span of the loop. *)
Lemma loop_update_inv l acc i t :
  markerTimeUpdates (foldl step acc l) !! i = Some t →
  markerTimeUpdates acc !! i = Some t ∨ ∃ z, z ∈ l ∧ action z = Trim i t.
Proof.
  revert acc. induction l as [|z l IH]; intros acc; simpl; [auto|].
  intros H. apply IH in H as [H|(z' & Hz' & Ha)]; [|right; exists z'; split; [by right|done]].
  rewrite clearStep_action in H. destruct (action z) as [| |j u] eqn:Ea; simpl in H; auto.
  destruct (decide (j = i)) as [->|Hne].
  - rewrite lookup_insert_eq in H. injection H as ->.
    right. exists z. split; [left | done].
  - rewrite lookup_insert_ne in H by done. auto.
Qed.

(** When every span of the loop that schedules a time for marker [i]
    schedules [t], the time scheduled is [t]. *)
Lemma loop_update_agree l acc i t :
  (∀ z u, z ∈ l → action z = Trim i u → u = t) →
  (markerTimeUpdates acc !! i = Some t ∨ ∃ z, z ∈ l ∧ action z = Trim i t) →
  markerTimeUpdates (foldl step acc l) !! i = Some t.
Proof.
  revert acc. induction l as [|z l IH]; intros acc Hall Hex; simpl.
  - destruct Hex as [H|(z & Hz & _)]; [done | by apply elem_of_nil in Hz].
  - apply IH; [intros z' u Hz'; apply Hall; by right|].
    rewrite clearStep_action.
    destruct Hex as [H|(z' & Hz' & Ha)].
    + destruct (action z) as [| |j u] eqn:Ea; simpl; auto.
      destruct (decide (j = i)) as [->|Hne].
      * left. rewrite lookup_insert_eq. f_equal. apply (Hall z u); [left | done].
      * left. by rewrite lookup_insert_ne.
    + apply elem_of_cons in Hz' as [->|Hz'].
      * rewrite Ha. simpl. left. by rewrite lookup_insert_eq.
      * right. exists z'. by split.
Qed.

Lemma loop_update_none l acc i :
  (∀ z u, z ∈ l → action z ≠ Trim i u) →
  markerTimeUpdates (foldl step acc l) !! i = markerTimeUpdates acc !! i.
Proof.
  revert acc. induction l as [|z l IH]; intros acc Hall; simpl; [done|].
  rewrite IH by (intros z' u Hz'; apply Hall; by right).
  rewrite clearStep_action. destruct (action z) as [| |j u] eqn:Ea; simpl; try done.
  rewrite lookup_insert_ne; [done|]. intros ->. by apply (Hall z u); [left|].
Qed.

Lemma loop_removeMarkerIds l acc i :
  i ∈ removeMarkerIds (foldl step acc l) ↔
  i ∈ removeMarkerIds acc ∨ ∃ z, z ∈ l ∧ action z = Remove ∧ i ∈ anchors z.
Proof.
  revert acc. induction l as [|z l IH]; intros acc; simpl.
  - split; [auto|]. intros [H|(z & Hz & _)]; [done | by apply elem_of_nil in Hz].
  - rewrite IH, clearStep_action. split.
    + intros [H|(z' & Hz' & Ha)].
      * destruct (action z) eqn:Ea; simpl in H; auto.
        rewrite !elem_of_union, !elem_of_singleton in H.
        destruct H as [->|[->|H]]; auto; right; exists z;
          (split_and!; [left | done | rewrite elem_of_anchors; auto]).
      * right. exists z'. split; [by right | done].
    + intros [H|(z' & Hz' & Ha & Hi)].
      * left. destruct (action z); simpl; auto. elem_of_sets.
      * apply elem_of_cons in Hz' as [->|Hz']; [|right; eauto].
        left. rewrite Ha. simpl. rewrite elem_of_anchors in Hi. elem_of_sets.
Qed.

Lemma loop_removeSpanIds l acc k :
  k ∈ removeSpanIds (foldl step acc l) ↔
  k ∈ removeSpanIds acc ∨ ∃ z, z ∈ l ∧ action z = Remove ∧ Span.id z = k.
Proof.
  revert acc. induction l as [|z l IH]; intros acc; simpl.
  - split; [auto|]. intros [H|(z & Hz & _)]; [done | by apply elem_of_nil in Hz].
  - rewrite IH, clearStep_action. split.
    + intros [H|(z' & Hz' & Ha)].
      * destruct (action z) eqn:Ea; simpl in H; auto.
        rewrite elem_of_union, elem_of_singleton in H.
        destruct H as [->|H]; auto. right. exists z. split_and!; [left | done..].
      * right. exists z'. split; [by right | done].
    + intros [H|(z' & Hz' & Ha & Hi)].
      * left. destruct (action z); simpl; auto. elem_of_sets.
      * apply elem_of_cons in Hz' as [->|Hz']; [|right; eauto].
        left. rewrite Ha. simpl. elem_of_sets.
Qed.
End clear_loop.

(** ** What clearOverlappingSpans leaves *)

Section clear_outcome.
Variables (st : Store) (startMs endMs : Z) (tierId videoId : string).

Local Abbreviation action := (clearAction (get st) startMs endMs tierId videoId).
Local Abbreviation clearing :=
  (foldl (clearStep (get st) startMs endMs tierId videoId) noClearing (spans (get st))).
Local Abbreviation ms := (markers (get st)).
Local Abbreviation ms' :=
  (markers (get (clearOverlappingSpans startMs endMs tierId videoId st))).
Local Abbreviation retime :=
  (λ m : Marker.t,
     match markerTimeUpdates clearing !! Marker.id m with
     | Some time => Marker.with_time time m
     | None => m
     end).

Lemma filter_notin_empty {A} (f : A → string) (X : gset string) (l : list A) :
  X ≡ ∅ → filter (λ a, f a ∉ X) l = l.
Proof.
  intros HX. induction l as [|a l IH]; [done|].
  rewrite filter_cons_True by (rewrite HX; apply not_elem_of_empty).
  by rewrite IH.
Qed.

Lemma action_onTrack z : action z ≠ Skip → onTrack tierId videoId z.
Proof. unfold clearAction. by destruct (decide (onTrack tierId videoId z)). Qed.

Lemma action_Trim_anchor z i u : action z = Trim i u → i ∈ anchors z.
Proof.
  unfold clearAction. rewrite elem_of_anchors.
  repeat (case_match; try done); intros [= <- _]; auto.
Qed.

Lemma removeMarkerIds_removeSpanIds i :
  i ∈ removeMarkerIds clearing → ∃ z, z ∈ spans (get st) ∧ Span.id z ∈ removeSpanIds clearing.
Proof.
  rewrite loop_removeMarkerIds. intros [H|(z & Hz & Ha & _)]; [elem_of_sets|].
  exists z. split; [done|]. rewrite loop_removeSpanIds. right. eauto.
Qed.

Lemma clear_markers : ms' = retime <$> filter (λ m, Marker.id m ∉ removeMarkerIds clearing) ms.
Proof.
  unfold clearOverlappingSpans. cbv zeta.
  destruct (bool_decide (size (removeSpanIds clearing) = 0%nat)
            && bool_decide (size (markerTimeUpdates clearing) = 0%nat)) eqn:E;
    [|by rewrite get_set].
  apply andb_true_iff in E as [E1 E2].
  apply bool_decide_eq_true in E1, E2.
  apply size_empty_inv in E1. apply map_size_empty_inv in E2.
  rewrite (filter_notin_empty Marker.id).
  - rewrite <- (list_fmap_id ms) at 1. apply list_fmap_ext.
    intros _ m _. by rewrite E2, lookup_empty.
  - apply set_equiv. intros i. split; [|intros Hi; by apply elem_of_empty in Hi].
    intros Hi. apply removeMarkerIds_removeSpanIds in Hi as (z & _ & Hz).
    rewrite E1 in Hz. by apply elem_of_empty in Hz.
Qed.

Lemma clear_spans :
  spans (get (clearOverlappingSpans startMs endMs tierId videoId st))
  = filter (λ sp, Span.id sp ∉ removeSpanIds clearing) (spans (get st)).
Proof.
  unfold clearOverlappingSpans. cbv zeta.
  destruct (bool_decide (size (removeSpanIds clearing) = 0%nat)
            && bool_decide (size (markerTimeUpdates clearing) = 0%nat)) eqn:E;
    [|by rewrite get_set].
  apply andb_true_iff in E as [E1 _]. apply bool_decide_eq_true in E1.
  apply size_empty_inv in E1. by rewrite (filter_notin_empty Span.id).
Qed.

Lemma findMarker_cleared i :
  findMarker ms' i =
    if decide (i ∈ removeMarkerIds clearing) then None else retime <$> findMarker ms i.
Proof.
  rewrite clear_markers, findMarker_fmap by (intros m; by destruct (_ !! _)).
  rewrite findMarker_filter. by destruct (decide _).
Qed.

(** Nothing appears: a marker present afterwards was present before. *)
Lemma findMarker_cleared_Some i m' :
  findMarker ms' i = Some m' → ∃ m, findMarker ms i = Some m.
Proof.
  rewrite findMarker_cleared. destruct (decide _); [done|].
  destruct (findMarker ms i); [eauto | done].
Qed.
End clear_outcome.

Section clear_one_span.
Variables (st : Store) (startMs endMs : Z) (tierId videoId : string) (x : Span.t).

Local Abbreviation action := (clearAction (get st) startMs endMs tierId videoId).
Local Abbreviation clearing :=
  (foldl (clearStep (get st) startMs endMs tierId videoId) noClearing (spans (get st))).
Local Abbreviation ms := (markers (get st)).
Local Abbreviation ms' :=
  (markers (get (clearOverlappingSpans startMs endMs tierId videoId st))).

(** The anchors of [x] are anchors of no other span of the cleared tier and
    video. *)
Hypothesis Hx : x ∈ spans (get st).
Hypothesis Hexcl :
  ∀ z, z ∈ spans (get st) → onTrack tierId videoId z → z = x ∨ anchors x ## anchors z.

Lemma anchor_not_removed i :
  i ∈ anchors x → action x ≠ Remove → i ∉ removeMarkerIds clearing.
Proof using Hx Hexcl.
  intros Hi Hna Hin. apply loop_removeMarkerIds in Hin as [Hin|(z & Hz & Ha & Hiz)].
  - simpl in Hin. elem_of_sets.
  - destruct (Hexcl z Hz) as [Heq|Hdisj];
      [apply (action_onTrack st startMs endMs); congruence | by subst z |].
    rewrite elem_of_disjoint in Hdisj. by destruct (Hdisj i).
Qed.

Lemma anchor_update i t :
  action x = Trim i t → markerTimeUpdates clearing !! i = Some t.
Proof using Hx Hexcl.
  intros Ha. apply loop_update_agree; [|right; eauto].
  intros z u Hz Haz.
  destruct (Hexcl z Hz) as [Heq|Hdisj];
    [apply (action_onTrack st startMs endMs); congruence | congruence |].
  apply action_Trim_anchor in Ha. apply action_Trim_anchor in Haz.
  rewrite elem_of_disjoint in Hdisj. by destruct (Hdisj i).
Qed.

Lemma anchor_no_update j :
  j ∈ anchors x → (∀ u, action x ≠ Trim j u) → markerTimeUpdates clearing !! j = None.
Proof using Hx Hexcl.
  intros Hj Hna. rewrite loop_update_none; [apply lookup_empty|].
  intros z u Hz Haz.
  destruct (Hexcl z Hz) as [Heq|Hdisj];
    [apply (action_onTrack st startMs endMs); congruence | subst z; by eapply Hna |].
  apply action_Trim_anchor in Haz.
  rewrite elem_of_disjoint in Hdisj. by destruct (Hdisj j).
Qed.

(** An anchor that is neither removed nor given a new time resolves as
    before. *)
Lemma anchor_kept j :
  j ∈ anchors x → action x ≠ Remove → (∀ u, action x ≠ Trim j u) →
  findMarker ms' j = findMarker ms j.
Proof using Hx Hexcl.
  intros Hj Hnr Hnt. rewrite findMarker_cleared.
  rewrite decide_False by by apply anchor_not_removed.
  destruct (findMarker ms j) as [m|] eqn:Em; [|done]. simpl.
  apply findMarker_Some in Em as [_ <-]. by rewrite anchor_no_update.
Qed.

Lemma anchor_moved i t m :
  action x = Trim i t → findMarker ms i = Some m →
  findMarker ms' i = Some (Marker.with_time t m).
Proof using Hx Hexcl.
  intros Ha Hm. rewrite findMarker_cleared.
  rewrite decide_False
    by (apply anchor_not_removed; [by eapply action_Trim_anchor | congruence]).
  rewrite Hm. simpl. apply findMarker_Some in Hm as [_ <-].
  by rewrite (anchor_update _ _ Ha).
Qed.

(** The four cases of the loop for a span of the cleared tier and video
    with effective interval [(s, e)]. *)
Lemma clear_outcome s e :
  onTrack tierId videoId x →
  interval ms x = Some (s, e) →
  ((endMs ≤ s ∨ e ≤ startMs) ∧ interval ms' x = Some (s, e))
  ∨ (startMs ≤ s ∧ e ≤ endMs ∧ s < endMs ∧ startMs < e ∧
     Span.id x ∈ removeSpanIds clearing ∧
     findMarker ms' (Span.startMarkerId x) = None ∧
     findMarker ms' (Span.endMarkerId x) = None)
  ∨ (s < startMs ∧ startMs < e ∧ interval ms' x = Some (s, startMs))
  ∨ (startMs ≤ s ∧ s < endMs ∧ endMs < e ∧ interval ms' x = Some (endMs, e)).
Proof using Hx Hexcl.
  intros Htrack Hint.
  apply interval_Some in Hint as (sM & eM & HsM & HeM & [= -> ->]).
  assert (Span.startMarkerId x ∈ anchors x) as Hsa by (rewrite elem_of_anchors; auto).
  assert (Span.endMarkerId x ∈ anchors x) as Hea by (rewrite elem_of_anchors; auto).
  assert (Marker.time sM ≠ Marker.time eM →
          Span.startMarkerId x ≠ Span.endMarkerId x) as Hdiff.
  { intros Hne Heq. rewrite Heq in HsM. congruence. }
  destruct (action x) as [| |i t] eqn:Ea; revert Ea;
    unfold clearAction; rewrite decide_True, HsM, HeM by done; cbv zeta;
    repeat case_decide; intros Ea; try discriminate Ea.
  - (* skipped *)
    left. split; [done|]. unfold interval.
    assert (action x = Skip) as Hskip
      by (unfold clearAction; rewrite decide_True, HsM, HeM by done; cbv zeta;
          by rewrite decide_True).
    rewrite !anchor_kept by (done || congruence). by rewrite HsM, HeM.
  - (* contained *)
    right; left.
    assert (action x = Remove) as Hrem
      by (unfold clearAction; rewrite decide_True, HsM, HeM by done; cbv zeta;
          rewrite decide_False, decide_True by done; done).
    split_and!; try lia.
    + apply loop_removeSpanIds. right. eauto.
    + rewrite findMarker_cleared, decide_True; [done|].
      apply loop_removeMarkerIds. right. eauto.
    + rewrite findMarker_cleared, decide_True; [done|].
      apply loop_removeMarkerIds. right. eauto.
  - (* the end is trimmed; the span runs forward *)
    injection Ea as <- <-. right; right; left.
    assert (action x = Trim (Span.endMarkerId x) startMs) as Htrim
      by (unfold clearAction; rewrite decide_True, HsM, HeM by done; cbv zeta;
          rewrite !decide_False, !decide_True by done; done).
    split_and!; try lia. unfold interval.
    rewrite (anchor_moved _ _ _ Htrim HeM).
    rewrite anchor_kept, HsM;
      [| done | congruence | intros u; rewrite Htrim; intros [= Heq _]; apply Hdiff; [lia|done]].
    simpl. f_equal. f_equal; lia.
  - (* the end is trimmed; the span runs backward *)
    injection Ea as <- <-. right; right; left.
    assert (action x = Trim (Span.startMarkerId x) startMs) as Htrim
      by (unfold clearAction; rewrite decide_True, HsM, HeM by done; cbv zeta;
          rewrite decide_False, decide_False, decide_True, decide_False by done; done).
    split_and!; try lia. unfold interval.
    rewrite (anchor_moved _ _ _ Htrim HsM).
    rewrite anchor_kept, HeM;
      [| done | congruence | intros u; rewrite Htrim; intros [= Heq _]; apply Hdiff; [lia|done]].
    simpl. f_equal. f_equal; lia.
  - (* the start is trimmed; the span runs forward *)
    injection Ea as <- <-. right; right; right.
    assert (action x = Trim (Span.startMarkerId x) endMs) as Htrim
      by (unfold clearAction; rewrite decide_True, HsM, HeM by done; cbv zeta;
          rewrite decide_False, decide_False, decide_False, decide_True by done; done).
    split_and!; try lia. unfold interval.
    rewrite (anchor_moved _ _ _ Htrim HsM).
    rewrite anchor_kept, HeM;
      [| done | congruence | intros u; rewrite Htrim; intros [= Heq _]; apply Hdiff; [lia|done]].
    simpl. f_equal. f_equal; lia.
  - (* the start is trimmed; the span runs backward *)
    injection Ea as <- <-. right; right; right.
    assert (action x = Trim (Span.endMarkerId x) endMs) as Htrim
      by (unfold clearAction; rewrite decide_True, HsM, HeM by done; cbv zeta;
          rewrite !decide_False by done; done).
    split_and!; try lia. unfold interval.
    rewrite (anchor_moved _ _ _ Htrim HeM).
    rewrite anchor_kept, HsM;
      [| done | congruence | intros u; rewrite Htrim; intros [= Heq _]; apply Hdiff; [lia|done]].
    simpl. f_equal. f_equal; lia.
Qed.

(** A span the loop skips keeps its interval, whatever its tier and
    video. *)
Lemma clear_skipped :
  action x = Skip → interval ms' x = interval ms x.
Proof using Hx Hexcl.
  intros Hskip. unfold interval.
  rewrite !anchor_kept by (rewrite ?elem_of_anchors; auto || congruence). done.
Qed.
End clear_one_span.

(** ** addSpan *)

Section add_span.
Implicit Types (st : Store) (span : NewSpan.t).

(** The test [overlapping] of the source, in terms of [avoids]. *)
Lemma overlapping_spec (s : AnnotationState) span (a : Z * Z) :
  existsb (λ existing,
    if negb (bool_decide (Span.tierId existing = NewSpan.tierId span))
       || negb (bool_decide (Span.videoId existing = NewSpan.videoId span))
    then false
    else
      match findMarker (markers s) (Span.startMarkerId existing),
            findMarker (markers s) (Span.endMarkerId existing) with
      | Some existStart, Some existEnd =>
          overlaps a.1 a.2
            (Z.min (Marker.time existStart) (Marker.time existEnd))
            (Z.max (Marker.time existStart) (Marker.time existEnd))
      | _, _ => false
      end) (spans s) = false
  ↔ Forall (avoids (markers s) (NewSpan.tierId span) (NewSpan.videoId span) a) (spans s).
Proof.
  rewrite existsb_false_iff, Forall_forall.
  apply forall_proper. intros sp. apply forall_proper. intros _.
  unfold avoids, onTrack, interval.
  destruct (decide (Span.tierId sp = NewSpan.tierId span)) as [Ht|Ht];
    [rewrite (bool_decide_eq_true_2 _ Ht)
    |rewrite (bool_decide_eq_false_2 _ Ht); split; [tauto | done]].
  destruct (decide (Span.videoId sp = NewSpan.videoId span)) as [Hv|Hv];
    [rewrite (bool_decide_eq_true_2 _ Hv)
    |rewrite (bool_decide_eq_false_2 _ Hv); split; [tauto | done]].
  cbn [negb orb].
  destruct (findMarker (markers s) (Span.startMarkerId sp)) as [x|]; [|tauto].
  destruct (findMarker (markers s) (Span.endMarkerId sp)) as [y|]; [|tauto].
  rewrite <- not_true_iff_false, overlaps_intersects. destruct a. tauto.
Qed.

Lemma addSpan_accepts st uuid span a :
  newInterval (markers (get st)) span = Some a →
  Forall (avoids (markers (get st)) (NewSpan.tierId span) (NewSpan.videoId span) a)
    (spans (get st)) →
  addSpan uuid span st =
    set (mapSpans (λ sps, sps ++ [NewSpan.with_id (generateId "sp" uuid) span])) st.
Proof.
  unfold newInterval, addSpan.
  destruct (findMarker (markers (get st)) (NewSpan.startMarkerId span)) as [x|]; [|done].
  destruct (findMarker (markers (get st)) (NewSpan.endMarkerId span)) as [y|]; [|done].
  intros [= <-] H. apply (overlapping_spec (get st) span) in H. simpl in H.
  cbv zeta. by rewrite H.
Qed.

Lemma addSpan_rejects st uuid span :
  IntersectsExisting (get st) span → addSpan uuid span st = st.
Proof.
  unfold IntersectsExisting, newInterval, addSpan.
  destruct (findMarker (markers (get st)) (NewSpan.startMarkerId span)) as [x|]; [|done].
  destruct (findMarker (markers (get st)) (NewSpan.endMarkerId span)) as [y|]; [|done].
  intros H.
  assert (¬ Forall (avoids (markers (get st)) (NewSpan.tierId span) (NewSpan.videoId span)
                      (Z.min (Marker.time x) (Marker.time y),
                       Z.max (Marker.time x) (Marker.time y))) (spans (get st))) as Hn.
  { rewrite Forall_forall. rewrite Exists_exists in H.
    destruct H as (e & He & Hne). intros HF. by apply Hne, HF. }
  rewrite <- (overlapping_spec (get st) span) in Hn. simpl in Hn.
  apply not_false_is_true in Hn. cbv zeta. by rewrite Hn.
Qed.

(** [addSpan] changes the spans list or nothing. *)
Lemma addSpan_cases st uuid span :
  addSpan uuid span st = st ∨
  ∃ a, newInterval (markers (get st)) span = Some a ∧
       Forall (avoids (markers (get st)) (NewSpan.tierId span) (NewSpan.videoId span) a)
         (spans (get st)) ∧
       addSpan uuid span st =
         set (mapSpans (λ sps, sps ++ [NewSpan.with_id (generateId "sp" uuid) span])) st.
Proof.
  destruct (newInterval (markers (get st)) span) as [a|] eqn:Ea.
  - destruct (decide (Forall (avoids (markers (get st)) (NewSpan.tierId span)
                                (NewSpan.videoId span) a) (spans (get st)))) as [H|H].
    + right. exists a. split_and!; [done..|]. by apply (addSpan_accepts _ _ _ a).
    + left. apply addSpan_rejects. unfold IntersectsExisting. rewrite Ea.
      apply not_Forall_Exists in H; [done | apply _].
  - left. unfold newInterval in Ea. unfold addSpan.
    destruct (findMarker (markers (get st)) (NewSpan.startMarkerId span)); [|done].
    by destruct (findMarker (markers (get st)) (NewSpan.endMarkerId span)).
Qed.
End add_span.

Section clear_theorems.
Variables (st : Store) (startMs endMs : Z) (tierId videoId : string).

Local Abbreviation action := (clearAction (get st) startMs endMs tierId videoId).
Local Abbreviation clearing :=
  (foldl (clearStep (get st) startMs endMs tierId videoId) noClearing (spans (get st))).
Local Abbreviation st' := (clearOverlappingSpans startMs endMs tierId videoId st).

Lemma action_Remove_inv z :
  action z = Remove →
  ∃ s e, interval (markers (get st)) z = Some (s, e) ∧ startMs ≤ s ∧ e ≤ endMs.
Proof.
  unfold clearAction, interval.
  destruct (decide (onTrack tierId videoId z)); [|done].
  destruct (findMarker (markers (get st)) (Span.startMarkerId z)) as [sM|]; [|done].
  destruct (findMarker (markers (get st)) (Span.endMarkerId z)) as [eM|]; [|done].
  cbv zeta. repeat case_decide; try done. intros _. eexists _, _. split; [done|]. lia.
Qed.

Lemma interval_cleared_Some z c :
  interval (markers (get st')) z = Some c →
  ∃ a, interval (markers (get st)) z = Some a.
Proof.
  unfold interval.
  destruct (findMarker (markers (get st')) (Span.startMarkerId z)) as [x|] eqn:Ex; [|done].
  destruct (findMarker (markers (get st')) (Span.endMarkerId z)) as [y|] eqn:Ey; [|done].
  apply findMarker_cleared_Some in Ex as [x0 ->].
  apply findMarker_cleared_Some in Ey as [y0 ->]. eauto.
Qed.

Lemma exclusive_within_elem x :
  ExclusiveWithin tierId videoId (get st) →
  x ∈ spans (get st) → onTrack tierId videoId x →
  ∀ z, z ∈ spans (get st) → onTrack tierId videoId z → z = x ∨ anchors x ## anchors z.
Proof.
  intros Hexcl Hx Htx z Hz Htz.
  destruct (pairwise_elem _ _ x z (λ a b H Hb Ha, symmetry (H Ha Hb)) Hexcl Hx Hz)
    as [->|H]; auto.
Qed.

Lemma unique_span_ids_elem x z :
  UniqueSpanIds (get st) →
  x ∈ spans (get st) → z ∈ spans (get st) → Span.id x = Span.id z → x = z.
Proof.
  intros Hu Hx Hz Hid. apply pairwise_NoDup in Hu.
  destruct (pairwise_elem _ _ x z (λ a b H, not_eq_sym H) Hu Hx Hz) as [->|H]; done.
Qed.

(** After the call every span of the tier and video keeps clear of
    [startMs, endMs). *)
Lemma cleared_avoids :
  ExclusiveWithin tierId videoId (get st) →
  Forall (avoids (markers (get st')) tierId videoId (startMs, endMs)) (spans (get st')).
Proof.
  intros Hexcl. rewrite Forall_forall. intros sp Hsp Htrack.
  rewrite clear_spans in Hsp. apply list_elem_of_filter in Hsp as [Hkept Hsp].
  destruct (interval (markers (get st')) sp) as [c|] eqn:Ec; [|done].
  destruct (interval_cleared_Some sp c Ec) as [[s e] Ea].
  destruct (clear_outcome st startMs endMs tierId videoId sp Hsp
              (exclusive_within_elem sp Hexcl Hsp Htrack) s e Htrack Ea)
    as [(H1 & H2)|[(_ & _ & _ & _ & Hrm & _)|[(H1 & H2 & H3)|(H1 & H2 & H3 & H4)]]];
    try done; rewrite Ec in *; simplify_eq; unfold intersects; simpl; lia.
Qed.
End clear_theorems.

(** X26.  Let the span ids be unique and let no marker anchor two
    spans of the tier and video.  After
    [clearOverlappingSpans startMs endMs tierId videoId], with
    [startMs < endMs], every remaining span of that tier and video with
    both anchors present keeps clear of [startMs, endMs).  Of the spans of
    that tier and video that intersected the range: those inside it are
    deleted with their two anchor markers; those that started before it
    (around the range, or reaching into it from the left) are kept and end
    at [startMs], their start unchanged; the others (reaching into it from
    the right) are kept and start at [endMs], their end unchanged.  And an
    [addSpan] on that tier and video whose anchors lie at [startMs] and
    [endMs] is then accepted. *)
Theorem clearOverlappingSpans_clears (st : Store) (startMs endMs : Z)
    (tierId videoId : string) :
  startMs < endMs →
  UniqueSpanIds (get st) →
  ExclusiveWithin tierId videoId (get st) →
  let st' := clearOverlappingSpans startMs endMs tierId videoId st in
  Forall (avoids (markers (get st')) tierId videoId (startMs, endMs)) (spans (get st')) ∧
  (∀ sp s e,
     sp ∈ spans (get st) → onTrack tierId videoId sp →
     interval (markers (get st)) sp = Some (s, e) →
     intersects (s, e) (startMs, endMs) →
     (if decide (startMs ≤ s ∧ e ≤ endMs) then
        (sp ∉ spans (get st')) ∧
        findMarker (markers (get st')) (Span.startMarkerId sp) = None ∧
        findMarker (markers (get st')) (Span.endMarkerId sp) = None
      else if decide (s < startMs) then
        sp ∈ spans (get st') ∧ interval (markers (get st')) sp = Some (s, startMs)
      else
        sp ∈ spans (get st') ∧ interval (markers (get st')) sp = Some (endMs, e))) ∧
  (∀ uuid span,
     NewSpan.tierId span = tierId → NewSpan.videoId span = videoId →
     newInterval (markers (get st')) span = Some (startMs, endMs) →
     spans (get (addSpan uuid span st'))
       = spans (get st') ++ [NewSpan.with_id (generateId "sp" uuid) span]).
Proof.
  intros Hlt Huniq Hexcl st'. split_and!.
  - by apply cleared_avoids.
  - intros sp s e Hsp Htrack Hint [Hi1 Hi2]. simpl in Hi1, Hi2.
    assert (Span.id sp ∈ removeSpanIds
              (foldl (clearStep (get st) startMs endMs tierId videoId) noClearing
                 (spans (get st))) → startMs ≤ s ∧ e ≤ endMs) as Hremoved.
    { intros Hin. apply loop_removeSpanIds in Hin as [Hin|(z & Hz & Ha & Hid)];
        [simpl in Hin; elem_of_sets|].
      apply (unique_span_ids_elem st z sp Huniq Hz Hsp) in Hid as ->.
      apply action_Remove_inv in Ha as (s' & e' & Hint' & ?). by simplify_eq. }
    destruct (clear_outcome st startMs endMs tierId videoId sp Hsp
                (exclusive_within_elem st tierId videoId sp Hexcl Hsp Htrack)
                s e Htrack Hint)
      as [(H1 & H2)|[(H1 & H2 & _ & _ & Hrm & Hs & He)
                    |[(H1 & H2 & H3)|(H1 & H2 & H3 & H4)]]].
    + lia.
    + rewrite decide_True by done. split_and!; [|done..].
      unfold st'. rewrite clear_spans, list_elem_of_filter. tauto.
    + rewrite decide_False, decide_True by lia. split; [|done].
      unfold st'. rewrite clear_spans, list_elem_of_filter. split; [|done].
      intros Hin. apply Hremoved in Hin. lia.
    + rewrite decide_False, decide_False by lia. split; [|done].
      unfold st'. rewrite clear_spans, list_elem_of_filter. split; [|done].
      intros Hin. apply Hremoved in Hin. lia.
  - intros uuid span <- <- Hnew.
    rewrite (addSpan_accepts _ _ _ _ Hnew); [by rewrite get_set|].
    by apply cleared_avoids.
Qed.

Lemma clearOverlappingSpans_clears_witness :
  let st' := clearOverlappingSpans 500 2000 "t1" "v1" holdStore in
  Forall (avoids (markers (get st')) "t1" "v1" (500, 2000)) (spans (get st')) ∧
  spans (get (addSpan "u1" heldSpan st'))
    = spans (get st') ++ [NewSpan.with_id "sp_u1" heldSpan].
Proof.
  destruct (clearOverlappingSpans_clears holdStore 500 2000 "t1" "v1")
    as (H1 & _ & H3).
  - lia.
  - apply (bool_decide_unpack _). vm_compute. exact I.
  - apply (bool_decide_unpack _). vm_compute. exact I.
  - split; [exact H1|]. apply H3; reflexivity.
Defined.

(** In [holdStore] the span inside the range goes with its markers, the
    left span ends at 500 and the right span starts at 2000. *)
Example clearOverlappingSpans_holdStore :
  let st' := clearOverlappingSpans 500 2000 "t1" "v1" holdStore in
  Span.id <$> spans (get st') = ["L"; "R"] ∧
  (λ m, (Marker.id m, Marker.time m)) <$> markers (get st')
    = [ ("l0", 0); ("l1", 500); ("r0", 2000); ("r1", 3000); ("n0", 500); ("n1", 2000) ].
Proof. split; vm_compute; reflexivity. Qed.

(** C4.  The code at a failing input.  In [sharedStore] the spans A and B
    are adjacent and share the marker at 1000, as after two presses of the
    [g] key.  Clearing [500, 1500) for a held key, the loop schedules 500
    for the shared marker (the end of A, "trim end to new start"), then
    1500 (the start of B, "trim start to new end"), and the second entry
    of the Map replaces the first: A becomes [0, 1500), still over the
    range, and the [addSpan] of the held span [500, 1500) that follows is
    rejected. *)
Lemma clearOverlappingSpans_shared_anchor :
  let st' := clearOverlappingSpans 500 1500 "t1" "v1" sharedStore in
  interval (markers (get st')) (Span.mk "A" "a0" "ab" "t1" "v1" "HELLO") = Some (0, 1500) ∧
  ¬ Forall (avoids (markers (get st')) "t1" "v1" (500, 1500)) (spans (get st')) ∧
  newInterval (markers (get st')) heldSpan = Some (500, 1500) ∧
  addSpan "u1" heldSpan st' = st'.
Proof.
  cbv zeta. split_and!.
  - vm_compute. reflexivity.
  - apply (bool_decide_eq_false_1 (Forall _ _)). vm_compute. reflexivity.
  - vm_compute. reflexivity.
  - vm_compute. reflexivity.
Qed.

(** ** The no-overlap invariant *)

Section no_overlap.
Implicit Types (st : Store) (s : AnnotationState).

Lemma intersects_sym (a b : Z * Z) : intersects a b → intersects b a.
Proof. unfold intersects. tauto. Qed.

(** Shrinking an interval inside its bounds cannot make it intersect. *)
Lemma intersects_within (a a' b b' : Z * Z) :
  a.1 ≤ a'.1 → a'.2 ≤ a.2 → b.1 ≤ b'.1 → b'.2 ≤ b.2 →
  intersects a' b' → intersects a b.
Proof. unfold intersects. lia. Qed.

Lemma UniqueSpanIds_filter_fmap (P : Span.t → Prop) `{!∀ x, Decision (P x)}
    (f : Span.t → Span.t) (l : list Span.t) :
  (∀ sp, Span.id (f sp) = Span.id sp) →
  NoDup (Span.id <$> l) → NoDup (Span.id <$> (f <$> filter P l)).
Proof.
  intros Hf Hl. apply pairwise_NoDup, pairwise_fmap.
  apply pairwise_NoDup in Hl.
  eapply pairwise_filter_impl; [exact Hl|]. intros x y _ _ _ _. by rewrite !Hf.
Qed.

(** *** addSpan *)

Lemma NoOverlap_addSpan uuid span st :
  NoOverlap (get st) → NoOverlap (get (addSpan uuid span st)).
Proof.
  intros Hinv. destruct (addSpan_cases st uuid span) as [->|(a & Ha & Hav & ->)]; [done|].
  unfold NoOverlap. rewrite get_set. cbn [mapSpans markers spans].
  apply pairwise_snoc; [done|].
  eapply Forall_impl; [exact Hav|]. intros x Hx Ht Hv.
  unfold avoids, onTrack in Hx.
  assert (interval (markers (get st)) (NewSpan.with_id (generateId "sp" uuid) span)
          = Some a) as -> by exact Ha.
  destruct (interval (markers (get st)) x) as [c|]; [|done].
  intros Hi. apply Hx; [done|]. by apply intersects_sym.
Qed.

Lemma UniqueSpanIds_addSpan uuid span st :
  generateId "sp" uuid ∉ Span.id <$> spans (get st) →
  UniqueSpanIds (get st) → UniqueSpanIds (get (addSpan uuid span st)).
Proof.
  intros Hfresh Hinv.
  destruct (addSpan_cases st uuid span) as [->|(a & Ha & Hav & ->)]; [done|].
  unfold UniqueSpanIds. rewrite get_set. cbn [mapSpans markers spans].
  rewrite fmap_app. apply NoDup_app. split_and!; [done | | apply NoDup_singleton].
  intros i Hi Hi'. apply list_elem_of_singleton in Hi' as ->. done.
Qed.
End no_overlap.

(** *** mergeSpans *)

Section no_overlap_merge.
Implicit Types (st : Store) (s : AnnotationState).

(** [mergeSpans] rejects and changes nothing, or commits. *)
Lemma mergeSpans_cases st keepId removeId :
  mergeSpans keepId removeId st = (false, st) ∨
  ∃ keep remove ks ke rs re,
    findSpan (spans (get st)) keepId = Some keep ∧
    findSpan (spans (get st)) removeId = Some remove ∧
    findMarker (markers (get st)) (Span.startMarkerId keep) = Some ks ∧
    findMarker (markers (get st)) (Span.endMarkerId keep) = Some ke ∧
    findMarker (markers (get st)) (Span.startMarkerId remove) = Some rs ∧
    findMarker (markers (get st)) (Span.endMarkerId remove) = Some re ∧
    ¬ Exists (blocksMerge (get st) keepId removeId keep
                (mergedInterval
                   (Z.min (Marker.time ks) (Marker.time ke),
                    Z.max (Marker.time ks) (Marker.time ke))
                   (Z.min (Marker.time rs) (Marker.time re),
                    Z.max (Marker.time rs) (Marker.time re))))
        (spans (get st)) ∧
    mergeSpans keepId removeId st =
      (true,
       set (mergeCommit keepId removeId keep remove
              (Z.min (Marker.time ks) (Marker.time ke))
              (Z.min (Marker.time rs) (Marker.time re))) st).
Proof.
  unfold mergeSpans.
  destruct (findSpan (spans (get st)) keepId) as [keep|] eqn:Ek; [|by left].
  destruct (findSpan (spans (get st)) removeId) as [remove|] eqn:Er; [|by left].
  destruct (decide (Span.tierId keep = Span.tierId remove)) as [Ht|Ht];
    [rewrite (bool_decide_eq_true_2 _ Ht)|rewrite (bool_decide_eq_false_2 _ Ht); by left].
  destruct (decide (Span.videoId keep = Span.videoId remove)) as [Hv|Hv];
    [rewrite (bool_decide_eq_true_2 _ Hv)
    |rewrite (bool_decide_eq_false_2 _ Hv); left; by rewrite orb_true_r].
  cbn [negb orb].
  destruct (findMarker (markers (get st)) (Span.startMarkerId keep)) as [ks|] eqn:E1;
    [|by left].
  destruct (findMarker (markers (get st)) (Span.endMarkerId keep)) as [ke|] eqn:E2;
    [|by left].
  destruct (findMarker (markers (get st)) (Span.startMarkerId remove)) as [rs|] eqn:E3;
    [|by left].
  destruct (findMarker (markers (get st)) (Span.endMarkerId remove)) as [re|] eqn:E4;
    [|by left].
  cbv zeta.
  destruct (existsb _ _) eqn:Eo; [by left|]. right.
  exists keep, remove, ks, ke, rs, re. split_and!; try done.
  intros HE. apply overlapsThird_spec in HE. simpl in HE. congruence.
Qed.

Lemma interval_filter_Some (X : gset string) (ms : list Marker.t) (z : Span.t) c :
  interval (filter (λ m, Marker.id m ∉ X) ms) z = Some c → interval ms z = Some c.
Proof.
  unfold interval. rewrite !findMarker_filter.
  destruct (decide (Span.startMarkerId z ∈ X)); [done|].
  by destruct (decide (Span.endMarkerId z ∈ X)), (findMarker ms (Span.startMarkerId z)).
Qed.

Lemma NoOverlap_mergeSpans keepId removeId st :
  UniqueSpanIds (get st) →
  NoOverlap (get st) → NoOverlap (get (mergeSpans keepId removeId st).2).
Proof.
  intros Huniq Hinv.
  destruct (mergeSpans_cases st keepId removeId)
    as [->|(keep & remove & ks & ke & rs & re & Hk & Hr & Hks & Hke & Hrs & Hre
            & Hno & ->)]; [done|].
  cbn [snd]. rewrite get_set. unfold NoOverlap, mergeCommit. cbv zeta.
  cbn [markers spans].
  set (isKeepFirst := bool_decide (_ ≤ _)).
  set (fs := if isKeepFirst then Span.startMarkerId keep else Span.startMarkerId remove).
  set (fe := if isKeepFirst then Span.endMarkerId remove else Span.endMarkerId keep).
  set (g := join _ _). set (X := _ ∖ _ ∖ _).
  set (merged := mergedInterval _ _) in Hno.
  apply pairwise_fmap.
  apply (pairwise_filter_impl
           (λ x y, compatible (markers (get st)) x y ∧ Span.id x ≠ Span.id y));
    [apply pairwise_and; [done | by apply pairwise_NoDup]|].
  (* the span that is kept, against another span *)
  assert (∀ x y, x ∈ spans (get st) → y ∈ spans (get st) →
            Span.id x = keepId → Span.id y ≠ keepId → Span.id y ≠ removeId →
            Span.tierId x = Span.tierId y → Span.videoId x = Span.videoId y →
            ∀ a b,
              interval (filter (λ m, Marker.id m ∉ X) (markers (get st)))
                (Span.with_anchors fs fe g x) = Some a →
              interval (filter (λ m, Marker.id m ∉ X) (markers (get st))) y = Some b →
              ¬ intersects a b) as Hkept.
  { intros x y Hx Hy Hxk Hyk Hyr Ht Hv a b Ha Hb Hi.
    apply findSpan_Some in Hk as [Hkin Hkid].
    assert (x = keep) as -> by (apply (unique_span_ids_elem st); congruence).
    apply interval_filter_Some in Ha, Hb.
    apply Hno, Exists_exists. exists y. split; [done|].
    unfold blocksMerge, onTrack. rewrite Hb. split_and!; try done.
    revert Hi. apply intersects_within; try lia;
      apply interval_Some in Ha as (m1 & m2 & Hm1 & Hm2 & ->);
      cbn [Span.with_anchors Span.startMarkerId Span.endMarkerId] in Hm1, Hm2;
      unfold merged, mergedInterval; cbn [fst snd];
      unfold fs, fe in Hm1, Hm2; destruct isKeepFirst; simplify_eq; lia. }
  intros x y Hx Hy Hxr Hyr [Hc Hne].
  destruct (decide (Span.id x = keepId)) as [Hxk|Hxk];
    destruct (decide (Span.id y = keepId)) as [Hyk|Hyk]; [congruence | | |].
  - rewrite (bool_decide_eq_true_2 _ Hxk), (bool_decide_eq_false_2 _ Hyk).
    intros Ht Hv. cbn [Span.with_anchors Span.tierId Span.videoId] in Ht, Hv.
    destruct (interval _ (Span.with_anchors fs fe g x)) as [a|] eqn:Ea; [|done].
    destruct (interval _ y) as [b|] eqn:Eb; [|done].
    by apply (Hkept x y).
  - rewrite (bool_decide_eq_false_2 _ Hxk), (bool_decide_eq_true_2 _ Hyk).
    intros Ht Hv. cbn [Span.with_anchors Span.tierId Span.videoId] in Ht, Hv.
    destruct (interval _ x) as [a|] eqn:Ea; [|done].
    destruct (interval _ (Span.with_anchors fs fe g y)) as [b|] eqn:Eb; [|done].
    intros Hi. apply intersects_sym in Hi. revert Hi. by apply (Hkept y x).
  - rewrite (bool_decide_eq_false_2 _ Hxk), (bool_decide_eq_false_2 _ Hyk).
    intros Ht Hv.
    destruct (interval _ x) as [a|] eqn:Ea; [|done].
    destruct (interval _ y) as [b|] eqn:Eb; [|done].
    specialize (Hc Ht Hv).
    apply interval_filter_Some in Ea, Eb. by rewrite Ea, Eb in Hc.
Qed.

Lemma UniqueSpanIds_mergeSpans keepId removeId st :
  UniqueSpanIds (get st) → UniqueSpanIds (get (mergeSpans keepId removeId st).2).
Proof.
  intros Huniq.
  destruct (mergeSpans_cases st keepId removeId)
    as [->|(keep & remove & ks & ke & rs & re & _ & _ & _ & _ & _ & _ & _ & ->)];
    [done|].
  cbn [snd]. rewrite get_set. unfold UniqueSpanIds, mergeCommit. cbv zeta.
  cbn [spans]. apply (UniqueSpanIds_filter_fmap (λ sp, Span.id sp ≠ removeId));
    [|done].
  intros sp. by destruct (bool_decide _).
Qed.
End no_overlap_merge.

(** *** clearOverlappingSpans *)

Section no_overlap_clear.
Variables (st : Store) (startMs endMs : Z) (tierId videoId : string).

Local Abbreviation st' := (clearOverlappingSpans startMs endMs tierId videoId st).

Lemma ExclusiveOf_within :
  ExclusiveOf tierId videoId (get st) → ExclusiveWithin tierId videoId (get st).
Proof.
  intros H. eapply pairwise_impl; [exact H|]. intros x y _ _ Hxy Hx Hy. auto.
Qed.

Lemma exclusive_of_elem x :
  ExclusiveOf tierId videoId (get st) →
  x ∈ spans (get st) →
  ∀ z, z ∈ spans (get st) → onTrack tierId videoId z → z = x ∨ anchors x ## anchors z.
Proof.
  intros Hexcl Hx z Hz Htz.
  assert (∀ a b : Span.t,
            (onTrack tierId videoId a ∨ onTrack tierId videoId b → anchors a ## anchors b) →
            onTrack tierId videoId b ∨ onTrack tierId videoId a → anchors b ## anchors a)
    as Hsym by (intros a b H Hab; symmetry; apply H; tauto).
  destruct (pairwise_elem _ _ x z Hsym Hexcl Hx Hz) as [->|H]; auto.
Qed.

Lemma NoOverlap_clearOverlappingSpans :
  ExclusiveOf tierId videoId (get st) →
  NoOverlap (get st) → NoOverlap (get st').
Proof.
  intros Hexcl Hinv. unfold NoOverlap. rewrite clear_spans.
  eapply pairwise_filter_impl; [exact Hinv|].
  intros x y Hx Hy Hxk Hyk Hc Ht Hv. specialize (Hc Ht Hv).
  destruct (interval (markers (get st')) x) as [a'|] eqn:Ea'; [|done].
  destruct (interval (markers (get st')) y) as [b'|] eqn:Eb'; [|done].
  destruct (decide (onTrack tierId videoId x)) as [Htx|Htx].
  - assert (onTrack tierId videoId y) as Hty
      by (destruct Htx as [? ?]; split; congruence).
    destruct (interval_cleared_Some _ _ _ _ _ _ _ Ea') as [[s e] Ea].
    destruct (interval_cleared_Some _ _ _ _ _ _ _ Eb') as [[s2 e2] Eb].
    rewrite Ea, Eb in Hc.
    pose proof (clear_outcome st startMs endMs tierId videoId x Hx
                  (exclusive_of_elem x Hexcl Hx) s e Htx Ea) as Ox.
    pose proof (clear_outcome st startMs endMs tierId videoId y Hy
                  (exclusive_of_elem y Hexcl Hy) s2 e2 Hty Eb) as Oy.
    rewrite Ea' in Ox. rewrite Eb' in Oy.
    intros Hi. apply Hc. revert Hi.
    destruct Ox as [(? & ?)|[(_ & _ & _ & _ & ? & _)|[(? & ? & ?)|(? & ? & ? & ?)]]];
      try done;
      destruct Oy as [(? & ?)|[(_ & _ & _ & _ & ? & _)|[(? & ? & ?)|(? & ? & ? & ?)]]];
      try done; simplify_eq; unfold intersects; simpl; lia.
  - assert (¬ onTrack tierId videoId y) as Hty
      by (unfold onTrack in *; intros [? ?]; apply Htx; split; congruence).
    rewrite (clear_skipped st startMs endMs tierId videoId x Hx
               (exclusive_of_elem x Hexcl Hx)) in Ea'
      by (unfold clearAction; by rewrite decide_False).
    rewrite (clear_skipped st startMs endMs tierId videoId y Hy
               (exclusive_of_elem y Hexcl Hy)) in Eb'
      by (unfold clearAction; by rewrite decide_False).
    by rewrite Ea', Eb' in Hc.
Qed.

Lemma UniqueSpanIds_clearOverlappingSpans :
  UniqueSpanIds (get st) → UniqueSpanIds (get st').
Proof.
  intros Huniq. unfold UniqueSpanIds. rewrite clear_spans.
  rewrite <- (list_fmap_id (filter _ _)).
  by apply (UniqueSpanIds_filter_fmap _ id).
Qed.
End no_overlap_clear.

(** *** Sequences of operations *)

Lemma no_overlap_run (ops : list SpanOp) (st : Store) :
  NoOverlap (get st) → UniqueSpanIds (get st) → Admissible st ops →
  NoOverlap (get (runSpanOps ops st)) ∧ UniqueSpanIds (get (runSpanOps ops st)).
Proof.
  revert st. induction ops as [|op ops IH]; intros st Hinv Huniq Hadm; [done|].
  destruct Hadm as [Hop Hrest]. simpl. apply IH; [| |done].
  - destruct op; simpl.
    + by apply NoOverlap_addSpan.
    + by apply NoOverlap_mergeSpans.
    + by apply NoOverlap_clearOverlappingSpans.
  - destruct op; simpl.
    + by apply UniqueSpanIds_addSpan.
    + by apply UniqueSpanIds_mergeSpans.
    + by apply UniqueSpanIds_clearOverlappingSpans.
Qed.

(** C1 (amended).  Start from a store with unique span ids in which the
    spans of each tier and video, with their anchors present, have
    pairwise non-intersecting effective intervals.  After any sequence of
    [addSpan] (each with an id not in use), [mergeSpans] and
    [clearOverlappingSpans] calls, where every [clearOverlappingSpans] is
    called while no anchor of a span of the cleared tier and video anchors
    another span, the intervals are still pairwise non-intersecting.  And
    [addSpan] is a no-op whenever the interval of the new span intersects
    that of an existing span of its tier and video. *)
Theorem no_overlap_preserved (ops : list SpanOp) (st : Store) :
  NoOverlap (get st) → UniqueSpanIds (get st) → Admissible st ops →
  NoOverlap (get (runSpanOps ops st)) ∧
  ∀ uuid span,
    IntersectsExisting (get (runSpanOps ops st)) span →
    addSpan uuid span (runSpanOps ops st) = runSpanOps ops st.
Proof.
  intros Hinv Huniq Hadm. split.
  - by apply no_overlap_run.
  - intros uuid span. apply addSpan_rejects.
Qed.

Lemma no_overlap_preserved_witness :
  NoOverlap (get holdStore) ∧ UniqueSpanIds (get holdStore) ∧
  Admissible holdStore holdOps ∧
  NoOverlap (get (runSpanOps holdOps holdStore)) ∧
  addSpan "u2" (NewSpan.mk "l0" "r0" "t1" "v1" "AGAIN") (runSpanOps holdOps holdStore)
    = runSpanOps holdOps holdStore.
Proof.
  assert (NoOverlap (get holdStore)) as H1
    by (apply (bool_decide_unpack _); vm_compute; exact I).
  assert (UniqueSpanIds (get holdStore)) as H2
    by (apply (bool_decide_unpack _); vm_compute; exact I).
  assert (Admissible holdStore holdOps) as H3
    by (apply (bool_decide_unpack _); vm_compute; exact I).
  destruct (no_overlap_preserved holdOps holdStore H1 H2 H3) as [H4 H5].
  split_and!; [exact H1 | exact H2 | exact H3 | exact H4 |].
  apply H5. apply (bool_decide_unpack _). vm_compute. exact I.
Defined.

(** What the hold leaves in [holdStore]: L merged with the held span, and
    R. *)
Example runSpanOps_holdStore :
  let s := get (runSpanOps holdOps holdStore) in
  spans s = [ Span.mk "L" "l0" "n1" "t1" "v1" "LEFT";
              Span.mk "R" "r0" "r1" "t1" "v1" "RIGHT" ] ∧
  (λ m, (Marker.id m, Marker.time m)) <$> markers s
    = [ ("l0", 0); ("r0", 2000); ("r1", 3000); ("n1", 2000) ].
Proof. split; vm_compute; reflexivity. Qed.

(** C1 as worded fails when a marker anchors spans of two tiers.  In
    [crossStore], clearing [600, 2000) on tier [t1] trims span A by moving
    the marker [x1] to 600; [x1] is also the start of span C on tier [t2],
    which becomes [600, 3000) and intersects D = [500, 1000). *)
Lemma clearOverlappingSpans_breaks_other_tier :
  NoOverlap (get crossStore) ∧
  let st' := runSpanOps [OpClearOverlappingSpans 600 2000 "t1" "v1"] crossStore in
  interval (markers (get st')) (Span.mk "C" "x1" "c1" "t2" "v1" "TWO") = Some (600, 3000) ∧
  interval (markers (get st')) (Span.mk "D" "d0" "d1" "t2" "v1" "THREE") = Some (500, 1000) ∧
  ¬ NoOverlap (get st').
Proof.
  split; [apply (bool_decide_unpack _); vm_compute; exact I|].
  cbv zeta. split_and!.
  - vm_compute. reflexivity.
  - vm_compute. reflexivity.
  - apply (bool_decide_eq_false_1 (NoOverlap _)). vm_compute. reflexivity.
Qed.

(** ** Undo and redo *)

Section history.
Implicit Types (st : Store) (s : AnnotationState) (a : Action).

(** An operation leaves the store as it is, or goes through [set]. *)
Lemma perform_cases a st : perform a st = st ∨ ∃ f, perform a st = set f st.
Proof.
  destruct a; simpl;
    try (right; eexists; unfold placeMarker, removeMarker, nudgeMarker, updateMarkerTime,
           updateMarkerTier, reclassifyMarker, updateMarkerValue, removeSpan,
           updateSpanGloss, setMarkers, setSpans, clearVideoAnnotations;
         simpl; reflexivity).
  - unfold confirmMarker. destruct (findMarker _ _); [right; eauto | by left].
  - unfold cancelPendingMarker. destruct (pendingMarkerId _) as [p|]; [|by left].
    destruct (truthy p); [right; eauto | by left].
  - destruct (addSpan_cases st uuid span) as [->|(? & _ & _ & ->)]; [by left | right; eauto].
  - destruct (mergeSpans_cases st keepSpanId removeSpanId)
      as [->|(? & ? & ? & ? & ? & ? & _ & _ & _ & _ & _ & _ & _ & ->)];
      [by left | right; eauto].
  - unfold clearOverlappingSpans. cbv zeta. destruct (_ && _); [by left | right; eauto].
Qed.

Lemma partialize_restore snap s : partialize (restore snap s) = snap.
Proof. by destruct snap. Qed.

Lemma last_record past snap : last (record past snap) = Some snap.
Proof. unfold record. apply last_snoc. Qed.

Lemma length_record past snap :
  (length past ≤ limit)%nat → (length (record past snap) ≤ limit)%nat.
Proof.
  unfold record, limit. intros H. rewrite length_app. simpl.
  case_bool_decide; [rewrite length_drop|]; lia.
Qed.

Lemma length_removelast {A} (l : list A) :
  length (removelast l) = pred (length l).
Proof.
  induction l as [|x l IH]; [done|]. destruct l as [|y l]; [done|].
  change (removelast (x :: y :: l)) with (x :: removelast (y :: l)).
  simpl in *. by rewrite IH.
Qed.

(** The two ways a [set] ends: without an orphaned reference one snapshot
    is recorded; with one, the clean-up records a second snapshot, of the
    state the patch produced. *)
Lemma set_settled f st :
  orphaned (f (get st)) (pendingMarkerId (f (get st)))
  || orphaned (f (get st)) (selectedMarkerId (f (get st))) = false →
  set f st = mkStore (f (get st)) (record (pastStates st) (partialize (get st))) [].
Proof. intros H. unfold set. cbv zeta. by rewrite H. Qed.

Lemma set_cleaned f st :
  orphaned (f (get st)) (pendingMarkerId (f (get st)))
  || orphaned (f (get st)) (selectedMarkerId (f (get st))) = true →
  set f st =
    mkStore (cleanOrphans (f (get st)))
      (record (record (pastStates st) (partialize (get st))) (partialize (f (get st))))
      [].
Proof. intros H. unfold set. cbv zeta. by rewrite H. Qed.

Lemma HistoryBounded_set f st : HistoryBounded st → HistoryBounded (set f st).
Proof.
  unfold HistoryBounded. intros H.
  assert (length (pastStates st) ≤ limit)%nat as Hp by lia.
  destruct (orphaned (f (get st)) (pendingMarkerId (f (get st)))
            || orphaned (f (get st)) (selectedMarkerId (f (get st)))) eqn:E.
  - rewrite (set_cleaned _ _ E). cbn [pastStates futureStates length].
    rewrite Nat.add_0_r. by apply length_record, length_record.
  - rewrite (set_settled _ _ E). cbn [pastStates futureStates length].
    rewrite Nat.add_0_r. by apply length_record.
Qed.

(** Whatever the clean-up did, [redo] after [undo] gives back the markers
    and spans the [set] produced. *)
Lemma redo_undo_set f st :
  partialize (get (redo (undo (set f st)))) = partialize (get (set f st)).
Proof.
  destruct (orphaned (f (get st)) (pendingMarkerId (f (get st)))
            || orphaned (f (get st)) (selectedMarkerId (f (get st)))) eqn:E.
  - rewrite (set_cleaned _ _ E). unfold undo. cbn [pastStates futureStates get].
    rewrite last_record. unfold redo. cbn [pastStates futureStates get app last].
    by rewrite partialize_restore.
  - rewrite (set_settled _ _ E). unfold undo. cbn [pastStates futureStates get].
    rewrite last_record. unfold redo. cbn [pastStates futureStates get app last].
    by rewrite partialize_restore.
Qed.

Lemma redo_undo_perform a st :
  partialize (get (redo (undo (perform a st)))) = partialize (get (perform a st))
  ∨ perform a st = st.
Proof.
  destruct (perform_cases a st) as [Hsame|[f Hset]]; [by right|].
  left. rewrite Hset. apply redo_undo_set.
Qed.

Lemma HistoryBounded_undo st : HistoryBounded st → HistoryBounded (undo st).
Proof.
  unfold HistoryBounded, undo. intros H.
  destruct (last (pastStates st)) as [snap|] eqn:El; [|done].
  cbn [pastStates futureStates]. rewrite length_removelast, length_app. simpl.
  destruct (pastStates st); [done|]. simpl in *. lia.
Qed.

Lemma HistoryBounded_redo st : HistoryBounded st → HistoryBounded (redo st).
Proof.
  unfold HistoryBounded, redo. intros H.
  destruct (last (futureStates st)) as [snap|] eqn:El; [|done].
  cbn [pastStates futureStates]. rewrite length_removelast, length_app. simpl.
  destruct (futureStates st); [done|]. simpl in *. lia.
Qed.

Lemma HistoryBounded_perform a st : HistoryBounded st → HistoryBounded (perform a st).
Proof.
  intros H. destruct (perform_cases a st) as [->|[f ->]]; [done|].
  by apply HistoryBounded_set.
Qed.

Lemma HistoryBounded_runSteps hs st : HistoryBounded st → HistoryBounded (runSteps hs st).
Proof.
  revert st. induction hs as [|h hs IH]; intros st H; [done|].
  simpl. apply IH. destruct h; simpl.
  - by apply HistoryBounded_perform.
  - by apply HistoryBounded_undo.
  - by apply HistoryBounded_redo.
Qed.
End history.

(** C6.  The code at a failing input.  Enter places the marker [m_u1],
    which becomes the selected and the pending marker; then
    [clearVideoAnnotations] removes it.  The references are orphaned, so
    the clean-up that follows the [set] clears them through [setState],
    which records a second snapshot, of the emptied lists.  [undo] puts
    that snapshot back: the markers stay empty, where the operation
    followed by [undo] should give back the marker; a second [undo] does.
    And [undo] itself does not run the clean-up: taking back the
    [placeMarker] leaves both references at the marker that is gone.
    From there any operation meets the same fate: with a first marker at
    100 ms, Enter, Ctrl+Z and then a drag of the first marker to 300 ms
    ([updateMarkerTime]), one [undo] leaves the marker at 300 ms. *)
Lemma undo_after_cleanup_restores_nothing :
  let st := (placeMarker "u1" 500 "t1" "v1" initialStore).2 in
  let st1 := clearVideoAnnotations "v1" st in
  let s0 := confirmMarker "m_u0" "sign" (placeMarker "u0" 100 "t1" "v1" initialStore).2 in
  let s1 := undo (placeMarker "u1" 500 "t1" "v1" s0).2 in
  let s2 := updateMarkerTime "m_u0" 300 s1 in
  (Marker.id <$> markers (get st) = ["m_u1"] ∧
   selectedMarkerId (get st) = Some "m_u1" ∧
   pendingMarkerId (get st) = Some "m_u1" ∧
   markers (get st1) = [] ∧
   selectedMarkerId (get st1) = None ∧
   pendingMarkerId (get st1) = None ∧
   pastStates st1 = pastStates st ++ [partialize (get st); partialize (get st1)] ∧
   markers (get (undo st1)) = [] ∧
   partialize (get (undo st1)) ≠ partialize (get st) ∧
   partialize (get (undo (undo st1))) = partialize (get st)) ∧
  (markers (get (undo st)) = [] ∧
   selectedMarkerId (get (undo st)) = Some "m_u1" ∧
   pendingMarkerId (get (undo st)) = Some "m_u1") ∧
  (Marker.time <$> markers (get s1) = [100] ∧
   pendingMarkerId (get s1) = Some "m_u1" ∧
   Marker.time <$> markers (get s2) = [300] ∧
   Marker.time <$> markers (get (undo s2)) = [300] ∧
   partialize (get (undo s2)) ≠ partialize (get s1) ∧
   partialize (get (undo (undo s2))) = partialize (get s1)).
Proof. cbv zeta. split_and!; try reflexivity; vm_compute; discriminate. Qed.

(** ** The exporters *)

Section strings.
Implicit Types (a b s t : string).

Lemma str_app_nil_l s : EmptyString +:+ s = s.
Proof. reflexivity. Qed.

Lemma str_app_cons c a s : String c a +:+ s = String c (a +:+ s).
Proof. reflexivity. Qed.

Lemma str_length_app a b :
  String.length (a +:+ b) = (String.length a + String.length b)%nat.
Proof.
  induction a as [|c a IH]; [done|].
  rewrite str_app_cons. simpl. by rewrite IH.
Qed.

Lemma str_app_inv_head s a b : s +:+ a = s +:+ b → a = b.
Proof.
  induction s as [|c s IH]; [done|].
  rewrite !str_app_cons. intros [= H]. auto.
Qed.

Lemma str_app_inv_tail s a b : a +:+ s = b +:+ s → a = b.
Proof.
  revert b. induction a as [|c a IH]; intros [|d b] H.
  - done.
  - apply (f_equal String.length) in H. rewrite !str_length_app in H. simpl in H. lia.
  - apply (f_equal String.length) in H. rewrite !str_length_app in H. simpl in H. lia.
  - rewrite !str_app_cons in H. injection H as -> H. f_equal. by apply IH.
Qed.

Lemma str_app_assoc a b s : (a +:+ b) +:+ s = a +:+ (b +:+ s).
Proof.
  induction a as [|c a IH]; [done|]. rewrite !str_app_cons. by rewrite IH.
Qed.

Lemma str_app_nil_r a : a +:+ EmptyString = a.
Proof. induction a as [|c a IH]; [done|]. rewrite str_app_cons. by rewrite IH. Qed.

Lemma unescape_escapeChar c s :
  unescapeJson (escapeChar c +:+ s) = String c (unescapeJson s).
Proof.
  destruct c as [[|] [|] [|] [|] [|] [|] [|] [|]]; reflexivity.
Qed.

Lemma unescape_escape s : unescapeJson (escapeJson s) = s.
Proof.
  induction s as [|c s IH]; [done|].
  change (escapeJson (String c s)) with (escapeChar c +:+ escapeJson s).
  by rewrite unescape_escapeChar, IH.
Qed.

Lemma escapeJson_inj a b : escapeJson a = escapeJson b → a = b.
Proof.
  intros H. apply (f_equal unescapeJson) in H. by rewrite !unescape_escape in H.
Qed.

Lemma quoteJson_inj a b s t :
  quoteJson a +:+ s = quoteJson b +:+ s → a = b.
Proof.
  intros H. apply str_app_inv_tail in H. unfold quoteJson in H.
  apply str_app_inv_head, str_app_inv_tail in H. by apply escapeJson_inj.
Qed.

Lemma join_cons_cons sep a b (l : list string) :
  join sep (a :: b :: l) = a +:+ sep +:+ join sep (b :: l).
Proof. reflexivity. Qed.

Lemma join_cons_tail sep (l : list string) :
  ∃ tail, ∀ a, join sep (a :: l) = a +:+ tail.
Proof.
  destruct l as [|b l].
  - exists EmptyString. intros a. by rewrite str_app_nil_r.
  - eexists. intros a. apply join_cons_cons.
Qed.
End strings.

(** The output of the JSON exporter is a prefix, the quoted timestamp and a
    suffix, where prefix and suffix depend on the arguments only. *)
Lemma exportAnnotationsJson_shape markers spans tiers markerTypes videoName
    annotator version :
  ∃ before after, ∀ env,
    exportAnnotationsJson env markers spans tiers markerTypes videoName annotator version
    = before +:+ quoteJson (dateNowISO env) +:+ after.
Proof.
  unfold exportAnnotationsJson. cbv zeta.
  set (rest := _ ++ _ ++ [_; _; _; _]).
  destruct (join_cons_tail ("," +:+ newline +:+ (EmptyString +:+ "  "))
              (List.map (λ kv : string * JsonValue,
                           quoteJson kv.1 +:+ ": " +:+
                           stringify (EmptyString +:+ "  ") kv.2) rest))
    as [tail Htail].
  exists ("{" +:+ newline +:+ (EmptyString +:+ "  ")
          +:+ quoteJson "video" +:+ ": " +:+ quoteJson videoName
          +:+ ("," +:+ newline +:+ (EmptyString +:+ "  "))
          +:+ quoteJson "exportedAt" +:+ ": "),
         (tail +:+ newline +:+ EmptyString +:+ "}").
  intros env.
  change ([("video", JString videoName); ("exportedAt", JString (dateNowISO env))] ++ rest)
    with (("video", JString videoName) :: ("exportedAt", JString (dateNowISO env)) :: rest).
  cbn [stringify List.map fst snd].
  rewrite join_cons_cons, Htail.
  by rewrite !str_app_assoc.
Qed.

(** C9 (amended).  [exportMarkersCsv] is a pure function of its arguments:
    any two invocations with the same arguments return the same string,
    whenever they are made.  [exportAnnotationsJson] is a function of its
    arguments and of the time of the call, which it writes into
    [exportedAt]: two invocations with the same arguments return the same
    string exactly when they read the same timestamp. *)
Theorem exporters_determined (env1 env2 : Env) (markers : list Marker.t)
    (spans : list Span.t) (tiers : list Tier.t) (markerTypes : list MarkerType.t)
    (videoName : string) (annotator version : option string) :
  exportMarkersCsv env1 markers tiers markerTypes videoName annotator (Some spans)
    = exportMarkersCsv env2 markers tiers markerTypes videoName annotator (Some spans) ∧
  exportMarkersCsv env1 markers tiers markerTypes videoName annotator None
    = exportMarkersCsv env2 markers tiers markerTypes videoName annotator None ∧
  (exportAnnotationsJson env1 markers spans tiers markerTypes videoName annotator version
     = exportAnnotationsJson env2 markers spans tiers markerTypes videoName annotator version
   ↔ dateNowISO env1 = dateNowISO env2).
Proof.
  split_and!; [reflexivity | reflexivity |].
  destruct (exportAnnotationsJson_shape markers spans tiers markerTypes videoName
              annotator version) as (before & after & Hshape).
  rewrite !Hshape. split.
  - intros H. apply str_app_inv_head in H. by apply quoteJson_inj in H.
  - by intros ->.
Qed.

(** C9 as worded fails for the JSON exporter: it stamps its output with
    the time of the call, so two invocations on the same (empty) input one
    second apart return different strings. *)
Lemma exportAnnotationsJson_reads_clock :
  exportAnnotationsJson (mkEnv "2026-01-01T00:00:00.000Z") [] [] [] [] "clip.mp4" None None
    ≠ exportAnnotationsJson (mkEnv "2026-01-01T00:00:01.000Z") [] [] [] [] "clip.mp4" None None
  ∧ ¬ JsonExportIsPure.
Proof.
  assert (exportAnnotationsJson (mkEnv "2026-01-01T00:00:00.000Z") [] [] [] []
            "clip.mp4" None None
          ≠ exportAnnotationsJson (mkEnv "2026-01-01T00:00:01.000Z") [] [] [] []
              "clip.mp4" None None) as H
    by (apply (bool_decide_unpack _); vm_compute; exact I).
  split; [exact H|]. intros Hpure. apply H, Hpure.
Qed.

(** * Further properties of the store and the exporters *)

(** ** Helper lemmas *)

Section more_basics.
Implicit Types (st : Store) (s : AnnotationState) (ms : list Marker.t) (sps : list Span.t).

Lemma fmap_id_preserving (f : Marker.t → Marker.t) ms :
  (∀ m, Marker.id (f m) = Marker.id m) → Marker.id <$> (f <$> ms) = Marker.id <$> ms.
Proof.
  intros Hf. rewrite <- list_fmap_compose. apply list_fmap_ext. intros _ m _. apply Hf.
Qed.

Lemma fmap_span_id_preserving (f : Span.t → Span.t) sps :
  (∀ sp, Span.id (f sp) = Span.id sp) → Span.id <$> (f <$> sps) = Span.id <$> sps.
Proof.
  intros Hf. rewrite <- list_fmap_compose. apply list_fmap_ext. intros _ m _. apply Hf.
Qed.

Lemma NoDup_fmap_filter {A B} (f : A → B) (P : A → Prop) `{!∀ x, Decision (P x)}
    (l : list A) :
  NoDup (f <$> l) → NoDup (f <$> filter P l).
Proof.
  intros Hnd. eapply sublist_NoDup; [exact Hnd|].
  apply fmap_sublist, sublist_filter.
Qed.

Lemma Forall_filter_keep {A} (Q P : A → Prop) `{!∀ x, Decision (P x)} (l : list A) :
  Forall Q l → Forall Q (filter P l).
Proof.
  rewrite !Forall_forall. intros Hall x Hx.
  apply list_elem_of_filter in Hx as [_ Hx]. by apply Hall.
Qed.

Lemma filter_ne_fresh ms (i : string) :
  i ∉ Marker.id <$> ms → filter (λ m, Marker.id m ≠ i) ms = ms.
Proof.
  intros Hi. induction ms as [|m ms IH]; [done|].
  rewrite fmap_cons, not_elem_of_cons in Hi. destruct Hi as [Hne Hi].
  rewrite filter_cons_True by done. by rewrite IH.
Qed.

Lemma filter_nothing {A} (P : A → Prop) `{!∀ x, Decision (P x)} (l : list A) :
  (∀ x, x ∈ l → ¬ P x) → filter P l = [].
Proof.
  intros Hno. induction l as [|x l IH]; [done|].
  rewrite filter_cons_False by (apply Hno; left). apply IH.
  intros y Hy. apply Hno. by right.
Qed.

Lemma filter_True_id {A} (l : list A) : filter (λ _, True) l = l.
Proof. induction l as [|x l IH]; [done|]. by rewrite filter_cons_True, IH. Qed.

Lemma is_Some_findMarker_fmap (f : Marker.t → Marker.t) ms i :
  (∀ m, Marker.id (f m) = Marker.id m) →
  is_Some (findMarker (f <$> ms) i) ↔ is_Some (findMarker ms i).
Proof. intros Hf. rewrite findMarker_fmap by done. apply fmap_is_Some. Qed.

End more_basics.

(** ** Nudging a marker *)

(** X1.  [nudgeMarker id deltaMs maxMs], with [0 ≤ maxMs], changes
    nothing but the time of the markers with that id, and leaves that time
    within [0, maxMs]: it is moved by [deltaMs] when the result is in
    range, and put at the bound it would cross otherwise (with [maxMs = 0],
    the duration of a video that is not loaded yet, every nudge puts the
    marker at 0).  Spans are as they were.  The selected and the pending
    reference are as they were too, except that one that named no marker
    is cleared by the clean-up that follows the [set]. *)
Theorem nudgeMarker_within_bounds (st : Store) (id : string) (deltaMs maxMs : Z) :
  0 ≤ maxMs →
  let st' := nudgeMarker id deltaMs maxMs st in
  Forall2 (λ m m',
      if decide (Marker.id m = id) then
        m' = Marker.with_time (Marker.time m') m ∧
        0 ≤ Marker.time m' ≤ maxMs ∧
        (0 ≤ Marker.time m + deltaMs ≤ maxMs → Marker.time m' = Marker.time m + deltaMs) ∧
        (Marker.time m + deltaMs < 0 → Marker.time m' = 0) ∧
        (maxMs < Marker.time m + deltaMs → Marker.time m' = maxMs)
      else m' = m)
    (markers (get st)) (markers (get st')) ∧
  spans (get st') = spans (get st) ∧
  selectedMarkerId (get st') = selectedMarkerId (cleanOrphans (get st)) ∧
  pendingMarkerId (get st') = pendingMarkerId (cleanOrphans (get st)) ∧
  (RefsResolve (get st) →
   selectedMarkerId (get st') = selectedMarkerId (get st) ∧
   pendingMarkerId (get st') = pendingMarkerId (get st)).
Proof.
  intros Hmax st'. unfold st', nudgeMarker.
  rewrite get_set_clean, cleanOrphans_mapMarkers by (intros m; by case_bool_decide).
  cbn [mapMarkers markers spans selectedMarkerId pendingMarkerId].
  split_and!; [|done..|].
  - change (markers (cleanOrphans (get st))) with (markers (get st)).
    apply Forall2_fmap_r, Forall_Forall2_diag, Forall_forall. intros m _.
    unfold compose.
    destruct (decide (Marker.id m = id)) as [Heq|Hne].
    + rewrite bool_decide_eq_true_2 by done.
      destruct m; cbn. unfold clamp. split_and!; [done|lia..].
    + by rewrite bool_decide_eq_false_2.
  - intros Hrefs. by rewrite cleanOrphans_resolved.
Qed.

Lemma nudgeMarker_within_bounds_witness :
  0 ≤ 2000 ∧
  let st' := nudgeMarker "b1" 10 2000 mergeStore in
  Forall2 (λ m m',
      if decide (Marker.id m = "b1") then
        m' = Marker.with_time (Marker.time m') m ∧
        0 ≤ Marker.time m' ≤ 2000 ∧
        (0 ≤ Marker.time m + 10 ≤ 2000 → Marker.time m' = Marker.time m + 10) ∧
        (Marker.time m + 10 < 0 → Marker.time m' = 0) ∧
        (2000 < Marker.time m + 10 → Marker.time m' = 2000)
      else m' = m)
    (markers (get mergeStore)) (markers (get st')) ∧
  spans (get st') = spans (get mergeStore) ∧
  selectedMarkerId (get st') = selectedMarkerId (cleanOrphans (get mergeStore)) ∧
  pendingMarkerId (get st') = pendingMarkerId (cleanOrphans (get mergeStore)) ∧
  (RefsResolve (get mergeStore) →
   selectedMarkerId (get st') = selectedMarkerId (get mergeStore) ∧
   pendingMarkerId (get st') = pendingMarkerId (get mergeStore)).
Proof.
  split; [lia|]. apply (nudgeMarker_within_bounds mergeStore "b1" 10 2000). lia.
Defined.

(** X2.  A nudge that stays in range is undone by the opposite nudge:
    when every marker with the id has its time, and its time plus
    [deltaMs], within [0, maxMs], nudging by [deltaMs] and then by
    [- deltaMs] gives back the markers, the spans and the span selection;
    when the selected and the pending reference each named a marker (or
    were null), it gives back the whole state of the store.  A reference
    that named no marker has been cleared. *)
Theorem nudgeMarker_back (st : Store) (id : string) (deltaMs maxMs : Z) :
  Forall (λ m, Marker.id m = id → 0 ≤ Marker.time m ≤ maxMs ∧
                                  0 ≤ Marker.time m + deltaMs ≤ maxMs)
    (markers (get st)) →
  let st' := nudgeMarker id (- deltaMs) maxMs (nudgeMarker id deltaMs maxMs st) in
  get st' = cleanOrphans (get st) ∧
  (RefsResolve (get st) → get st' = get st).
Proof.
  intros Hin st'.
  assert (get st' = cleanOrphans (get st)) as Hst'.
  { unfold st', nudgeMarker.
    rewrite !get_set_clean, !cleanOrphans_mapMarkers by (intros m; by case_bool_decide).
    rewrite cleanOrphans_idemp.
    change (markers (get st)) with (markers (cleanOrphans (get st))) in Hin.
    destruct (cleanOrphans (get st)) as [ms sps a b c d].
    unfold mapMarkers. cbn [markers spans selectedMarkerId pendingMarkerId selectedSpanId
      editingSpanId] in *. f_equal.
    rewrite <- list_fmap_compose. rewrite <- (list_fmap_id ms) at 2.
    apply Forall_fmap_ext_1. eapply Forall_impl; [exact Hin|].
    intros m Hm. unfold compose. destruct (decide (Marker.id m = id)) as [Heq|Hne].
    - specialize (Hm Heq).
      rewrite (bool_decide_eq_true_2 _ Heq). cbn. rewrite (bool_decide_eq_true_2 _ Heq).
      destruct m; unfold Marker.with_time; cbn in *. f_equal. unfold clamp. lia.
    - by rewrite !(bool_decide_eq_false_2 _ Hne). }
  split; [exact Hst'|]. intros Hrefs. by rewrite Hst', cleanOrphans_resolved.
Qed.

Lemma nudgeMarker_back_witness :
  Forall (λ m, Marker.id m = "a1" → 0 ≤ Marker.time m ≤ 2000 ∧
                                    0 ≤ Marker.time m + 10 ≤ 2000)
    (markers (get mergeStore)) ∧
  RefsResolve (get mergeStore) ∧
  get (nudgeMarker "a1" (- 10) 2000 (nudgeMarker "a1" 10 2000 mergeStore)) = get mergeStore.
Proof.
  assert (Forall (λ m, Marker.id m = "a1" → 0 ≤ Marker.time m ≤ 2000 ∧
                                            0 ≤ Marker.time m + 10 ≤ 2000)
            (markers (get mergeStore))) as H
    by (apply (bool_decide_unpack _); vm_compute; exact I).
  assert (RefsResolve (get mergeStore)) as H2
    by (apply (bool_decide_unpack _); vm_compute; exact I).
  split; [exact H|]. split; [exact H2|].
  exact (proj2 (nudgeMarker_back mergeStore "a1" 10 2000 H) H2).
Defined.

(** ** Placing and cancelling *)

(** X3.  [placeMarker] followed by [cancelPendingMarker] gives back
    the markers and the spans, when the id drawn for the marker is not in
    use.  The selected marker is not restored: no marker is selected
    afterwards, and none is pending (a marker that was pending before is
    still in the list, unconfirmed). *)
Theorem placeMarker_cancelPendingMarker (st : Store) (uuid : string) (time : Z)
    (tierId videoId : string) :
  generateId "m" uuid ∉ Marker.id <$> markers (get st) →
  let st' := cancelPendingMarker (placeMarker uuid time tierId videoId st).2 in
  markers (get st') = markers (get st) ∧
  spans (get st') = spans (get st) ∧
  pendingMarkerId (get st') = None ∧
  selectedMarkerId (get st') = None ∧
  selectedSpanId (get st') = selectedSpanId (get st) ∧
  editingSpanId (get st') = editingSpanId (get st).
Proof.
  intros Hfresh st'. unfold st', cancelPendingMarker, placeMarker.
  cbn [snd].
  set (marker := Marker.mk (generateId "m" uuid) time EmptyString tierId videoId false None).
  set (st1 := set _ st).
  assert (get st1 = mkState (markers (get st) ++ [marker]) (spans (get st))
                      (Some (generateId "m" uuid)) (Some (generateId "m" uuid))
                      (selectedSpanId (get st)) (editingSpanId (get st))) as H1.
  { unfold st1. rewrite get_set_resolved; [done|].
    assert (is_Some (findMarker (markers (get st) ++ [marker]) (generateId "m" uuid)))
      as Hplaced; [|by split].
    apply findMarker_is_Some. rewrite fmap_app. apply elem_of_app. right. by left. }
  rewrite H1. cbn [pendingMarkerId]. rewrite truthy_generateId_m.
  rewrite get_set_resolved; rewrite H1;
    cbn [markers spans pendingMarkerId selectedMarkerId selectedSpanId editingSpanId];
    rewrite bool_decide_eq_true_2 by done; [|by split].
  split_and!; try done.
  rewrite filter_app, filter_ne_fresh by done.
  rewrite filter_cons_False, filter_nil, app_nil_r; [done|].
  cbn. intros Hne. by apply Hne.
Qed.

Lemma placeMarker_cancelPendingMarker_witness :
  (generateId "m" "u9" ∉ Marker.id <$> markers (get overlapStore)) ∧
  let st' := cancelPendingMarker (placeMarker "u9" 700 "t1" "v1" overlapStore).2 in
  markers (get st') = markers (get overlapStore) ∧
  spans (get st') = spans (get overlapStore) ∧
  pendingMarkerId (get st') = None ∧
  selectedMarkerId (get st') = None ∧
  selectedSpanId (get st') = selectedSpanId (get overlapStore) ∧
  editingSpanId (get st') = editingSpanId (get overlapStore).
Proof.
  assert (generateId "m" "u9" ∉ Marker.id <$> markers (get overlapStore)) as H
    by (apply (bool_decide_unpack _); vm_compute; exact I).
  split; [exact H | exact (placeMarker_cancelPendingMarker overlapStore "u9" 700 "t1" "v1" H)].
Defined.

(** ** Spans keep their anchors *)

Section keep_anchors.
Implicit Types (st : Store) (s : AnnotationState) (ms : list Marker.t) (sps : list Span.t).

Lemma NoDangling_mapMarkers (f : Marker.t → Marker.t) s :
  (∀ m, Marker.id (f m) = Marker.id m) →
  NoDangling s → NoDangling (mapMarkers f s).
Proof.
  intros Hf. unfold NoDangling, mapMarkers. cbn [markers spans].
  intros Hinv. eapply Forall_impl; [exact Hinv|].
  intros sp. by rewrite !is_Some_findMarker_fmap.
Qed.

Lemma NoDangling_confirmMarker markerId typeId st :
  NoDangling (get st) → NoDangling (get (confirmMarker markerId typeId st)).
Proof.
  intros Hinv. unfold confirmMarker. cbv zeta.
  destruct (findMarker (markers (get st)) markerId) as [marker|]; [|done].
  rewrite get_set. unfold NoDangling in *. cbn [markers spans].
  eapply Forall_impl; [exact Hinv|]. intros sp.
  rewrite !is_Some_findMarker_fmap; [done|..];
    intros m; by repeat case_match.
Qed.

Lemma NoDangling_placeMarker uuid time tierId videoId st :
  NoDangling (get st) → NoDangling (get (placeMarker uuid time tierId videoId st).2).
Proof.
  unfold NoDangling, placeMarker. cbn [snd]. rewrite get_set. cbn [markers spans].
  intros Hinv. eapply Forall_impl; [exact Hinv|]. intros sp [[x Hx] [y Hy]].
  rewrite !findMarker_app, Hx, Hy. eauto.
Qed.

Lemma NoDangling_addSpan uuid span st :
  NoDangling (get st) → NoDangling (get (addSpan uuid span st)).
Proof.
  intros Hinv. destruct (addSpan_cases st uuid span) as [->|(a & Ha & _ & ->)]; [done|].
  unfold NoDangling in *. rewrite get_set. cbn [mapSpans markers spans].
  apply Forall_app. split; [done|]. apply Forall_singleton.
  unfold newInterval in Ha. cbn [NewSpan.with_id Span.startMarkerId Span.endMarkerId].
  destruct (findMarker _ (NewSpan.startMarkerId span)),
           (findMarker _ (NewSpan.endMarkerId span)); try done; eauto.
Qed.

Lemma NoDangling_removeSpan id st :
  NoDangling (get st) → NoDangling (get (removeSpan id st)).
Proof.
  unfold NoDangling, removeSpan. rewrite get_set. cbn [mapSpans markers spans].
  apply Forall_filter_keep.
Qed.

Lemma NoDangling_updateSpanGloss id gloss st :
  NoDangling (get st) → NoDangling (get (updateSpanGloss id gloss st)).
Proof.
  unfold NoDangling, updateSpanGloss. rewrite get_set. cbn [mapSpans markers spans].
  intros Hinv. apply Forall_fmap. eapply Forall_impl; [exact Hinv|].
  intros sp Hsp. unfold compose. by case_bool_decide.
Qed.

Lemma NoDangling_perform a st :
  keepsAnchors a = true → NoDangling (get st) → NoDangling (get (perform a st)).
Proof.
  intros Ha Hinv. destruct a; try discriminate Ha; cbn [perform].
  - by apply NoDangling_placeMarker.
  - by apply NoDangling_confirmMarker.
  - by apply removeMarker_cascades.
  - unfold nudgeMarker. rewrite get_set. apply NoDangling_mapMarkers; [|done].
    intros m. by case_bool_decide.
  - unfold updateMarkerTime. rewrite get_set. apply NoDangling_mapMarkers; [|done].
    intros m. by case_bool_decide.
  - unfold updateMarkerTier. rewrite get_set. apply NoDangling_mapMarkers; [|done].
    intros m. by case_bool_decide.
  - unfold reclassifyMarker. rewrite get_set. apply NoDangling_mapMarkers; [|done].
    intros m. by destruct (_ && _).
  - unfold updateMarkerValue. rewrite get_set. apply NoDangling_mapMarkers; [|done].
    intros m. by case_bool_decide.
  - by apply NoDangling_addSpan.
  - by apply NoDangling_removeSpan.
  - by apply NoDangling_updateSpanGloss.
Qed.

End keep_anchors.

(** X4.  In a store where every span has its two anchor markers,
    every span still has them after any sequence of [placeMarker],
    [confirmMarker], [removeMarker], [nudgeMarker], [updateMarkerTime],
    [updateMarkerTier], [reclassifyMarker], [updateMarkerValue], [addSpan],
    [removeSpan] and [updateSpanGloss] calls: [removeMarker] takes the
    spans anchored at the marker with it, and [addSpan] takes no span
    whose anchor is missing. *)
Theorem anchors_kept (acts : list Action) (st : Store) :
  Forall (λ a, keepsAnchors a = true) acts →
  NoDangling (get st) →
  NoDangling (get (performAll acts st)).
Proof.
  revert st. induction acts as [|a acts IH]; intros st Hacts Hinv; [done|].
  apply Forall_cons in Hacts as [Ha Hacts]. cbn. apply IH; [done|].
  by apply NoDangling_perform.
Qed.

Lemma anchors_kept_witness :
  Forall (λ a, keepsAnchors a = true) editSession ∧
  NoDangling (get initialStore) ∧
  NoDangling (get (performAll editSession initialStore)).
Proof.
  assert (Forall (λ a, keepsAnchors a = true) editSession) as H1
    by (apply (bool_decide_unpack _); vm_compute; exact I).
  assert (NoDangling (get initialStore)) as H2
    by (apply (bool_decide_unpack _); vm_compute; exact I).
  split_and!; [exact H1 | exact H2 | exact (anchors_kept editSession initialStore H1 H2)].
Defined.

(** ** Ids stay unique *)

Section unique_ids.
Implicit Types (st : Store) (s : AnnotationState) (ms : list Marker.t) (sps : list Span.t).

Lemma UniqueMarkerIds_mapMarkers (f : Marker.t → Marker.t) s :
  (∀ m, Marker.id (f m) = Marker.id m) →
  UniqueMarkerIds s → UniqueMarkerIds (mapMarkers f s).
Proof.
  intros Hf. unfold UniqueMarkerIds, mapMarkers. cbn [markers].
  by rewrite fmap_id_preserving.
Qed.

Lemma UniqueMarkerIds_perform a st :
  freshIds st a → UniqueMarkerIds (get st) → UniqueMarkerIds (get (perform a st)).
Proof.
  intros Hfresh Hinv. destruct a; cbn [perform freshIds] in *.
  - unfold placeMarker, UniqueMarkerIds. cbn [snd]. rewrite get_set. cbn [markers].
    rewrite fmap_app. apply NoDup_app. split_and!; [done | | apply NoDup_singleton].
    intros i Hi Hi'. apply list_elem_of_singleton in Hi'. cbn in Hi'. by subst i.
  - unfold confirmMarker. cbv zeta.
    destruct (findMarker (markers (get st)) markerId) as [marker|]; [|done].
    rewrite get_set. unfold UniqueMarkerIds. cbn [markers].
    rewrite fmap_id_preserving; [done|]. intros m. by repeat case_match.
  - unfold cancelPendingMarker. destruct (pendingMarkerId (get st)) as [p|]; [|done].
    destruct (truthy p); [|done]. rewrite get_set. unfold UniqueMarkerIds. cbn [markers].
    by apply NoDup_fmap_filter.
  - unfold removeMarker. rewrite get_set. unfold UniqueMarkerIds. cbn [markers].
    by apply NoDup_fmap_filter.
  - unfold nudgeMarker. rewrite get_set_clean. apply UniqueMarkerIds_mapMarkers; [|done].
    intros m. by case_bool_decide.
  - unfold updateMarkerTime. rewrite get_set_clean. apply UniqueMarkerIds_mapMarkers; [|done].
    intros m. by case_bool_decide.
  - unfold updateMarkerTier. rewrite get_set_clean. apply UniqueMarkerIds_mapMarkers; [|done].
    intros m. by case_bool_decide.
  - unfold reclassifyMarker. rewrite get_set_clean. apply UniqueMarkerIds_mapMarkers; [|done].
    intros m. by destruct (_ && _).
  - unfold updateMarkerValue. rewrite get_set_clean. apply UniqueMarkerIds_mapMarkers; [|done].
    intros m. by case_bool_decide.
  - destruct (addSpan_cases st uuid span) as [->|(a & _ & _ & ->)]; [done|].
    by rewrite get_set.
  - unfold removeSpan. by rewrite get_set.
  - unfold updateSpanGloss. by rewrite get_set.
  - destruct (mergeSpans_cases st keepSpanId removeSpanId)
      as [->|(keep & remove & ks & ke & rs & re & _ & _ & _ & _ & _ & _ & _ & ->)];
      [done|].
    cbn [snd]. rewrite get_set. unfold UniqueMarkerIds, mergeCommit. cbv zeta.
    cbn [markers]. by apply NoDup_fmap_filter.
  - unfold UniqueMarkerIds. rewrite clear_markers.
    rewrite fmap_id_preserving; [by apply NoDup_fmap_filter|].
    intros m. by case_match.
  - unfold setMarkers. by rewrite get_set.
  - unfold setSpans. by rewrite get_set.
  - unfold clearVideoAnnotations. rewrite get_set. unfold UniqueMarkerIds. cbn [markers].
    by apply NoDup_fmap_filter.
Qed.

Lemma UniqueSpanIds_perform a st :
  freshIds st a → UniqueSpanIds (get st) → UniqueSpanIds (get (perform a st)).
Proof.
  intros Hfresh Hinv. destruct a; cbn [perform freshIds] in *.
  - unfold placeMarker. cbn [snd]. by rewrite get_set.
  - unfold confirmMarker. cbv zeta.
    destruct (findMarker (markers (get st)) markerId) as [marker|]; [|done].
    by rewrite get_set.
  - unfold cancelPendingMarker. destruct (pendingMarkerId (get st)) as [p|]; [|done].
    destruct (truthy p); [|done]. by rewrite get_set.
  - unfold removeMarker. rewrite get_set. unfold UniqueSpanIds. cbn [spans].
    by apply NoDup_fmap_filter.
  - unfold nudgeMarker. by rewrite get_set.
  - unfold updateMarkerTime. by rewrite get_set.
  - unfold updateMarkerTier. by rewrite get_set.
  - unfold reclassifyMarker. by rewrite get_set.
  - unfold updateMarkerValue. by rewrite get_set.
  - by apply UniqueSpanIds_addSpan.
  - unfold removeSpan. rewrite get_set. unfold UniqueSpanIds. cbn [mapSpans spans].
    by apply NoDup_fmap_filter.
  - unfold updateSpanGloss. rewrite get_set. unfold UniqueSpanIds. cbn [mapSpans spans].
    rewrite fmap_span_id_preserving; [done|]. intros sp. by case_bool_decide.
  - by apply UniqueSpanIds_mergeSpans.
  - by apply UniqueSpanIds_clearOverlappingSpans.
  - unfold setMarkers. by rewrite get_set.
  - unfold setSpans. by rewrite get_set.
  - unfold clearVideoAnnotations. rewrite get_set. unfold UniqueSpanIds. cbn [spans].
    by apply NoDup_fmap_filter.
Qed.

End unique_ids.

(** X5.  No operation of the store makes two markers, or two spans,
    share an id: in a store where marker ids and span ids are unique they
    are still unique after any sequence of operations, as long as the ids
    drawn by [placeMarker] and [addSpan] are not in use when they are
    drawn and the lists handed to [setMarkers] and [setSpans] have unique
    ids themselves. *)
Theorem ids_stay_unique (acts : list Action) (st : Store) :
  FreshIds st acts →
  UniqueMarkerIds (get st) → UniqueSpanIds (get st) →
  UniqueMarkerIds (get (performAll acts st)) ∧ UniqueSpanIds (get (performAll acts st)).
Proof.
  revert st. induction acts as [|a acts IH]; intros st Hfresh Hm Hs; [done|].
  destruct Hfresh as [Ha Hrest]. cbn. apply IH; [done| |].
  - by apply UniqueMarkerIds_perform.
  - by apply UniqueSpanIds_perform.
Qed.

Lemma ids_stay_unique_witness :
  FreshIds initialStore editSession ∧
  UniqueMarkerIds (get initialStore) ∧ UniqueSpanIds (get initialStore) ∧
  UniqueMarkerIds (get (performAll editSession initialStore)) ∧
  UniqueSpanIds (get (performAll editSession initialStore)).
Proof.
  assert (FreshIds initialStore editSession) as H1
    by (apply (bool_decide_unpack _); vm_compute; exact I).
  assert (UniqueMarkerIds (get initialStore)) as H2
    by (apply (bool_decide_unpack _); vm_compute; exact I).
  assert (UniqueSpanIds (get initialStore)) as H3
    by (apply (bool_decide_unpack _); vm_compute; exact I).
  split_and!; [exact H1 | exact H2 | exact H3
              | exact (proj1 (ids_stay_unique editSession initialStore H1 H2 H3))
              | exact (proj2 (ids_stay_unique editSession initialStore H1 H2 H3))].
Defined.

(** ** Edits that move no marker *)

Section quiet.
Implicit Types (st : Store) (s : AnnotationState) (ms : list Marker.t) (sps : list Span.t).

Lemma interval_noNewTimes ms ms' sp c :
  noNewTimes (anchors sp) ms ms' →
  interval ms' sp = Some c → interval ms sp = Some c.
Proof.
  intros Hno. rewrite !interval_Some. intros (sM & eM & Hs & He & ->).
  apply Hno in Hs as (sM0 & -> & <-); [|apply elem_of_anchors; by left].
  apply Hno in He as (eM0 & -> & <-); [|apply elem_of_anchors; by right].
  eauto.
Qed.

Lemma NoOverlap_refine s s' (g : Span.t → Span.t) (P : Span.t → Prop)
    `{!∀ x, Decision (P x)} :
  (∀ sp, sp ∈ spans s → noNewTimes (anchors sp) (markers s) (markers s')) →
  (∀ sp, Span.startMarkerId (g sp) = Span.startMarkerId sp ∧
         Span.endMarkerId (g sp) = Span.endMarkerId sp ∧
         Span.tierId (g sp) = Span.tierId sp ∧ Span.videoId (g sp) = Span.videoId sp) →
  spans s' = g <$> filter P (spans s) →
  NoOverlap s → NoOverlap s'.
Proof.
  intros Hno Hg Hsp Hinv. unfold NoOverlap. rewrite Hsp.
  apply pairwise_fmap. eapply pairwise_filter_impl; [exact Hinv|].
  intros x y Hx Hy _ _ Hc Ht Hv.
  destruct (Hg x) as (Hxs & Hxe & Hxt & Hxv), (Hg y) as (Hys & Hye & Hyt & Hyv).
  assert (∀ z, interval (markers s') (g z) = interval (markers s') z) as Hint.
  { intros z. unfold interval. destruct (Hg z) as (-> & -> & _). done. }
  rewrite !Hint.
  destruct (interval (markers s') x) as [a|] eqn:Ea; [|done].
  destruct (interval (markers s') y) as [b|] eqn:Eb; [|done].
  apply (interval_noNewTimes (markers s)) in Ea; [|by apply Hno].
  apply (interval_noNewTimes (markers s)) in Eb; [|by apply Hno].
  unfold compatible in Hc. rewrite Ea, Eb in Hc. apply Hc; congruence.
Qed.

Lemma NoOverlap_sub s s' (P : Span.t → Prop) `{!∀ x, Decision (P x)} :
  (∀ sp, sp ∈ spans s → noNewTimes (anchors sp) (markers s) (markers s')) →
  spans s' = filter P (spans s) →
  NoOverlap s → NoOverlap s'.
Proof.
  intros Hno Hsp. apply (NoOverlap_refine s s' (λ sp, sp) P); [done|done|].
  rewrite Hsp. symmetry. apply list_fmap_id.
Qed.

Lemma noNewTimes_fmap (f : Marker.t → Marker.t) X ms :
  (∀ m, Marker.id (f m) = Marker.id m ∧ Marker.time (f m) = Marker.time m) →
  noNewTimes X ms (f <$> ms).
Proof.
  intros Hf i m' _. rewrite findMarker_fmap by (intros m; apply Hf).
  destruct (findMarker ms i) as [m|]; [|done]. intros [= <-].
  exists m. split; [done|]. symmetry. apply Hf.
Qed.

Lemma noNewTimes_filter_ne X ms j :
  noNewTimes X ms (filter (λ m, Marker.id m ≠ j) ms).
Proof.
  intros i m' _. rewrite findMarker_filter_ne. destruct (decide (i = j)); [done|]. eauto.
Qed.

Lemma NoOverlap_mapMarkers (f : Marker.t → Marker.t) s :
  (∀ m, Marker.id (f m) = Marker.id m ∧ Marker.time (f m) = Marker.time m) →
  NoOverlap s → NoOverlap (mapMarkers f s).
Proof.
  intros Hf. apply (NoOverlap_sub s _ (λ _, True)).
  - intros sp _. by apply noNewTimes_fmap.
  - cbn. by rewrite filter_True_id.
Qed.

Lemma NoOverlap_quiet a st :
  quietOp st a → NoOverlap (get st) → NoOverlap (get (perform a st)).
Proof.
  intros Hq Hinv. destruct a; cbn [perform quietOp] in *; try done.
  - unfold placeMarker. cbn [snd]. rewrite get_set.
    apply (NoOverlap_sub (get st) _ (λ _, True)); [| |done].
    + intros sp Hsp i m' Hi. cbn [markers]. rewrite findMarker_app.
      destruct (findMarker (markers (get st)) i) as [m|]; [intros [= <-]; eauto|].
      rewrite Forall_forall in Hq. specialize (Hq sp Hsp).
      unfold findMarker. cbn [List.find Marker.id].
      case_bool_decide as Heq; [|done]. exfalso. apply Hq. by rewrite Heq.
    + cbn. by rewrite filter_True_id.
  - unfold cancelPendingMarker. destruct (pendingMarkerId (get st)) as [p|]; [|done].
    destruct (truthy p); [|done]. rewrite get_set.
    apply (NoOverlap_sub (get st) _ (λ _, True)); [| |done].
    + intros sp _. apply noNewTimes_filter_ne.
    + cbn. by rewrite filter_True_id.
  - unfold removeMarker. rewrite get_set.
    apply (NoOverlap_sub (get st) _
             (λ sp, Span.startMarkerId sp ≠ id ∧ Span.endMarkerId sp ≠ id));
      [| |done].
    + intros sp _. apply noNewTimes_filter_ne.
    + done.
  - unfold updateMarkerTier. rewrite get_set. apply NoOverlap_mapMarkers; [|done].
    intros m. by case_bool_decide.
  - unfold reclassifyMarker. rewrite get_set. apply NoOverlap_mapMarkers; [|done].
    intros m. by destruct (_ && _).
  - unfold updateMarkerValue. rewrite get_set. apply NoOverlap_mapMarkers; [|done].
    intros m. by case_bool_decide.
  - by apply NoOverlap_addSpan.
  - unfold removeSpan. rewrite get_set.
    apply (NoOverlap_sub (get st) _ (λ sp, Span.id sp ≠ id)); [| |done].
    + intros sp _ i m' _ Hm. eauto.
    + done.
  - unfold updateSpanGloss. rewrite get_set.
    apply (NoOverlap_refine (get st) _
             (λ sp, if bool_decide (Span.id sp = id) then Span.with_gloss gloss sp else sp)
             (λ _, True)); [| | |done].
    + intros sp _ i m' _ Hm. eauto.
    + intros sp. by case_bool_decide.
    + cbn. by rewrite filter_True_id.
Qed.

End quiet.


(** X6.  The operations that move no marker keep the no-overlap
    invariant: [placeMarker] (when the id drawn is not an anchor of a span
    of the store), [cancelPendingMarker], [removeMarker],
    [updateMarkerTier], [reclassifyMarker], [updateMarkerValue], [addSpan],
    [removeSpan] and [updateSpanGloss].  After any sequence of them, two
    spans of one tier and video whose four anchors exist still have
    intervals that do not intersect. *)
Theorem quiet_edits_keep_no_overlap (acts : list Action) (st : Store) :
  Quiet st acts → NoOverlap (get st) → NoOverlap (get (performAll acts st)).
Proof.
  revert st. induction acts as [|a acts IH]; intros st Hq Hinv; [done|].
  destruct Hq as [Ha Hrest]. cbn. apply IH; [done|].
  by apply NoOverlap_quiet.
Qed.

Lemma quiet_edits_keep_no_overlap_witness :
  Quiet mergeStore quietSession ∧ NoOverlap (get mergeStore) ∧
  NoOverlap (get (performAll quietSession mergeStore)).
Proof.
  assert (Quiet mergeStore quietSession) as H1
    by (apply (bool_decide_unpack _); vm_compute; exact I).
  assert (NoOverlap (get mergeStore)) as H2
    by (apply (bool_decide_unpack _); vm_compute; exact I).
  split_and!; [exact H1 | exact H2
              | exact (quiet_edits_keep_no_overlap quietSession mergeStore H1 H2)].
Defined.

(** ** Clearing a video *)

Lemma orphaned_cleared (s : AnnotationState) (ref : option string) :
  (if orphaned s ref then None else ref) = cleared (markers s) ref.
Proof.
  destruct ref as [i|]; [|done]. unfold orphaned, cleared. cbv zeta.
  assert (i ∉ (list_to_set (Marker.id <$> markers s) : gset string)
          ↔ findMarker (markers s) i = None) as Hiff.
  { rewrite elem_of_list_to_set, <- findMarker_is_Some, <- eq_None_not_Some. done. }
  destruct (truthy i); cbn.
  - case_bool_decide as Hb.
    + apply Hiff in Hb. by rewrite decide_True.
    + rewrite decide_False; [done|]. intros [_ Hn]. by apply Hiff in Hn.
  - rewrite decide_False; [done|]. by intros [? _].
Qed.

Lemma cleared_named ms ref i :
  cleared ms ref = Some i → truthy i = true → is_Some (findMarker ms i).
Proof.
  destruct ref as [j|]; [|done]. cbn. case_decide as Hd; [done|]. intros [= ->] Ht.
  apply not_eq_None_Some. intros Hn. by apply Hd.
Qed.

(** X7.  After [clearVideoAnnotations videoId] the queries
    [getVideoMarkers], [getVideoSpans] and [getTierMarkers] return nothing
    for that video and what they returned before for every other video.
    The selected and the pending marker reference are cleared when they
    name a marker that is gone (by the clean-up that follows the [set]) and
    kept otherwise; the selected and the editing span reference are not
    touched, also when the span is gone. *)
Theorem clearVideoAnnotations_queries (st : Store) (videoId : string) :
  let st' := clearVideoAnnotations videoId st in
  getVideoMarkers videoId st' = [] ∧
  getVideoSpans videoId st' = [] ∧
  (∀ tierId, getTierMarkers tierId videoId st' = []) ∧
  (∀ other, other ≠ videoId →
     getVideoMarkers other st' = getVideoMarkers other st ∧
     getVideoSpans other st' = getVideoSpans other st ∧
     ∀ tierId, getTierMarkers tierId other st' = getTierMarkers tierId other st) ∧
  selectedMarkerId (get st') = cleared (markers (get st')) (selectedMarkerId (get st)) ∧
  pendingMarkerId (get st') = cleared (markers (get st')) (pendingMarkerId (get st)) ∧
  selectedSpanId (get st') = selectedSpanId (get st) ∧
  editingSpanId (get st') = editingSpanId (get st).
Proof.
  intros st'. unfold st', clearVideoAnnotations, getVideoMarkers, getVideoSpans,
    getTierMarkers. rewrite get_set. cbn [markers spans selectedMarkerId pendingMarkerId
    selectedSpanId editingSpanId].
  rewrite !orphaned_cleared. cbn [markers].
  split_and!; try done.
  - apply filter_nothing. intros m Hm. by apply list_elem_of_filter in Hm as [Hm _].
  - apply filter_nothing. intros m Hm. by apply list_elem_of_filter in Hm as [Hm _].
  - intros tierId. apply filter_nothing. intros m Hm.
    apply list_elem_of_filter in Hm as [Hm _]. by intros [_ ?].
  - intros other Hother. split_and!.
    + apply list_filter_filter_l. congruence.
    + apply list_filter_filter_l. congruence.
    + intros tierId. apply list_filter_filter_l. intros m [_ ?]. congruence.
Qed.


(** ** The clean-up after a set *)

(** X8.  The clean-up of the [handleSet] option runs after every
    [set]: after any operation that changes the store, a selected or
    pending marker reference that is a non-empty id names a marker of the
    list, whatever the two references were before the operation (an
    [undo], which does not run the clean-up, can leave them at a marker
    that is gone). *)
Theorem set_clears_orphans (a : Action) (st : Store) :
  perform a st ≠ st →
  let s' := get (perform a st) in
  (∀ i, selectedMarkerId s' = Some i → truthy i = true →
        is_Some (findMarker (markers s') i)) ∧
  (∀ i, pendingMarkerId s' = Some i → truthy i = true →
        is_Some (findMarker (markers s') i)).
Proof.
  intros Hchange s'. destruct (perform_cases a st) as [Hsame|[f Hset]]; [done|].
  unfold s'. rewrite Hset, get_set.
  cbn [markers selectedMarkerId pendingMarkerId]. rewrite !orphaned_cleared.
  split; intros i; apply cleared_named.
Qed.

Lemma set_clears_orphans_witness :
  let a := UpdateSpanGloss "sp_u3" "HELLO" in
  perform a undoneStore ≠ undoneStore ∧
  markers (get undoneStore) = [] ∧
  selectedMarkerId (get undoneStore) = Some "m_u1" ∧
  pendingMarkerId (get undoneStore) = Some "m_u1" ∧
  selectedMarkerId (get (perform a undoneStore)) = None ∧
  pendingMarkerId (get (perform a undoneStore)) = None ∧
  (∀ i, selectedMarkerId (get (perform a undoneStore)) = Some i → truthy i = true →
        is_Some (findMarker (markers (get (perform a undoneStore))) i)).
Proof.
  intros a.
  assert (perform a undoneStore ≠ undoneStore) as H
    by (apply (bool_decide_unpack _); vm_compute; exact I).
  split_and!; [exact H | reflexivity.. | exact (proj1 (set_clears_orphans a undoneStore H))].
Defined.


(** ** Adding and removing a span *)

(** X9.  [addSpan] followed by [removeSpan] of the id drawn for
    the span gives back the markers, the spans and the span selection,
    whether the span was accepted or not, when that id was not in use;
    when the selected and the pending reference each named a marker (or
    were null), it gives back the whole state of the store.  A reference
    that named no marker has been cleared. *)
Theorem addSpan_removeSpan (st : Store) (uuid : string) (span : NewSpan.t) :
  generateId "sp" uuid ∉ Span.id <$> spans (get st) →
  let st' := removeSpan (generateId "sp" uuid) (addSpan uuid span st) in
  get st' = cleanOrphans (get st) ∧
  (RefsResolve (get st) → get st' = get st).
Proof.
  intros Hfresh st'.
  assert (filter (λ sp, Span.id sp ≠ generateId "sp" uuid) (spans (get st)) = spans (get st))
    as Hsame.
  { clear span st'. induction (spans (get st)) as [|x l IH]; [done|].
    rewrite fmap_cons, not_elem_of_cons in Hfresh. destruct Hfresh as [Hne Hl].
    rewrite filter_cons_True by done. by rewrite IH. }
  assert (get st' = cleanOrphans (get st)) as Hst'.
  { unfold st', removeSpan. rewrite get_set_clean, cleanOrphans_mapSpans.
    destruct (addSpan_cases st uuid span) as [->|(a & _ & _ & ->)].
    - unfold mapSpans. cbn [cleanOrphans markers spans selectedMarkerId pendingMarkerId
        selectedSpanId editingSpanId]. by rewrite Hsame.
    - rewrite get_set_clean, cleanOrphans_idemp, cleanOrphans_mapSpans.
      unfold mapSpans. cbn [cleanOrphans markers spans selectedMarkerId pendingMarkerId
        selectedSpanId editingSpanId].
      rewrite filter_app, Hsame, filter_cons_False, filter_nil, app_nil_r; [done|].
      cbn. intros Hne. by apply Hne. }
  split; [exact Hst'|]. intros Hrefs. by rewrite Hst', cleanOrphans_resolved.
Qed.

Lemma addSpan_removeSpan_witness :
  (generateId "sp" "u1" ∉ Span.id <$> spans (get holdStore)) ∧
  RefsResolve (get holdStore) ∧
  get (removeSpan (generateId "sp" "u1") (addSpan "u1" heldSpan holdStore)) = get holdStore.
Proof.
  assert (generateId "sp" "u1" ∉ Span.id <$> spans (get holdStore)) as H
    by (apply (bool_decide_unpack _); vm_compute; exact I).
  assert (RefsResolve (get holdStore)) as H2
    by (apply (bool_decide_unpack _); vm_compute; exact I).
  split; [exact H|]. split; [exact H2|].
  exact (proj2 (addSpan_removeSpan holdStore "u1" heldSpan H) H2).
Defined.

(** ** Spans of length zero *)

Lemma avoids_point ms tierId videoId t sp :
  avoids ms tierId videoId (t, t) sp ↔ ¬ coversStrictly ms tierId videoId t sp.
Proof.
  unfold avoids, coversStrictly, intersects. destruct (interval ms sp) as [c|]; cbn; [|tauto].
  split.
  - intros H [Ht Hc]. apply (H Ht). lia.
  - intros H Ht Hc. apply H. split; [done|lia].
Qed.


(** X10.  A span whose two anchors are one marker, at time [t], is
    refused by [addSpan] exactly when [t] lies strictly inside a span of
    its tier and video.  Otherwise it is accepted, also at the boundary of
    a span, and it is accepted again: spans of length zero never block one
    another. *)
Theorem addSpan_zero_length (st : Store) (uuid : string) (span : NewSpan.t) (m : Marker.t) :
  NewSpan.startMarkerId span = NewSpan.endMarkerId span →
  findMarker (markers (get st)) (NewSpan.startMarkerId span) = Some m →
  if decide (Exists (coversStrictly (markers (get st)) (NewSpan.tierId span)
                       (NewSpan.videoId span) (Marker.time m)) (spans (get st)))
  then addSpan uuid span st = st
  else ∀ uuid2,
    spans (get (addSpan uuid2 span (addSpan uuid span st)))
    = spans (get st) ++ [ NewSpan.with_id (generateId "sp" uuid) span;
                          NewSpan.with_id (generateId "sp" uuid2) span ].
Proof.
  intros Hsame Hm.
  assert (newInterval (markers (get st)) span = Some (Marker.time m, Marker.time m))
    as Hnew.
  { unfold newInterval. rewrite <- Hsame, Hm. f_equal. f_equal; lia. }
  case_decide as Hex.
  - apply addSpan_rejects. unfold IntersectsExisting. rewrite Hnew.
    eapply Exists_impl; [exact Hex|]. intros sp Hc Hav. by apply avoids_point in Hav.
  - intros uuid2.
    assert (Forall (avoids (markers (get st)) (NewSpan.tierId span) (NewSpan.videoId span)
                      (Marker.time m, Marker.time m)) (spans (get st))) as Hav.
    { apply Forall_forall. intros sp Hsp. apply avoids_point. intros Hc.
      apply Hex, Exists_exists. eauto. }
    rewrite (addSpan_accepts st uuid span _ Hnew Hav).
    rewrite (addSpan_accepts _ uuid2 span (Marker.time m, Marker.time m)).
    + rewrite !get_set. cbn [mapSpans spans]. by rewrite <- app_assoc.
    + rewrite get_set. exact Hnew.
    + rewrite get_set. cbn [mapSpans markers spans]. apply Forall_app. split; [done|].
      apply Forall_singleton. apply avoids_point. intros [_ Hc].
      assert (interval (markers (get st)) (NewSpan.with_id (generateId "sp" uuid) span)
              = Some (Marker.time m, Marker.time m)) as Hi by exact Hnew.
      rewrite Hi in Hc. cbn in Hc. lia.
Qed.


Lemma addSpan_zero_length_witness :
  let span := NewSpan.mk "b1" "b1" "t1" "v1" EmptyString in
  NewSpan.startMarkerId span = NewSpan.endMarkerId span ∧
  findMarker (markers (get mergeStore)) (NewSpan.startMarkerId span)
    = Some (mk_marker "b1" 2000 "t1") ∧
  ∀ uuid2,
    spans (get (addSpan uuid2 span (addSpan "u1" span mergeStore)))
    = spans (get mergeStore) ++ [ NewSpan.with_id (generateId "sp" "u1") span;
                                  NewSpan.with_id (generateId "sp" uuid2) span ].
Proof.
  cbv zeta. split; [reflexivity|]. split; [reflexivity|].
  exact (addSpan_zero_length mergeStore "u1" (NewSpan.mk "b1" "b1" "t1" "v1" EmptyString)
           (mk_marker "b1" 2000 "t1") eq_refl eq_refl).
Defined.

(** ** Nothing to clear *)

(** X11.  [clearOverlappingSpans] leaves the store as it is, history
    included, when no span of the tier and video with both anchors present
    has an interval that intersects the range; this holds for any range,
    also an empty or a reversed one. *)
Theorem clearOverlappingSpans_idle (st : Store) (startMs endMs : Z)
    (tierId videoId : string) :
  Forall (avoids (markers (get st)) tierId videoId (startMs, endMs)) (spans (get st)) →
  clearOverlappingSpans startMs endMs tierId videoId st = st.
Proof.
  intros Hav.
  assert (foldl (clearStep (get st) startMs endMs tierId videoId) noClearing (spans (get st))
          = noClearing) as Hloop.
  { generalize noClearing. induction Hav as [|sp l Hsp Hl IH]; intros acc; [done|].
    cbn [foldl]. rewrite clearStep_action.
    assert (clearAction (get st) startMs endMs tierId videoId sp = Skip) as ->; [|apply IH].
    unfold clearAction. case_decide as Ht; [|done].
    specialize (Hsp Ht). unfold interval in Hsp.
    destruct (findMarker _ (Span.startMarkerId sp)) as [sM|]; [|done].
    destruct (findMarker _ (Span.endMarkerId sp)) as [eM|]; [|done].
    cbv zeta. rewrite decide_True; [done|]. unfold intersects in Hsp. cbn in Hsp. lia. }
  unfold clearOverlappingSpans. cbv zeta. rewrite Hloop. done.
Qed.

Lemma clearOverlappingSpans_idle_witness :
  Forall (avoids (markers (get holdStore)) "t1" "v1" (3000, 4000)) (spans (get holdStore)) ∧
  clearOverlappingSpans 3000 4000 "t1" "v1" holdStore = holdStore.
Proof.
  assert (Forall (avoids (markers (get holdStore)) "t1" "v1" (3000, 4000))
            (spans (get holdStore))) as H
    by (apply (bool_decide_unpack _); vm_compute; exact I).
  split; [exact H | exact (clearOverlappingSpans_idle holdStore 3000 4000 "t1" "v1" H)].
Defined.

(** ** The Delete key on a selected span *)

(** X12.  With a span selected, Delete removes the span, its two
    anchor markers and every other span anchored at one of them; a store
    in which every span has its anchors stays so.  The span selection is
    not cleared: it still holds the id of the deleted span, and a second
    Delete does nothing. *)
Theorem deleteSelection_span (st : Store) (sid : string) (span : Span.t) :
  selectedSpanId (get st) = Some sid → truthy sid = true →
  findSpan (spans (get st)) sid = Some span →
  truthy (Span.startMarkerId span) = true →
  truthy (Span.endMarkerId span) = true →
  let st' := deleteSelection st in
  markers (get st') = filter (λ m, Marker.id m ∉ anchors span) (markers (get st)) ∧
  spans (get st')
    = filter (λ sp, Span.id sp ≠ sid ∧ anchors sp ## anchors span) (spans (get st)) ∧
  (NoDangling (get st) → NoDangling (get st')) ∧
  selectedSpanId (get st') = Some sid ∧
  deleteSelection st' = st'.
Proof.
  intros Hsel Hsid Hspan Hs He st'.
  assert (st' = removeMarker (Span.endMarkerId span)
                  (removeMarker (Span.startMarkerId span) (removeSpan sid st))) as Hst'.
  { unfold st', deleteSelection. cbv zeta. by rewrite Hsel, Hsid, Hspan, Hs, He. }
  assert (spans (get st')
    = filter (λ sp, Span.id sp ≠ sid ∧ anchors sp ## anchors span) (spans (get st))) as Hsps.
  { rewrite Hst'. unfold removeMarker, removeSpan. rewrite !get_set.
    cbn [mapSpans markers spans]. rewrite !list_filter_filter.
    apply list_filter_iff. intros sp. unfold anchors.
    rewrite disjoint_union_l, !disjoint_union_r, !disjoint_singleton_l,
      !not_elem_of_singleton. tauto. }
  assert (selectedSpanId (get st') = Some sid) as Hsel'.
  { rewrite Hst'. unfold removeMarker, removeSpan. rewrite !get_set. done. }
  split_and!; [| done | | done |].
  - rewrite Hst'. unfold removeMarker, removeSpan. rewrite !get_set.
    cbn [mapSpans markers spans]. rewrite list_filter_filter.
    apply list_filter_iff. intros m. rewrite elem_of_anchors. tauto.
  - intros Hinv. rewrite Hst'.
    by apply removeMarker_cascades, removeMarker_cascades, NoDangling_removeSpan.
  - unfold deleteSelection. cbv zeta. rewrite Hsel', Hsid.
    assert (findSpan (spans (get st')) sid = None) as ->; [|done].
    apply findSpan_None. intros sp Hsp. rewrite Hsps in Hsp.
    by apply list_elem_of_filter in Hsp as [[? _] _].
Qed.

Lemma deleteSelection_span_witness :
  selectedSpanId (get selectedStore) = Some "A" ∧ truthy "A" = true ∧
  findSpan (spans (get selectedStore)) "A" = Some spanA ∧
  truthy (Span.startMarkerId spanA) = true ∧
  truthy (Span.endMarkerId spanA) = true ∧
  let st' := deleteSelection selectedStore in
  markers (get st')
    = filter (λ m, Marker.id m ∉ anchors spanA) (markers (get selectedStore)) ∧
  spans (get st')
    = filter (λ sp, Span.id sp ≠ "A" ∧ anchors sp ## anchors spanA)
        (spans (get selectedStore)) ∧
  (NoDangling (get selectedStore) → NoDangling (get st')) ∧
  selectedSpanId (get st') = Some "A" ∧
  deleteSelection st' = st'.
Proof.
  split_and!; [reflexivity..|].
  exact (deleteSelection_span selectedStore "A" spanA eq_refl eq_refl eq_refl eq_refl eq_refl).
Defined.

(** ** Stepping through the markers *)

Section sorting.
Context {A : Type} (le : A → A → bool).
Hypothesis le_total : ∀ a b, le a b = false → le b a = true.
Hypothesis le_trans : ∀ a b c, le a b = true → le b c = true → le a c = true.

Lemma insertBy_perm m l : insertBy le m l ≡ₚ m :: l.
Proof.
  induction l as [|x l IH]; [done|]. cbn. destruct (le m x); [done|].
  rewrite IH. apply Permutation_swap.
Qed.

Lemma sortBy_perm l : sortBy le l ≡ₚ l.
Proof.
  induction l as [|x l IH]; [done|]. cbn. fold (sortBy le l).
  by rewrite insertBy_perm, IH.
Qed.

Lemma elem_of_sortBy x l : x ∈ sortBy le l ↔ x ∈ l.
Proof. by rewrite sortBy_perm. Qed.

Lemma insertBy_sorted m l :
  pairwise (λ a b, le a b = true) l → pairwise (λ a b, le a b = true) (insertBy le m l).
Proof using le_total le_trans.
  induction l as [|x l IH]; intros Hs; [by cbn|].
  destruct Hs as [Hx Hl]. cbn. destruct (le m x) eqn:E.
  - cbn. split_and!; [|done..]. constructor; [done|].
    eapply Forall_impl; [exact Hx|]. intros y Hy. by eapply le_trans.
  - cbn. split; [|by apply IH].
    apply Forall_forall. intros y Hy. rewrite insertBy_perm in Hy.
    apply elem_of_cons in Hy as [->|Hy]; [by apply le_total|].
    rewrite Forall_forall in Hx. by apply Hx.
Qed.

Lemma sortBy_sorted l : pairwise (λ a b, le a b = true) (sortBy le l).
Proof using le_total le_trans.
  induction l as [|x l IH]; [by cbn|]. cbn. by apply insertBy_sorted.
Qed.

(** Stability: elements that the order does not tell apart keep their
    order. *)
Lemma insertBy_stable (P : A → Prop) `{!∀ x, Decision (P x)} m l :
  (∀ x y, P x → P y → le x y = true) →
  filter P (insertBy le m l) = filter P (m :: l).
Proof.
  intros HP. induction l as [|x l IH]; [done|]. cbn [insertBy].
  destruct (le m x) eqn:E; [done|].
  rewrite filter_cons, IH. rewrite !(filter_cons _ m), (filter_cons _ x).
  destruct (decide (P m)) as [Hm|Hm]; [|done].
  destruct (decide (P x)) as [Hx|Hx]; [|done].
  rewrite (HP m x Hm Hx) in E. done.
Qed.

Lemma sortBy_stable (P : A → Prop) `{!∀ x, Decision (P x)} l :
  (∀ x y, P x → P y → le x y = true) →
  filter P (sortBy le l) = filter P l.
Proof.
  intros HP. induction l as [|x l IH]; [done|]. cbn. fold (sortBy le l).
  rewrite insertBy_stable by done. by rewrite !filter_cons, IH.
Qed.

Lemma find_split (p : A → bool) l m :
  List.find p l = Some m →
  ∃ l1 l2, l = l1 ++ m :: l2 ∧ p m = true ∧ Forall (λ y, p y = false) l1.
Proof.
  induction l as [|x l IH]; [done|]. cbn. destruct (p x) eqn:E.
  - intros [= ->]. exists [], l. by split_and!.
  - intros H. destruct (IH H) as (l1 & l2 & -> & Hm & Hl1).
    exists (x :: l1), l2. split_and!; [done..|]. by constructor.
Qed.

Lemma find_None_all (p : A → bool) l :
  List.find p l = None → ∀ x, x ∈ l → p x = false.
Proof.
  induction l as [|x l IH]; [by intros _ y Hy; apply elem_of_nil in Hy|].
  cbn. destruct (p x) eqn:E; [done|]. intros H y Hy.
  apply elem_of_cons in Hy as [->|Hy]; [done|]. by apply IH.
Qed.

(** What [find] returns on a sorted list: the least element that passes
    the test, and among those the order does not tell apart the one that
    came first before sorting. *)
Lemma find_sortBy (p : A → bool) (P : A → Prop) `{!∀ x, Decision (P x)} l m :
  (∀ a, le a a = true) →
  (∀ x y, P x → P y → le x y = true) →
  (∀ y, P y → p y = p m) → P m →
  List.find p (sortBy le l) = Some m →
  m ∈ l ∧ p m = true ∧ (∀ x, x ∈ l → p x = true → le m x = true) ∧
  head (filter P l) = Some m.
Proof using le_total le_trans.
  intros Hrefl HP Hp Hm Hfind.
  destruct (find_split p _ m Hfind) as (l1 & l2 & Hl & Hpm & Hl1).
  pose proof (sortBy_sorted l) as Hs. rewrite Hl in Hs.
  apply pairwise_app in Hs as (_ & Hs2 & _). destruct Hs2 as [Hm2 _].
  split_and!; [| done | |].
  - apply elem_of_sortBy. rewrite Hl. apply elem_of_app. right. by left.
  - intros x Hx Hpx. apply elem_of_sortBy in Hx. rewrite Hl in Hx.
    apply elem_of_app in Hx as [Hx|Hx].
    + rewrite Forall_forall in Hl1. rewrite (Hl1 x Hx) in Hpx. done.
    + apply elem_of_cons in Hx as [->|Hx]; [apply Hrefl|].
      rewrite Forall_forall in Hm2. by apply Hm2.
  - rewrite <- (sortBy_stable P l HP), Hl, filter_app.
    rewrite (filter_nothing P l1).
    + by rewrite filter_cons_True.
    + intros y Hy HPy. rewrite Forall_forall in Hl1.
      specialize (Hl1 y Hy). rewrite (Hp y HPy), Hpm in Hl1. done.
Qed.

Lemma head_sortBy (P : A → Prop) `{!∀ x, Decision (P x)} l m rest :
  (∀ x y, P x → P y → le x y = true) → P m →
  sortBy le l = m :: rest →
  m ∈ l ∧ (∀ x, x ∈ l → le m x = true ∨ x = m) ∧ head (filter P l) = Some m.
Proof using le_total le_trans.
  intros HP Hm Hl. pose proof (sortBy_sorted l) as Hs. rewrite Hl in Hs.
  destruct Hs as [Hm2 _]. split_and!.
  - apply elem_of_sortBy. rewrite Hl. by left.
  - intros x Hx. apply elem_of_sortBy in Hx. rewrite Hl in Hx.
    apply elem_of_cons in Hx as [->|Hx]; [by right|]. left.
    rewrite Forall_forall in Hm2. by apply Hm2.
  - rewrite <- (sortBy_stable P l HP), Hl. by rewrite filter_cons_True.
Qed.

End sorting.

Lemma sortByTime_sortBy l : sortByTime l = sortBy earlierFirst l.
Proof.
  unfold sortByTime, sortBy. induction l as [|x l IH]; [done|]. cbn. rewrite IH.
  generalize (foldr (insertBy earlierFirst) [] l). intros s.
  induction s as [|y s IHs]; [done|]. cbn. unfold earlierFirst at 1. by rewrite IHs.
Qed.

Lemma sortByTimeDesc_sortBy l : sortByTimeDesc l = sortBy laterFirst l.
Proof.
  unfold sortByTimeDesc, sortBy. induction l as [|x l IH]; [done|]. cbn. rewrite IH.
  generalize (foldr (insertBy laterFirst) [] l). intros s.
  induction s as [|y s IHs]; [done|]. cbn. unfold laterFirst at 1. by rewrite IHs.
Qed.

Section select.
Implicit Types (st : Store) (m : Marker.t).

Lemma earlierFirst_total a b : earlierFirst a b = false → earlierFirst b a = true.
Proof. unfold earlierFirst. lia. Qed.

Lemma earlierFirst_trans a b c :
  earlierFirst a b = true → earlierFirst b c = true → earlierFirst a c = true.
Proof. unfold earlierFirst. lia. Qed.

Lemma laterFirst_total a b : laterFirst a b = false → laterFirst b a = true.
Proof. unfold laterFirst. lia. Qed.

Lemma laterFirst_trans a b c :
  laterFirst a b = true → laterFirst b c = true → laterFirst a c = true.
Proof. unfold laterFirst. lia. Qed.

(** The two tests are thresholds: a later marker passes the test of
    [selectNextMarker] whenever an earlier one does, and the other way
    round for [selectPrevMarker]. *)
Lemma gtDouble_mono (x : float) (z z' : Z) :
  z ≤ z' → gtDouble z x = true → gtDouble z' x = true.
Proof.
  unfold gtDouble. intros Hz. destruct (Prim2SF x) as [sg|sg| |sg m e]; try done.
  - lia.
  - cbv zeta. destruct (0 <=? e) eqn:He; [lia|]. apply Z.leb_gt in He.
    assert (0 < 2 ^ (- e)) by (apply Z.pow_pos_nonneg; lia).
    nia.
Qed.

Lemma ltDouble_mono (x : float) (z z' : Z) :
  z' ≤ z → ltDouble z x = true → ltDouble z' x = true.
Proof.
  unfold ltDouble. intros Hz. destruct (Prim2SF x) as [sg|sg| |sg m e]; try done.
  - lia.
  - cbv zeta. destruct (0 <=? e) eqn:He; [lia|]. apply Z.leb_gt in He.
    assert (0 < 2 ^ (- e)) by (apply Z.pow_pos_nonneg; lia).
    nia.
Qed.

Lemma confirmedOn_elem videoId (ms : list Marker.t) m :
  m ∈ confirmedOn videoId ms → m ∈ ms.
Proof.
  unfold confirmedOn. rewrite !list_elem_of_In, filter_In. tauto.
Qed.

(** Selecting a marker of the list: the selection is that marker; the
    lists stay. *)
Lemma setSelectedMarkerId_elem (st : Store) m :
  m ∈ markers (get st) →
  let st' := setSelectedMarkerId (Marker.id m) st in
  selectedMarkerId (get st') = Some (Marker.id m) ∧
  markers (get st') = markers (get st) ∧ spans (get st') = spans (get st).
Proof.
  intros Hm st'. unfold st', setSelectedMarkerId. rewrite get_set.
  cbn [markers spans selectedMarkerId]. split; [|done].
  rewrite orphaned_elem; [done|]. cbn [markers]. apply list_elem_of_fmap. eauto.
Qed.

Lemma sortBy_nil {A} (le : A → A → bool) (l : list A) : sortBy le l = [] → l = [].
Proof. intros H. apply Permutation_nil_r. by rewrite <- H, sortBy_perm. Qed.

End select.


(** X13.  [selectNextMarker videoId currentTime] looks at the
    confirmed markers of the video only.  Without any, the store is left
    as it is.  Otherwise it calls [set] with one of them as the selected
    marker and nothing else: the earliest of those whose time is greater
    than [currentTime * 1000 + 1], the two operations being those of
    double arithmetic on the position of the playhead, or, when there is
    none, the earliest of all (the selection wraps around); of several
    markers at that time, the first of the markers list. *)
Theorem selectNextMarker_spec (st : Store) (videoId : string) (currentTime : float) :
  let C := confirmedOn videoId (markers (get st)) in
  let st' := selectNextMarker videoId currentTime st in
  match C with
  | [] => st' = st
  | _ :: _ =>
      ∃ m, m ∈ C ∧ st' = setSelectedMarkerId (Marker.id m) st ∧
        selectedMarkerId (get st') = Some (Marker.id m) ∧
        markers (get st') = markers (get st) ∧ spans (get st') = spans (get st) ∧
        head (filter (λ x, Marker.time x = Marker.time m) C) = Some m ∧
        ((∃ x, x ∈ C ∧ laterThan currentTime x) →
           laterThan currentTime m ∧
           ∀ x, x ∈ C → laterThan currentTime x → Marker.time m ≤ Marker.time x) ∧
        ((∀ x, x ∈ C → ¬ laterThan currentTime x) →
           ∀ x, x ∈ C → Marker.time m ≤ Marker.time x)
  end.
Proof.
  intros C st'. unfold st', selectNextMarker. cbv zeta. fold C.
  rewrite sortByTime_sortBy.
  destruct (List.find _ (sortBy earlierFirst C)) as [next|] eqn:Efind.
  - destruct (find_sortBy earlierFirst earlierFirst_total earlierFirst_trans
                (λ m, gtDouble (Marker.time m) (currentTime * 1000 + 1)%float)
                (λ x, Marker.time x = Marker.time next) C next) as (Hin & Hp & Hmin & Hhead);
      [unfold earlierFirst; intros; lia | unfold earlierFirst; intros; lia
      | by intros y -> | done | exact Efind |].
    destruct (setSelectedMarkerId_elem st next) as (Hsel & Hms & Hsps);
      [eapply confirmedOn_elem, Hin|].
    destruct C as [|c0 C']; [by apply elem_of_nil in Hin|].
    exists next.
    split_and!; [done..| |].
    + intros _. split; [exact Hp|].
      intros x Hx Hlx.
      specialize (Hmin x Hx Hlx). unfold earlierFirst in Hmin. lia.
    + intros Hnone. exfalso. by apply (Hnone next Hin).
  - destruct (sortBy earlierFirst C) as [|first rest] eqn:Esort.
    + apply sortBy_nil in Esort. by rewrite Esort.
    + destruct (head_sortBy earlierFirst earlierFirst_total earlierFirst_trans
                  (λ x, Marker.time x = Marker.time first) C first rest)
        as (Hin & Hmin & Hhead); [unfold earlierFirst; intros; lia | done | done |].
      assert (∀ x, x ∈ C → Marker.time first ≤ Marker.time x) as Hle.
      { intros x Hx. destruct (Hmin x Hx) as [H| ->]; [unfold earlierFirst in H|]; lia. }
      destruct (setSelectedMarkerId_elem st first) as (Hsel & Hms & Hsps);
        [eapply confirmedOn_elem, Hin|].
      destruct C as [|c0 C']; [by apply elem_of_nil in Hin|].
      exists first. split_and!; [done..| |].
      * intros (x & Hx & Hlx). exfalso. unfold laterThan, earlierThan in Hlx.
        rewrite <- Esort in Efind.
        rewrite (find_None_all _ _ Efind x) in Hlx; [done|].
        by apply elem_of_sortBy.
      * intros _. exact Hle.
Qed.


(** X14.  [selectPrevMarker videoId currentTime] mirrors
    [selectNextMarker]: among the confirmed markers of the video it
    selects the latest of those whose time is less than
    [currentTime * 1000 - 1], computed in double arithmetic, or, when
    there is none, the latest of all; of several markers at that time,
    the first of the markers list.  Without confirmed markers on the
    video the store is left as it is. *)
Theorem selectPrevMarker_spec (st : Store) (videoId : string) (currentTime : float) :
  let C := confirmedOn videoId (markers (get st)) in
  let st' := selectPrevMarker videoId currentTime st in
  match C with
  | [] => st' = st
  | _ :: _ =>
      ∃ m, m ∈ C ∧ st' = setSelectedMarkerId (Marker.id m) st ∧
        selectedMarkerId (get st') = Some (Marker.id m) ∧
        markers (get st') = markers (get st) ∧ spans (get st') = spans (get st) ∧
        head (filter (λ x, Marker.time x = Marker.time m) C) = Some m ∧
        ((∃ x, x ∈ C ∧ earlierThan currentTime x) →
           earlierThan currentTime m ∧
           ∀ x, x ∈ C → earlierThan currentTime x → Marker.time x ≤ Marker.time m) ∧
        ((∀ x, x ∈ C → ¬ earlierThan currentTime x) →
           ∀ x, x ∈ C → Marker.time x ≤ Marker.time m)
  end.
Proof.
  intros C st'. unfold st', selectPrevMarker. cbv zeta. fold C.
  rewrite sortByTimeDesc_sortBy.
  destruct (List.find _ (sortBy laterFirst C)) as [prev|] eqn:Efind.
  - destruct (find_sortBy laterFirst laterFirst_total laterFirst_trans
                (λ m, ltDouble (Marker.time m) (currentTime * 1000 - 1)%float)
                (λ x, Marker.time x = Marker.time prev) C prev) as (Hin & Hp & Hmin & Hhead);
      [unfold laterFirst; intros; lia | unfold laterFirst; intros; lia
      | by intros y -> | done | exact Efind |].
    destruct (setSelectedMarkerId_elem st prev) as (Hsel & Hms & Hsps);
      [eapply confirmedOn_elem, Hin|].
    destruct C as [|c0 C']; [by apply elem_of_nil in Hin|].
    exists prev.
    split_and!; [done..| |].
    + intros _. split; [exact Hp|].
      intros x Hx Hlx.
      specialize (Hmin x Hx Hlx). unfold laterFirst in Hmin. lia.
    + intros Hnone. exfalso. by apply (Hnone prev Hin).
  - destruct (sortBy laterFirst C) as [|first rest] eqn:Esort.
    + apply sortBy_nil in Esort. by rewrite Esort.
    + destruct (head_sortBy laterFirst laterFirst_total laterFirst_trans
                  (λ x, Marker.time x = Marker.time first) C first rest)
        as (Hin & Hmin & Hhead); [unfold laterFirst; intros; lia | done | done |].
      assert (∀ x, x ∈ C → Marker.time x ≤ Marker.time first) as Hle.
      { intros x Hx. destruct (Hmin x Hx) as [H| ->]; [unfold laterFirst in H|]; lia. }
      destruct (setSelectedMarkerId_elem st first) as (Hsel & Hms & Hsps);
        [eapply confirmedOn_elem, Hin|].
      destruct C as [|c0 C']; [by apply elem_of_nil in Hin|].
      exists first. split_and!; [done..| |].
      * intros (x & Hx & Hlx). exfalso. unfold laterThan, earlierThan in Hlx.
        rewrite <- Esort in Efind.
        rewrite (find_None_all _ _ Efind x) in Hlx; [done|].
        by apply elem_of_sortBy.
      * intros _. exact Hle.
Qed.

(** The product is rounded.  With the playhead at the double nearest to
    1.025 s, [currentTime * 1000 + 1] is 1026 exactly, so a marker at
    1026 ms is not after it; with the playhead at the double nearest to
    0.001 s, [currentTime * 1000 - 1] is 0, so a marker at 0 ms is not
    before it. *)
Example playhead_rounding :
  gtDouble 1026 (0x1.0666666666666p+0 * 1000 + 1)%float = false ∧
  gtDouble 1027 (0x1.0666666666666p+0 * 1000 + 1)%float = true ∧
  ltDouble 0 (0x1.0624dd2f1a9fcp-10 * 1000 - 1)%float = false ∧
  ltDouble (-1) (0x1.0624dd2f1a9fcp-10 * 1000 - 1)%float = true.
Proof. split_and!; vm_compute; reflexivity. Qed.

(** ** confirmMarker and the no-overlap invariant *)

Section confirm_no_overlap.
Implicit Types (st : Store) (s : AnnotationState) (m : Marker.t).

Lemma NoOverlap_shrink (ms ms' : list Marker.t) (sps : list Span.t) :
  (∀ x c', x ∈ sps → interval ms' x = Some c' →
     ∃ c, interval ms x = Some c ∧ c.1 ≤ c'.1 ∧ c'.2 ≤ c.2) →
  pairwise (compatible ms) sps → pairwise (compatible ms') sps.
Proof.
  intros Hsh Hinv. eapply pairwise_impl; [exact Hinv|].
  intros x y Hx Hy Hc Ht Hv. specialize (Hc Ht Hv).
  destruct (interval ms' x) as [a'|] eqn:Ea'; [|done].
  destruct (interval ms' y) as [b'|] eqn:Eb'; [|done].
  destruct (Hsh x a' Hx Ea') as (a & Ea & Ha1 & Ha2).
  destruct (Hsh y b' Hy Eb') as (b & Eb & Hb1 & Hb2).
  rewrite Ea, Eb in Hc. intros Hi. apply Hc.
  by apply (intersects_within a a' b b').
Qed.

Lemma confirmMarker_markers st markerId typeId marker :
  findMarker (markers (get st)) markerId = Some marker →
  markers (get (confirmMarker markerId typeId st))
  = (λ m, if bool_decide (Marker.id m = markerId) then Marker.confirm typeId m
          else if bool_decide (snappedId (get st) marker = Some (Marker.id m))
          then Marker.with_time (Marker.time marker) m else m) <$> markers (get st)
  ∧ spans (get (confirmMarker markerId typeId st)) = spans (get st).
Proof.
  intros Hm. unfold confirmMarker. cbv zeta. rewrite Hm, get_set. cbn [markers spans].
  split; [|done]. apply list_fmap_ext. intros _ m _.
  by rewrite truthy_snapTarget.
Qed.

Lemma snappedId_Some s marker e :
  snappedId s marker = Some e →
  ∃ S, S ∈ spans s ∧ strictlyInside (markers s) marker S ∧ Span.endMarkerId S = e.
Proof.
  unfold snappedId. destruct (list_find _ _) as [[i S]|] eqn:Ef; [|done].
  apply list_find_Some in Ef as (Hi & HS & _).
  destruct (truthy _); [|done]. intros [= <-]. exists S. split_and!; [|done..].
  by eapply list_elem_of_lookup_2.
Qed.

Lemma exclusive_anchor s x y i :
  ExclusiveAnchors s → x ∈ spans s → y ∈ spans s →
  i ∈ anchors x → i ∈ anchors y → x = y.
Proof.
  intros Hex Hx Hy Hix Hiy.
  destruct (pairwise_elem (λ x y, anchors x ## anchors y) (spans s) x y) as [->|Hd];
    [by intros a b Hab; symmetry | done.. | done |].
  exfalso. by apply (Hd i).
Qed.

End confirm_no_overlap.


Lemma NoOverlap_confirmMarker (st : Store) (markerId typeId : string) :
  ExclusiveAnchors (get st) → NoOverlap (get st) →
  NoOverlap (get (confirmMarker markerId typeId st)).
Proof.
  intros Hex Hinv.
  destruct (findMarker (markers (get st)) markerId) as [marker|] eqn:Em;
    [|unfold confirmMarker; cbv zeta; by rewrite Em].
  destruct (confirmMarker_markers st markerId typeId marker Em) as [Hms Hsps].
  unfold NoOverlap. rewrite Hsps, Hms. clear Hms Hsps.
  set (f := λ m : Marker.t, _).
  assert (∀ m, Marker.id (f m) = Marker.id m) as Hfid.
  { intros m. unfold f. by repeat case_bool_decide. }
  apply (NoOverlap_shrink (markers (get st))); [|exact Hinv].
  intros x c' Hx Hc'. apply interval_Some in Hc' as (sM' & eM' & Hs' & He' & ->).
  rewrite findMarker_fmap in Hs', He' by done.
  destruct (findMarker (markers (get st)) (Span.startMarkerId x)) as [sM|] eqn:Es; [|done].
  destruct (findMarker (markers (get st)) (Span.endMarkerId x)) as [eM|] eqn:Ee; [|done].
  injection Hs' as <-. injection He' as <-.
  exists (Z.min (Marker.time sM) (Marker.time eM), Z.max (Marker.time sM) (Marker.time eM)).
  split; [unfold interval; by rewrite Es, Ee|]. cbn [fst snd].
  apply findMarker_Some in Es as Hsid. apply findMarker_Some in Ee as Heid.
  destruct Hsid as [_ Hsid], Heid as [_ Heid].
  destruct (snappedId (get st) marker) as [e|] eqn:Esnap.
  - destruct (snappedId_Some _ _ _ Esnap) as (S & HS & Hin & HSe).
    destruct (decide (e ∈ anchors x)) as [Hex'|Hnx].
    + assert (x = S) as ->.
      { apply (exclusive_anchor (get st) x S e); [done..|].
        apply elem_of_anchors. by right. }
      destruct Hin as [_ Hin]. unfold interval in Hin. rewrite Es, Ee in Hin.
      cbn [fst snd] in Hin.
      assert (Span.startMarkerId S ≠ Span.endMarkerId S) as Hne.
      { intros Heq. rewrite Heq, Ee in Es. injection Es as ->. lia. }
      unfold f. rewrite Hsid, Heid, HSe.
      destruct (decide (e = markerId)) as [->|Hem].
      * rewrite (bool_decide_eq_true_2 (markerId = markerId)) by done.
        case_bool_decide; [cbn; lia|].
        rewrite bool_decide_eq_false_2 by congruence. cbn. lia.
      * rewrite (bool_decide_eq_false_2 (e = markerId)) by done.
        rewrite (bool_decide_eq_true_2 (Some e = Some e)) by done.
        case_bool_decide; [cbn; lia|].
        rewrite bool_decide_eq_false_2 by congruence. cbn. lia.
    + rewrite elem_of_anchors in Hnx.
      unfold f. rewrite Hsid, Heid.
      rewrite (bool_decide_eq_false_2 (Some e = Some (Span.startMarkerId x)))
        by (intros [= ->]; tauto).
      rewrite (bool_decide_eq_false_2 (Some e = Some (Span.endMarkerId x)))
        by (intros [= ->]; tauto).
      repeat case_bool_decide; cbn; lia.
  - unfold f. rewrite !(bool_decide_eq_false_2 (None = Some _)) by done.
    repeat case_bool_decide; cbn; lia.
Qed.

(** X15.  [confirmMarker] keeps the no-overlap invariant in a
    store where no marker anchors two spans: the marker it moves is an
    anchor of the span that had the time strictly inside, and that span
    only gets shorter. *)
Theorem confirmMarker_keeps_no_overlap (st : Store) (markerId typeId : string) :
  ExclusiveAnchors (get st) → NoOverlap (get st) →
  NoOverlap (get (confirmMarker markerId typeId st)).
Proof. apply NoOverlap_confirmMarker. Qed.

Lemma confirmMarker_keeps_no_overlap_witness :
  ExclusiveAnchors (get snapStore) ∧ NoOverlap (get snapStore) ∧
  NoOverlap (get (confirmMarker "p" "sign-end" snapStore)) ∧
  interval (markers (get (confirmMarker "p" "sign-end" snapStore))) spanA = Some (0, 500).
Proof.
  assert (ExclusiveAnchors (get snapStore)) as H1
    by (apply (bool_decide_unpack _); vm_compute; exact I).
  assert (NoOverlap (get snapStore)) as H2
    by (apply (bool_decide_unpack _); vm_compute; exact I).
  split_and!; [exact H1 | exact H2
              | exact (confirmMarker_keeps_no_overlap snapStore "p" "sign-end" H1 H2)
              | reflexivity].
Defined.

(** ** A merge cannot be repeated *)

Lemma mergeSpans_unknown (st : Store) (keepId removeId : string) :
  findSpan (spans (get st)) keepId = None ∨ findSpan (spans (get st)) removeId = None →
  mergeSpans keepId removeId st = (false, st).
Proof.
  intros H. unfold mergeSpans. cbv zeta.
  destruct (findSpan (spans (get st)) keepId), (findSpan (spans (get st)) removeId);
    try done. by destruct H.
Qed.

(** X16.  When [mergeSpans keepId removeId] returns [true], no span
    has the id [removeId] afterwards, the merged span is the selected span
    and no marker is selected; the same call again, or the call with the
    two ids exchanged, returns [false] and leaves the store as it is. *)
Theorem mergeSpans_once (st st' : Store) (keepId removeId : string) :
  mergeSpans keepId removeId st = (true, st') →
  findSpan (spans (get st')) removeId = None ∧
  mergeSpans keepId removeId st' = (false, st') ∧
  mergeSpans removeId keepId st' = (false, st') ∧
  selectedSpanId (get st') = Some keepId ∧
  selectedMarkerId (get st') = None.
Proof.
  intros Hm.
  destruct (mergeSpans_cases st keepId removeId)
    as [Hrej|(keep & remove & ks & ke & rs & re & _ & _ & _ & _ & _ & _ & _ & Hacc)];
    [congruence|].
  rewrite Hacc in Hm. injection Hm as <-.
  assert (findSpan (spans (get (set (mergeCommit keepId removeId keep remove
            (Z.min (Marker.time ks) (Marker.time ke))
            (Z.min (Marker.time rs) (Marker.time re))) st))) removeId = None) as Hgone.
  { rewrite get_set. unfold mergeCommit. cbv zeta. cbn [spans].
    rewrite findSpan_fmap by (intros sp; by case_bool_decide).
    by rewrite findSpan_filter_ne, decide_True. }
  split_and!; [done | | | by rewrite get_set..].
  - apply mergeSpans_unknown. by right.
  - apply mergeSpans_unknown. by left.
Qed.

Lemma mergeSpans_once_witness :
  ∃ st', mergeSpans "A" "B" mergeStore = (true, st') ∧
    findSpan (spans (get st')) "B" = None ∧
    mergeSpans "A" "B" st' = (false, st') ∧
    mergeSpans "B" "A" st' = (false, st') ∧
    selectedSpanId (get st') = Some "A" ∧
    selectedMarkerId (get st') = None.
Proof.
  eexists. split; [reflexivity|].
  exact (mergeSpans_once mergeStore _ "A" "B" eq_refl).
Defined.

(** ** The selection *)

Section selection.
Implicit Types (st : Store) (s : AnnotationState).

Lemma selectionNarrowed_refl s : selectionNarrowed s s.
Proof. by right. Qed.

Lemma selectionNarrowed_trans s1 s2 s3 :
  selectionNarrowed s1 s2 → selectionNarrowed s2 s3 → selectionNarrowed s1 s3.
Proof.
  unfold selectionNarrowed. intros [H1|[H1 H1']] [H2|[H2 H2']]; try (by left).
  - left. congruence.
  - right. split; congruence.
Qed.

Lemma ExclusiveSelection_narrowed s s' :
  selectionNarrowed s s' → ExclusiveSelection s → ExclusiveSelection s'.
Proof.
  unfold ExclusiveSelection. intros [H|[H1 H2]] Hex [Hm Hs].
  - by rewrite H in Hm.
  - apply Hex. by rewrite <- H1, <- H2.
Qed.

(** The clean-up after a [set] can only clear the marker selection. *)
Lemma selectionNarrowed_set f st :
  selectionNarrowed (get st) (f (get st)) →
  selectionNarrowed (get st) (get (set f st)).
Proof.
  rewrite get_set. unfold selectionNarrowed. cbn [selectedMarkerId selectedSpanId].
  destruct (orphaned _ (selectedMarkerId (f (get st)))); [by left | done].
Qed.

Lemma ExclusiveSelection_set f st :
  ExclusiveSelection (f (get st)) → ExclusiveSelection (get (set f st)).
Proof.
  rewrite get_set. unfold ExclusiveSelection. cbn [selectedMarkerId selectedSpanId].
  destruct (orphaned _ (selectedMarkerId (f (get st)))); [|done]. by intros _ [? _].
Qed.

Lemma selectionNarrowed_removeMarker id st :
  selectionNarrowed (get st) (get (removeMarker id st)).
Proof.
  unfold removeMarker. apply selectionNarrowed_set. unfold selectionNarrowed.
  cbn [selectedMarkerId selectedSpanId]. case_bool_decide; [by left | by right].
Qed.

Lemma selectionNarrowed_perform a st :
  (∀ uuid time tierId videoId, a ≠ PlaceMarker uuid time tierId videoId) →
  selectionNarrowed (get st) (get (perform a st)).
Proof.
  intros Hnp. destruct a; cbn [perform].
  - by destruct (Hnp uuid time tierId videoId).
  - unfold confirmMarker. cbv zeta. destruct (findMarker _ _); [|by right].
    apply selectionNarrowed_set. by right.
  - unfold cancelPendingMarker. destruct (pendingMarkerId _) as [p|]; [|by right].
    destruct (truthy p); [|by right]. apply selectionNarrowed_set. unfold selectionNarrowed.
    cbn [selectedMarkerId selectedSpanId]. case_bool_decide; [by left | by right].
  - apply selectionNarrowed_removeMarker.
  - unfold nudgeMarker. apply selectionNarrowed_set. by right.
  - unfold updateMarkerTime. apply selectionNarrowed_set. by right.
  - unfold updateMarkerTier. apply selectionNarrowed_set. by right.
  - unfold reclassifyMarker. apply selectionNarrowed_set. by right.
  - unfold updateMarkerValue. apply selectionNarrowed_set. by right.
  - destruct (addSpan_cases st uuid span) as [->|(? & _ & _ & ->)]; [by right|].
    apply selectionNarrowed_set. by right.
  - unfold removeSpan. apply selectionNarrowed_set. by right.
  - unfold updateSpanGloss. apply selectionNarrowed_set. by right.
  - destruct (mergeSpans_cases st keepSpanId removeSpanId)
      as [->|(? & ? & ? & ? & ? & ? & _ & _ & _ & _ & _ & _ & _ & ->)]; [by right|].
    cbn [snd]. apply selectionNarrowed_set. by left.
  - unfold clearOverlappingSpans. cbv zeta. destruct (_ && _); [by right|].
    apply selectionNarrowed_set. by right.
  - unfold setMarkers. apply selectionNarrowed_set. by right.
  - unfold setSpans. apply selectionNarrowed_set. by right.
  - unfold clearVideoAnnotations. apply selectionNarrowed_set. by right.
Qed.

Lemma ExclusiveSelection_runGesture g st :
  selectsBlindly g = false →
  ExclusiveSelection (get st) → ExclusiveSelection (get (runGesture g st)).
Proof.
  intros Hg Hex. destruct g as [a|id|id|id|v t|v t|]; try discriminate Hg; cbn [runGesture].
  - eapply ExclusiveSelection_narrowed; [|exact Hex].
    apply selectionNarrowed_perform. intros ? ? ? ? ->. discriminate Hg.
  - unfold selectMarker. apply ExclusiveSelection_set. unfold ExclusiveSelection.
    destruct (truthy_opt id) eqn:E; cbn [selectedMarkerId selectedSpanId].
    + by intros [_ ?].
    + rewrite E. by intros [? _].
  - unfold selectSpan. apply ExclusiveSelection_set. unfold ExclusiveSelection.
    destruct (truthy_opt id) eqn:E; cbn [selectedMarkerId selectedSpanId].
    + by intros [? _].
    + rewrite E. by intros [_ ?].
  - unfold setEditingSpan. apply ExclusiveSelection_set. exact Hex.
  - eapply ExclusiveSelection_narrowed; [|exact Hex].
    unfold deleteSelection. cbv zeta.
    assert (selectionNarrowed (get st)
              (get match selectedMarkerId (get st) with
                   | Some selectedId =>
                       if truthy selectedId then removeMarker selectedId st else st
                   | None => st
                   end)) as Hmarker.
    { destruct (selectedMarkerId (get st)) as [i|] eqn:E; [|by right].
      destruct (truthy i); [|by right]. apply selectionNarrowed_removeMarker. }
    destruct (selectedSpanId (get st)) as [sid|] eqn:Es; [|exact Hmarker].
    destruct (truthy sid); [|exact Hmarker].
    destruct (findSpan _ sid) as [span|]; [|by right].
    assert (selectionNarrowed (get st) (get (removeSpan sid st))) as H1.
    { unfold removeSpan. apply selectionNarrowed_set. by right. }
    destruct (truthy (Span.startMarkerId span)), (truthy (Span.endMarkerId span));
      repeat (eapply selectionNarrowed_trans; [|apply selectionNarrowed_removeMarker]);
      exact H1.
Qed.

End selection.


(** X17.  A marker and a span are never selected together, as long
    as no marker is selected blindly: when at most one of
    [selectedMarkerId] and [selectedSpanId] is a non-empty id, this still
    holds after any sequence of [selectMarker], [selectSpan],
    [setEditingSpan], the Delete key and the mutating operations other
    than [placeMarker].  ([placeMarker], [selectNextMarker] and
    [selectPrevMarker] set [selectedMarkerId] and leave [selectedSpanId]
    as it is.) *)
Theorem selection_stays_exclusive (gs : list Gesture) (st : Store) :
  Forall (λ g, selectsBlindly g = false) gs →
  ExclusiveSelection (get st) →
  ExclusiveSelection (get (runGestures gs st)).
Proof.
  revert st. induction gs as [|g gs IH]; intros st Hgs Hex; [done|].
  apply Forall_cons in Hgs as [Hg Hgs]. cbn. apply IH; [done|].
  by apply ExclusiveSelection_runGesture.
Qed.

Lemma selection_stays_exclusive_witness :
  Forall (λ g, selectsBlindly g = false) clickSession ∧
  ExclusiveSelection (get mergeStore) ∧
  ExclusiveSelection (get (runGestures clickSession mergeStore)).
Proof.
  assert (Forall (λ g, selectsBlindly g = false) clickSession) as H1
    by (apply (bool_decide_unpack _); vm_compute; exact I).
  assert (ExclusiveSelection (get mergeStore)) as H2
    by (apply (bool_decide_unpack _); vm_compute; exact I).
  split_and!; [exact H1 | exact H2
              | exact (selection_stays_exclusive clickSession mergeStore H1 H2)].
Defined.

(** ** The CSV export read back *)

Section csv.
Implicit Types (s t v b : string) (c : ascii).

Lemma includes_app c s t : includes c (s +:+ t) = includes c s || includes c t.
Proof.
  induction s as [|x s IH]; [done|]. rewrite str_app_cons. cbn [includes].
  by rewrite IH, orb_assoc.
Qed.

Lemma plain_app s t : plain (s +:+ t) = plain s && plain t.
Proof.
  unfold plain. rewrite !includes_app.
  destruct (includes quoteChar s), (includes "," s), (includes newlineChar s),
    (includes quoteChar t), (includes "," t), (includes newlineChar t); done.
Qed.

Lemma plain_cons c s :
  plain (String c s) = true →
  c ≠ quoteChar ∧ c ≠ ","%char ∧ c ≠ newlineChar ∧ plain s = true.
Proof.
  unfold plain. cbn [includes].
  rewrite !andb_true_iff, !negb_true_iff, !orb_false_iff, !bool_decide_eq_false.
  tauto.
Qed.

Lemma doubleQuotes_plain s : includes quoteChar s = false → doubleQuotes s = s.
Proof.
  induction s as [|x s IH]; [done|]. cbn [includes doubleQuotes].
  case_bool_decide; [done|]. cbn. intros Hs. by rewrite IH.
Qed.

(** Both branches of [csvEscape] write the value between quotes, with
    every quote of the value doubled. *)
Lemma csvEscape_form s : csvEscape s = quote +:+ doubleQuotes s +:+ quote.
Proof.
  unfold csvEscape. destruct (includes quoteChar s) eqn:E; [done|].
  rewrite (doubleQuotes_plain s E). by destruct (_ || _).
Qed.

Lemma prefixField_shape b f fs rs :
  prefixField b ((f :: fs) :: rs) = ((b +:+ f) :: fs) :: rs.
Proof. induction b as [|x b IH]; [done|]. cbn [prefixField]. by rewrite IH. Qed.

Lemma parse_after_field t :
  endOfField t →
  parseCsvFrom FieldStart t = parseCsvFrom Bare t ∧
  parseCsvFrom QuoteSeen t = parseCsvFrom Bare t.
Proof.
  destruct t as [|c t]; [done|]. intros [-> | ->]; by cbn.
Qed.

Lemma parse_bare b t :
  plain b = true →
  parseCsvFrom Bare (b +:+ t) = prefixField b <$> parseCsvFrom Bare t.
Proof.
  induction b as [|c b IH]; intros Hb.
  - rewrite str_app_nil_l. cbn [prefixField]. by destruct (parseCsvFrom Bare t).
  - apply plain_cons in Hb as (Hq & Hc & Hn & Hb). rewrite str_app_cons.
    cbn [parseCsvFrom]. rewrite !bool_decide_eq_false_2 by done.
    rewrite IH by done. by destruct (parseCsvFrom Bare t).
Qed.

Lemma parse_start_bare b t :
  plain b = true → endOfField t →
  parseCsvFrom FieldStart (b +:+ t) = prefixField b <$> parseCsvFrom Bare t.
Proof.
  intros Hb Ht. destruct b as [|c b].
  - rewrite str_app_nil_l. cbn [prefixField].
    rewrite (proj1 (parse_after_field t Ht)). by destruct (parseCsvFrom Bare t).
  - apply plain_cons in Hb as (Hq & Hc & Hn & Hb). rewrite str_app_cons.
    cbn [parseCsvFrom]. rewrite !bool_decide_eq_false_2 by done.
    rewrite parse_bare by done. by destruct (parseCsvFrom Bare t).
Qed.

Lemma parse_quoted v t :
  parseCsvFrom Quoted (doubleQuotes v +:+ quote +:+ t)
  = prefixField v <$> parseCsvFrom QuoteSeen t.
Proof.
  induction v as [|c v IH].
  - cbn [doubleQuotes prefixField]. rewrite str_app_nil_l. unfold quote.
    rewrite str_app_cons, str_app_nil_l. cbn [parseCsvFrom].
    rewrite bool_decide_eq_true_2 by done. by destruct (parseCsvFrom QuoteSeen t).
  - cbn [doubleQuotes prefixField]. case_bool_decide as Hc.
    + subst c. rewrite !str_app_cons. cbn [parseCsvFrom].
      rewrite !bool_decide_eq_true_2 by done. rewrite IH.
      by destruct (parseCsvFrom QuoteSeen t).
    + rewrite str_app_cons. cbn [parseCsvFrom].
      rewrite bool_decide_eq_false_2 by done. rewrite IH.
      by destruct (parseCsvFrom QuoteSeen t).
Qed.

Lemma parse_cell (cell : Cell) t :
  cellOk cell = true → endOfField t →
  parseCsvFrom FieldStart (writeCell cell +:+ t)
  = prefixField (cellText cell) <$> parseCsvFrom Bare t.
Proof.
  intros Hok Ht. destruct cell as [s|s]; cbn [writeCell cellText cellOk] in *.
  - by apply parse_start_bare.
  - rewrite csvEscape_form. unfold quote at 1.
    rewrite !str_app_assoc, str_app_cons, str_app_nil_l. cbn [parseCsvFrom].
    rewrite bool_decide_eq_true_2 by done.
    rewrite parse_quoted. by rewrite (proj2 (parse_after_field t Ht)).
Qed.

Lemma writeRows_tail row rows :
  writeRows (row :: rows) = join "," (writeCell <$> row) +:+ rowsTail rows.
Proof.
  unfold writeRows. revert row. induction rows as [|r rows IH]; intros row.
  - cbn. by rewrite str_app_nil_r.
  - change (rowsTail (r :: rows))
      with (newline +:+ join "," (writeCell <$> r) +:+ rowsTail rows).
    rewrite <- (IH r). rewrite !fmap_cons. apply join_cons_cons.
Qed.

Lemma endOfField_rowsTail rows : endOfField (rowsTail rows).
Proof. destruct rows; [done|]. cbn. by right. Qed.

Lemma parse_row (row : list Cell) (rows : list (list Cell)) parsed :
  row ≠ [] → Forall (λ cell : Cell, cellOk cell = true) row →
  parseCsvFrom Bare (rowsTail rows) = Some ([EmptyString] :: parsed) ∨
    (rows = [] ∧ parsed = []) →
  parseCsvFrom FieldStart (join "," (writeCell <$> row) +:+ rowsTail rows)
  = Some ((cellText <$> row) :: parsed).
Proof.
  intros Hne Hok Htail.
  assert (parseCsvFrom Bare (rowsTail rows) = Some ([EmptyString] :: parsed)
          ∨ parseCsvFrom Bare (rowsTail rows) = Some [[EmptyString]] ∧ parsed = [])
    as Ht.
  { destruct Htail as [?|[-> ->]]; [by left | by right]. }
  clear Htail.
  induction row as [|x row IH]; [done|]. clear Hne.
  apply Forall_cons in Hok as [Hc Hok].
  destruct row as [|x2 row].
  - cbn [fmap list_fmap join]. rewrite parse_cell by (done || apply endOfField_rowsTail).
    destruct Ht as [-> | [-> ->]]; cbn; by rewrite prefixField_shape, str_app_nil_r.
  - rewrite !fmap_cons, join_cons_cons, !str_app_assoc.
    rewrite str_app_cons, str_app_nil_l.
    rewrite parse_cell; [|done|by left].
    cbn [parseCsvFrom].
    rewrite bool_decide_eq_false_2 by done. rewrite bool_decide_eq_true_2 by done.
    rewrite <- fmap_cons, IH by done. cbn. by rewrite prefixField_shape, str_app_nil_r.
Qed.

Lemma parse_rowsTail (rows : list (list Cell)) :
  Forall (λ row, row ≠ [] ∧ Forall (λ cell : Cell, cellOk cell = true) row) rows →
  rows = [] ∨ parseCsvFrom Bare (rowsTail rows) = Some ([EmptyString] :: (rowsText rows)).
Proof.
  induction rows as [|row rows IH]; intros Hok; [by left|]. right.
  apply Forall_cons in Hok as [[Hne Hrow] Hok].
  cbn [rowsTail]. unfold newline at 1. rewrite str_app_cons, str_app_nil_l.
  cbn [parseCsvFrom]. rewrite !bool_decide_eq_false_2 by done.
  rewrite bool_decide_eq_true_2 by done.
  rewrite (parse_row row rows (rowsText rows)); [done..|].
  destruct (IH Hok) as [->|H]; [by right | by left].
Qed.

Lemma parseCsv_writeRows (rows : list (list Cell)) :
  rows ≠ [] →
  Forall (λ row, row ≠ [] ∧ Forall (λ cell : Cell, cellOk cell = true) row) rows →
  parseCsv (writeRows rows) = Some (rowsText rows).
Proof.
  destruct rows as [|row rows]; [done|]. intros _ Hok.
  apply Forall_cons in Hok as [[Hne Hrow] Hok].
  unfold parseCsv. rewrite writeRows_tail.
  apply parse_row; [done..|].
  destruct (parse_rowsTail rows Hok) as [->|H]; [by right | by left].
Qed.

End csv.

Section csv_export.

Lemma exportMarkersCsv_writeRows env markers tiers markerTypes videoName annotatorId :
  exportMarkersCsv env markers tiers markerTypes videoName annotatorId None
  = bom +:+ writeRows (csvMarkerCells markers tiers markerTypes videoName annotatorId).
Proof.
  unfold exportMarkersCsv, csvMarkerCells, writeRows. cbv zeta. f_equal. f_equal.
  rewrite app_nil_r, !fmap_app. f_equal. by rewrite <- list_fmap_compose.
Qed.

Lemma includes_pretty_N_go (c : ascii) (x : N) (s : string) :
  (∀ d, (d < 10)%N → pretty_N_char d ≠ c) →
  includes c (pretty_N_go x s) = includes c s.
Proof.
  intros Hc. revert s. induction (N.lt_wf_0 x) as [x _ IH]; intros s.
  destruct (decide (x = 0%N)) as [->|Hx]; [by rewrite pretty_N_go_0|].
  rewrite pretty_N_go_step by lia. rewrite IH by (apply N.div_lt; lia).
  cbn [includes]. rewrite bool_decide_eq_false_2; [done|].
  apply Hc. by apply N.mod_lt.
Qed.

Lemma not_digit (c : ascii) :
  c = quoteChar ∨ c = ","%char ∨ c = newlineChar →
  ∀ d, (d < 10)%N → pretty_N_char d ≠ c.
Proof.
  intros Hc d Hd.
  assert (d = 0 ∨ d = 1 ∨ d = 2 ∨ d = 3 ∨ d = 4 ∨ d = 5 ∨ d = 6 ∨ d = 7 ∨ d = 8 ∨ d = 9)%N
    as Hcases by lia.
  destruct Hc as [-> | [-> | ->]];
    destruct Hcases as [-> | [-> | [-> | [-> | [-> | [-> | [-> | [-> | [-> | ->]]]]]]]]];
    done.
Qed.

Lemma plain_pretty_N (x : N) : plain (pretty x) = true.
Proof.
  unfold pretty, pretty_N. case_decide; [done|].
  unfold plain. rewrite !includes_pretty_N_go by (apply not_digit; tauto). done.
Qed.

Lemma plain_pretty_Z (z : Z) : plain (pretty z) = true.
Proof.
  destruct z as [|p|p]; [done| apply (plain_pretty_N (N.pos p)) |].
  unfold pretty, pretty_Z. rewrite plain_app.
  by rewrite (plain_pretty_N (N.pos p) : plain (pretty p) = true).
Qed.

Lemma plain_stringOfInt z : plain (stringOfInt z) = true.
Proof. apply plain_pretty_Z. Qed.

Lemma plain_toFixed3 z : plain (toFixed3 z) = true.
Proof.
  unfold toFixed3, pad3. rewrite !plain_app, !plain_pretty_Z.
  by repeat case_match.
Qed.

Lemma csvMarkerCells_ok markers tiers markerTypes videoName annotatorId :
  Forall (λ row, row ≠ [] ∧ Forall (λ cell : Cell, cellOk cell = true) row)
    (csvMarkerCells markers tiers markerTypes videoName annotatorId).
Proof.
  unfold csvMarkerCells. cbv zeta. rewrite !Forall_app. split_and!.
  - apply Forall_singleton. split; [done|]. by repeat constructor.
  - apply Forall_fmap, Forall_forall. intros m _. split; [done|].
    repeat constructor; cbn [cellOk]; auto using plain_stringOfInt, plain_toFixed3.
Qed.

End csv_export.


(** X18.  A field written by [csvEscape] is read back as the value it
    was given, whatever the value holds (commas, double quotes, newlines);
    two values never give the same field. *)
Theorem csvEscape_reads_back (value : string) :
  parseCsv (csvEscape value) = Some [[value]] ∧
  ∀ other, csvEscape other = csvEscape value → other = value.
Proof.
  assert (∀ v, parseCsv (csvEscape v) = Some [[v]]) as Hparse.
  { intros v. apply (parseCsv_writeRows [[Esc v]]); [done|].
    apply Forall_singleton. split; [done|]. by apply Forall_singleton. }
  split; [done|].
  intros other Heq. pose proof (Hparse other) as Ho. rewrite Heq, Hparse in Ho.
  by injection Ho.
Qed.

(** X19.  Given no spans (none, or an empty list),
    [exportMarkersCsv] writes the byte order mark and a text that reads
    back as a table: the header row, then one row for each confirmed
    marker in the order of [sortByTime], with the video name, the time in
    milliseconds and in seconds, the names of the tier and the type (empty
    when the id is unknown) and the annotator (empty when there is none),
    each text exactly as it went in. *)
Theorem exportMarkersCsv_parses (env : Env) (markers : list Marker.t) (tiers : list Tier.t)
    (markerTypes : list MarkerType.t) (videoName : string) (annotatorId : option string) :
  ∃ body,
    exportMarkersCsv env markers tiers markerTypes videoName annotatorId None
      = bom +:+ body ∧
    exportMarkersCsv env markers tiers markerTypes videoName annotatorId (Some [])
      = bom +:+ body ∧
    parseCsv body = Some (csvMarkerTable markers tiers markerTypes videoName annotatorId).
Proof.
  exists (writeRows (csvMarkerCells markers tiers markerTypes videoName annotatorId)).
  split_and!; [apply (exportMarkersCsv_writeRows env).. |].
  apply parseCsv_writeRows; [|apply csvMarkerCells_ok].
  unfold csvMarkerCells. cbv zeta. done.
Qed.


(** ** The order of the markers list *)

Section map_of.
Context {V : Type}.
Implicit Types (l : list (string * V)) (acc : gmap string V) (k : string).

Local Abbreviation put := (λ (m : gmap string V) (kv : string * V), <[ kv.1 := kv.2 ]> m).

Lemma foldl_put_other l acc k :
  k ∉ l.*1 → foldl put acc l !! k = acc !! k.
Proof.
  revert acc. induction l as [|[k' v'] l IH]; intros acc Hk; [done|].
  rewrite fmap_cons, not_elem_of_cons in Hk. destruct Hk as [Hne Hk].
  cbn [foldl]. rewrite IH by done. cbn. by rewrite lookup_insert_ne.
Qed.

Lemma foldl_put_elem l acc k v :
  NoDup l.*1 → (k, v) ∈ l → foldl put acc l !! k = Some v.
Proof.
  revert acc. induction l as [|[k' v'] l IH]; intros acc Hnd Hin;
    [by apply elem_of_nil in Hin|].
  rewrite fmap_cons in Hnd. apply NoDup_cons in Hnd as [Hk' Hnd].
  cbn [foldl]. apply elem_of_cons in Hin as [[= <- <-]|Hin].
  - rewrite foldl_put_other by done. cbn. by rewrite lookup_insert_eq.
  - by apply IH.
Qed.

Lemma foldl_put_is_Some l acc k :
  is_Some (foldl put acc l !! k) ↔ is_Some (acc !! k) ∨ k ∈ l.*1.
Proof.
  revert acc. induction l as [|[k' v'] l IH]; intros acc.
  - cbn. rewrite elem_of_nil. tauto.
  - cbn [foldl]. rewrite IH, fmap_cons, elem_of_cons. cbn.
    destruct (decide (k = k')) as [->|Hne].
    + rewrite lookup_insert_eq. split; [tauto|]. intros _. left. eauto.
    + rewrite lookup_insert_ne by done. tauto.
Qed.

Lemma mapOf_perm l l' : NoDup l.*1 → l ≡ₚ l' → mapOf l = mapOf l'.
Proof.
  intros Hnd Hp. apply map_eq. intros k. unfold mapOf.
  assert (NoDup l'.*1) as Hnd' by by rewrite <- Hp.
  destruct (decide (k ∈ l.*1)) as [Hin|Hout].
  - apply list_elem_of_fmap in Hin as ([k0 v] & -> & Hin). cbn.
    rewrite (foldl_put_elem l ∅ k0 v) by done.
    rewrite (foldl_put_elem l' ∅ k0 v); [done..|]. by rewrite <- Hp.
  - rewrite foldl_put_other by done. rewrite foldl_put_other; [done|]. by rewrite <- Hp.
Qed.

End map_of.

Section export_order.
Implicit Types (ms : list Marker.t).

Lemma List_filter_perm {A} (p : A → bool) (l l' : list A) :
  l ≡ₚ l' → List.filter p l ≡ₚ List.filter p l'.
Proof.
  induction 1 as [|x l l' Hp IH|x y l|l1 l2 l3 H1 IH1 H2 IH2]; cbn.
  - done.
  - destruct (p x); [by constructor | done].
  - destruct (p x), (p y); try done. apply Permutation_swap.
  - by etrans.
Qed.

Lemma strictly_sorted ms :
  pairwise (λ a b, earlierFirst a b = true) ms → NoDup (Marker.time <$> ms) →
  pairwise (λ a b, Marker.time a < Marker.time b) ms.
Proof.
  induction ms as [|x ms IH]; [done|]. intros [Hx Hs] Hnd.
  rewrite fmap_cons in Hnd. apply NoDup_cons in Hnd as [Hx' Hnd].
  split; [|by apply IH]. rewrite Forall_forall in Hx |- *. intros y Hy.
  specialize (Hx y Hy). unfold earlierFirst in Hx.
  assert (Marker.time x ≠ Marker.time y); [|lia].
  intros Heq. apply Hx'. rewrite Heq. by apply list_elem_of_fmap_2.
Qed.

Lemma strictly_sorted_unique (l1 l2 : list Marker.t) :
  pairwise (λ a b, Marker.time a < Marker.time b) l1 →
  pairwise (λ a b, Marker.time a < Marker.time b) l2 →
  l1 ≡ₚ l2 → l1 = l2.
Proof.
  revert l2. induction l1 as [|x l1 IH]; intros l2 H1 H2 Hp.
  - by apply Permutation_nil_l in Hp.
  - destruct l2 as [|y l2]; [by apply Permutation_nil_r in Hp|].
    destruct H1 as [Hx H1], H2 as [Hy H2].
    assert (x = y) as ->.
    { assert (x ∈ y :: l2) as Hxin by (rewrite <- Hp; left).
      assert (y ∈ x :: l1) as Hyin by (rewrite Hp; left).
      apply elem_of_cons in Hxin as [?|Hxin]; [done|].
      apply elem_of_cons in Hyin as [?|Hyin]; [done|].
      rewrite Forall_forall in Hx, Hy.
      specialize (Hx y Hyin). specialize (Hy x Hxin). lia. }
    f_equal. apply IH; [done..|]. by apply Permutation_cons_inv in Hp.
Qed.

Lemma sortByTime_perm_eq ms ms' :
  NoDup (Marker.time <$> ms) → ms ≡ₚ ms' → sortByTime ms = sortByTime ms'.
Proof.
  intros Hnd Hp. rewrite !sortByTime_sortBy.
  apply strictly_sorted_unique.
  - apply strictly_sorted.
    + apply sortBy_sorted; [apply earlierFirst_total | apply earlierFirst_trans].
    + by rewrite sortBy_perm.
  - apply strictly_sorted.
    + apply sortBy_sorted; [apply earlierFirst_total | apply earlierFirst_trans].
    + by rewrite sortBy_perm, <- Hp.
  - by rewrite !sortBy_perm.
Qed.

End export_order.


(** X20.  The exports do not depend on the order of the markers
    list: for two lists with the same markers, with unique ids and no two
    confirmed markers at the same time, [exportAnnotationsJson] returns the
    same string for both (read at the same time), and so does
    [exportMarkersCsv] without spans. *)
Theorem exports_ignore_marker_order (env : Env) (markers markers' : list Marker.t)
    (spans : list Span.t) (tiers : list Tier.t) (markerTypes : list MarkerType.t)
    (videoName : string) (annotator version : option string) :
  markers ≡ₚ markers' →
  NoDup (Marker.id <$> markers) →
  NoDup (Marker.time <$> List.filter Marker.confirmed markers) →
  exportAnnotationsJson env markers spans tiers markerTypes videoName annotator version
    = exportAnnotationsJson env markers' spans tiers markerTypes videoName annotator version ∧
  exportMarkersCsv env markers tiers markerTypes videoName annotator None
    = exportMarkersCsv env markers' tiers markerTypes videoName annotator None.
Proof.
  intros Hp Hids Htimes.
  assert (sortByTime (List.filter Marker.confirmed markers)
          = sortByTime (List.filter Marker.confirmed markers')) as Hsort.
  { apply sortByTime_perm_eq; [done|]. by apply List_filter_perm. }
  assert (mapOf ((λ m, (Marker.id m, m)) <$> markers)
          = mapOf ((λ m, (Marker.id m, m)) <$> markers')) as Hmap.
  { apply mapOf_perm; [|by apply fmap_Permutation].
    by rewrite <- list_fmap_compose. }
  unfold exportAnnotationsJson, exportMarkersCsv. cbv zeta.
  by rewrite Hsort, Hmap.
Qed.

Lemma exports_ignore_marker_order_witness :
  holdMarkers ≡ₚ reverse holdMarkers ∧
  NoDup (Marker.id <$> holdMarkers) ∧
  NoDup (Marker.time <$> List.filter Marker.confirmed holdMarkers) ∧
  exportAnnotationsJson (mkEnv "2026-01-01T00:00:00.000Z") holdMarkers
      (spans (get holdStore)) [] [] "clip.mp4" None None
    = exportAnnotationsJson (mkEnv "2026-01-01T00:00:00.000Z") (reverse holdMarkers)
        (spans (get holdStore)) [] [] "clip.mp4" None None ∧
  exportMarkersCsv (mkEnv "2026-01-01T00:00:00.000Z") holdMarkers [] [] "clip.mp4" None None
    = exportMarkersCsv (mkEnv "2026-01-01T00:00:00.000Z") (reverse holdMarkers) [] []
        "clip.mp4" None None.
Proof.
  assert (holdMarkers ≡ₚ reverse holdMarkers) as H1
    by (symmetry; apply reverse_Permutation).
  assert (NoDup (Marker.id <$> holdMarkers)) as H2
    by (apply (bool_decide_unpack _); vm_compute; exact I).
  assert (NoDup (Marker.time <$> List.filter Marker.confirmed holdMarkers)) as H3
    by (apply (bool_decide_unpack _); vm_compute; exact I).
  split_and!; [exact H1 | exact H2 | exact H3 | |].
  - exact (proj1 (exports_ignore_marker_order (mkEnv "2026-01-01T00:00:00.000Z")
             holdMarkers (reverse holdMarkers) (spans (get holdStore)) [] []
             "clip.mp4" None None H1 H2 H3)).
  - exact (proj2 (exports_ignore_marker_order (mkEnv "2026-01-01T00:00:00.000Z")
             holdMarkers (reverse holdMarkers) (spans (get holdStore)) [] []
             "clip.mp4" None None H1 H2 H3)).
Defined.

(** ** Spans without an anchor in the export *)

Lemma markerMap_is_Some (ms : list Marker.t) (i : string) :
  is_Some (mapOf ((λ m, (Marker.id m, m)) <$> ms) !! i) ↔ is_Some (findMarker ms i).
Proof.
  unfold mapOf. rewrite foldl_put_is_Some, lookup_empty, findMarker_is_Some.
  rewrite <- list_fmap_compose. split; [intros [[? [=]]|?]; done | by right].
Qed.

Lemma List_filter_filter {A} (p : A → bool) (P : A → Prop) `{!∀ x, Decision (P x)}
    (l : list A) :
  (∀ x, p x = true → P x) → List.filter p (filter P l) = List.filter p l.
Proof.
  intros Hp. induction l as [|x l IH]; [done|]. rewrite filter_cons.
  destruct (decide (P x)) as [HP|HP]; cbn; rewrite IH; [done|].
  destruct (p x) eqn:E; [|done]. by destruct HP; apply Hp.
Qed.

(** X21.  [exportAnnotationsJson] leaves out the spans that lack
    an anchor in the markers list it is given: its output is the output
    for the spans list without them. *)
Theorem exportAnnotationsJson_drops_dangling (env : Env) (markers : list Marker.t)
    (spans : list Span.t) (tiers : list Tier.t) (markerTypes : list MarkerType.t)
    (videoName : string) (annotator version : option string) :
  exportAnnotationsJson env markers spans tiers markerTypes videoName annotator version
  = exportAnnotationsJson env markers
      (filter (λ sp, is_Some (interval markers sp)) spans)
      tiers markerTypes videoName annotator version.
Proof.
  unfold exportAnnotationsJson. cbv zeta.
  rewrite (List_filter_filter _ (λ sp, is_Some (interval markers sp))); [done|].
  intros sp. rewrite andb_true_iff, !bool_decide_eq_true, !markerMap_is_Some.
  unfold interval. intros [[x ->] [y ->]]. eauto.
Qed.

(** ** The pending and the selected marker *)

Section refs.
Implicit Types (st : Store) (s : AnnotationState) (ms : list Marker.t).

Lemma resolves_fmap (f : Marker.t → Marker.t) ms ref :
  (∀ m, Marker.id (f m) = Marker.id m) → resolves ms ref → resolves (f <$> ms) ref.
Proof. intros Hf. destruct ref as [i|]; [|done]. cbn. by rewrite is_Some_findMarker_fmap. Qed.

Lemma RefsResolve_mapMarkers (f : Marker.t → Marker.t) s :
  (∀ m, Marker.id (f m) = Marker.id m) → RefsResolve s → RefsResolve (mapMarkers f s).
Proof.
  intros Hf [Hp Hs]. unfold RefsResolve, mapMarkers.
  cbn [markers pendingMarkerId selectedMarkerId]. split; by apply resolves_fmap.
Qed.

Lemma resolves_filter_ne ms ref j :
  resolves ms ref →
  resolves (filter (λ m, Marker.id m ≠ j) ms)
    (if bool_decide (ref = Some j) then None else ref).
Proof.
  intros Hr. case_bool_decide as Hj; [done|]. destruct ref as [i|]; [|done]. cbn in *.
  rewrite findMarker_filter_ne, decide_False; [done|]. congruence.
Qed.

(** An operation that keeps the references valid leaves the store as it
    is, or hands [set] a patch after which both references resolve: the
    clean-up that follows has nothing to clear. *)
Lemma perform_keeps_refs a st :
  keepsRefs a = true → RefsResolve (get st) →
  perform a st = st ∨ ∃ f, perform a st = set f st ∧ RefsResolve (f (get st)).
Proof.
  intros Ha Hinv. destruct a; try discriminate Ha; cbn [perform].
  - right. eexists. split; [reflexivity|]. unfold RefsResolve.
    cbn [markers pendingMarkerId selectedMarkerId resolves].
    rewrite findMarker_app.
    assert (is_Some (match findMarker (markers (get st)) (generateId "m" uuid) with
                     | Some m => Some m
                     | None => findMarker
                         [Marker.mk (generateId "m" uuid) time EmptyString tierId videoId
                            false None] (generateId "m" uuid)
                     end)); [|done].
    destruct (findMarker (markers (get st)) _); [done|].
    unfold findMarker. cbn [List.find Marker.id]. by rewrite bool_decide_eq_true_2.
  - unfold confirmMarker. cbv zeta.
    destruct (findMarker (markers (get st)) markerId) as [marker|]; [|by left].
    right. eexists. split; [reflexivity|]. destruct Hinv as [Hp Hs]. unfold RefsResolve.
    cbn [markers pendingMarkerId selectedMarkerId]. split.
    + case_bool_decide; [done|]. apply resolves_fmap; [|done].
      intros m. by repeat case_match.
    + apply resolves_fmap; [|done]. intros m. by repeat case_match.
  - unfold cancelPendingMarker.
    destruct (pendingMarkerId (get st)) as [p|] eqn:Ep; [|by left].
    destruct (truthy p); [|by left]. right. eexists. split; [reflexivity|].
    destruct Hinv as [Hp Hs].
    unfold RefsResolve. cbn [markers pendingMarkerId selectedMarkerId]. split; [done|].
    by apply resolves_filter_ne.
  - right. eexists. split; [reflexivity|]. destruct Hinv as [Hp Hs].
    unfold RefsResolve. cbn [markers pendingMarkerId selectedMarkerId].
    split; by apply resolves_filter_ne.
  - right. eexists. split; [reflexivity|]. apply RefsResolve_mapMarkers; [|done].
    intros m. by case_bool_decide.
  - right. eexists. split; [reflexivity|]. apply RefsResolve_mapMarkers; [|done].
    intros m. by case_bool_decide.
  - right. eexists. split; [reflexivity|]. apply RefsResolve_mapMarkers; [|done].
    intros m. by case_bool_decide.
  - right. eexists. split; [reflexivity|]. apply RefsResolve_mapMarkers; [|done].
    intros m. by destruct (_ && _).
  - right. eexists. split; [reflexivity|]. apply RefsResolve_mapMarkers; [|done].
    intros m. by case_bool_decide.
  - destruct (addSpan_cases st uuid span) as [->|(a & _ & _ & ->)]; [by left|].
    right. eexists. split; [reflexivity|]. exact Hinv.
  - right. eexists. split; [reflexivity|]. exact Hinv.
  - right. eexists. split; [reflexivity|]. exact Hinv.
  - right. eexists. split; [reflexivity|]. exact Hinv.
Qed.

Lemma RefsResolve_perform a st :
  keepsRefs a = true → RefsResolve (get st) → RefsResolve (get (perform a st)).
Proof.
  intros Ha Hinv. destruct (perform_keeps_refs a st Ha Hinv) as [->|(f & -> & Hf)]; [done|].
  by rewrite get_set_resolved.
Qed.

End refs.

(** ** Undo and redo when the references resolve *)

(** X27.  In a store reached from the initial one by operations,
    undos and redos, whose selected and pending reference each name a
    marker or are null, let [a] be an operation other than [mergeSpans],
    [clearOverlappingSpans], [clearVideoAnnotations] and [setMarkers] that
    changes the store.  The clean-up after its [set] has nothing to clear,
    so one snapshot is recorded, the (markers, spans) projection of the
    state before [a]: [a] followed by [undo] gives back the markers and
    spans of before, and [a], [undo], [redo] gives those [a] produced.
    The history holds at most 100 past snapshots. *)
Theorem undo_restores_with_resolved_refs (hs : list HistoryStep) (a : Action) :
  let st := runSteps hs initialStore in
  let st1 := perform a st in
  keepsRefs a = true →
  RefsResolve (get st) →
  st1 ≠ st →
  partialize (get (undo st1)) = partialize (get st) ∧
  partialize (get (redo (undo st1))) = partialize (get st1) ∧
  last (pastStates st1) = Some (mkSnapshot (markers (get st)) (spans (get st))) ∧
  (length (pastStates st1) ≤ 100)%nat.
Proof.
  intros st st1 Ha Hrefs Hmut.
  assert (HistoryBounded st) as Hb
    by (apply HistoryBounded_runSteps; unfold HistoryBounded, limit; simpl; lia).
  assert (HistoryBounded st1) as Hb1 by by apply HistoryBounded_perform.
  destruct (perform_keeps_refs a st Ha Hrefs) as [Hsame|(f & Hset & Hf)]; [done|].
  unfold st1 in *. rewrite Hset in *.
  rewrite (set_settled f st (RefsResolve_settled _ Hf)) in *.
  unfold undo. cbn [pastStates futureStates get]. rewrite last_record.
  unfold redo. cbn [pastStates futureStates get app last].
  split_and!.
  - apply partialize_restore.
  - by rewrite !partialize_restore.
  - done.
  - unfold HistoryBounded, limit in Hb1. cbn [pastStates] in Hb1. lia.
Qed.

Lemma undo_restores_with_resolved_refs_witness :
  let st := runSteps nudgeSession initialStore in
  let st1 := perform (NudgeMarker "m_u1" 10 10000) st in
  keepsRefs (NudgeMarker "m_u1" 10 10000) = true ∧
  RefsResolve (get st) ∧
  st1 ≠ st ∧
  Marker.time <$> markers (get st1) = [510] ∧
  Marker.time <$> markers (get (undo st1)) = [500] ∧
  partialize (get (undo st1)) = partialize (get st) ∧
  partialize (get (redo (undo st1))) = partialize (get st1).
Proof.
  cbv zeta.
  assert (RefsResolve (get (runSteps nudgeSession initialStore))) as H0
    by (apply (bool_decide_unpack _); vm_compute; exact I).
  assert (perform (NudgeMarker "m_u1" 10 10000) (runSteps nudgeSession initialStore)
          ≠ runSteps nudgeSession initialStore) as H
    by (apply (bool_decide_unpack _); vm_compute; exact I).
  destruct (undo_restores_with_resolved_refs nudgeSession (NudgeMarker "m_u1" 10 10000) eq_refl H0 H)
    as (H1 & H2 & _).
  split_and!; [reflexivity | exact H0 | exact H | reflexivity | reflexivity
              | exact H1 | exact H2].
Defined.


(** X22.  The pending and the selected marker reference stay
    valid: when each is null or the id of a marker in the list, this still
    holds after any sequence of mutating operations other than
    [mergeSpans], [clearOverlappingSpans], [clearVideoAnnotations] and
    [setMarkers] (which take markers away, or replace them, without
    looking at the two references). *)
Theorem marker_refs_resolve (acts : list Action) (st : Store) :
  Forall (λ a, keepsRefs a = true) acts →
  RefsResolve (get st) →
  RefsResolve (get (performAll acts st)).
Proof.
  revert st. induction acts as [|a acts IH]; intros st Hacts Hinv; [done|].
  apply Forall_cons in Hacts as [Ha Hacts]. cbn. apply IH; [done|].
  by apply RefsResolve_perform.
Qed.

Lemma marker_refs_resolve_witness :
  Forall (λ a, keepsRefs a = true) editSession ∧
  RefsResolve (get initialStore) ∧
  RefsResolve (get (performAll editSession initialStore)).
Proof.
  assert (Forall (λ a, keepsRefs a = true) editSession) as H1
    by (apply (bool_decide_unpack _); vm_compute; exact I).
  assert (RefsResolve (get initialStore)) as H2
    by (apply (bool_decide_unpack _); vm_compute; exact I).
  split_and!; [exact H1 | exact H2 | exact (marker_refs_resolve editSession initialStore H1 H2)].
Defined.

(** ** Merging and clearing with unshared anchors *)

Section span_ops_anchors.
Implicit Types (st : Store) (s : AnnotationState).

Lemma NoDangling_mergeSpans keepId removeId st :
  ExclusiveAnchors (get st) → NoDangling (get st) →
  NoDangling (get (mergeSpans keepId removeId st).2).
Proof.
  intros Hex Hinv.
  destruct (mergeSpans_cases st keepId removeId)
    as [->|(keep & remove & ks & ke & rs & re & Hk & Hr & Hks & Hke & Hrs & Hre & _ & ->)];
    [done|].
  cbn [snd]. rewrite get_set. unfold NoDangling, mergeCommit in *. cbv zeta.
  cbn [markers spans].
  set (first := bool_decide _).
  set (fs := if first then Span.startMarkerId keep else Span.startMarkerId remove).
  set (fe := if first then Span.endMarkerId remove else Span.endMarkerId keep).
  set (R := _ ∖ _ ∖ _).
  apply findSpan_Some in Hk as [Hkin Hkid]. apply findSpan_Some in Hr as [Hrin Hrid].
  assert (fs ∉ R) as Hfs by (unfold R; elem_of_sets).
  assert (fe ∉ R) as Hfe by (unfold R; elem_of_sets).
  assert (is_Some (findMarker (markers (get st)) fs)) as Hfs'
    by (unfold fs; destruct first; eauto).
  assert (is_Some (findMarker (markers (get st)) fe)) as Hfe'
    by (unfold fe; destruct first; eauto).
  assert (∀ i, i ∈ R → i ∈ anchors keep ∨ i ∈ anchors remove) as HR.
  { intros i. unfold R. destruct first; elem_of_sets. }
  apply Forall_fmap, Forall_forall. intros X HX.
  apply list_elem_of_filter in HX as [HXr HX]. unfold compose.
  rewrite Forall_forall in Hinv. specialize (Hinv X HX).
  case_bool_decide as HXk.
  - cbn [Span.with_anchors Span.startMarkerId Span.endMarkerId].
    rewrite !findMarker_filter, !decide_False by done. done.
  - assert (∀ i, i ∈ anchors X → i ∉ R) as Hout.
    { intros i Hi HiR. destruct (HR i HiR) as [Hik|Hir].
      - apply HXk. rewrite <- Hkid. f_equal.
        by apply (exclusive_anchor (get st) X keep i).
      - apply HXr. rewrite <- Hrid. f_equal.
        by apply (exclusive_anchor (get st) X remove i). }
    rewrite !findMarker_filter, !decide_False; [done|..]; apply Hout, elem_of_anchors; auto.
Qed.

Lemma NoDangling_clearOverlappingSpans startMs endMs tierId videoId st :
  ExclusiveAnchors (get st) → NoDangling (get st) →
  NoDangling (get (clearOverlappingSpans startMs endMs tierId videoId st)).
Proof.
  intros Hex Hinv. unfold NoDangling in *. rewrite clear_spans.
  apply Forall_forall. intros X HX. apply list_elem_of_filter in HX as [HXid HX].
  rewrite Forall_forall in Hinv. specialize (Hinv X HX).
  assert (∀ i, i ∈ anchors X →
    i ∉ removeMarkerIds (foldl (clearStep (get st) startMs endMs tierId videoId)
                           noClearing (spans (get st)))) as Hout.
  { intros i Hi Hrm. apply loop_removeMarkerIds in Hrm as [Hrm|(z & Hz & Ha & Hiz)].
    - cbn in Hrm. by apply elem_of_empty in Hrm.
    - assert (X = z) as -> by by apply (exclusive_anchor (get st) X z i).
      apply HXid. apply loop_removeSpanIds. right. eauto. }
  rewrite !findMarker_cleared, !decide_False by (apply Hout, elem_of_anchors; auto).
  destruct Hinv as [[x ->] [y ->]]. split; eauto.
Qed.

End span_ops_anchors.


(** X23.  In a store where no marker anchors two spans and every
    span has its two anchors, every span still has them after
    [mergeSpans] and after [clearOverlappingSpans], whatever the
    arguments: the markers these two delete are anchors of the spans they
    delete or rewrite. *)
Theorem span_operations_keep_anchors (st : Store) :
  ExclusiveAnchors (get st) → NoDangling (get st) →
  (∀ keepId removeId, NoDangling (get (mergeSpans keepId removeId st).2)) ∧
  (∀ startMs endMs tierId videoId,
     NoDangling (get (clearOverlappingSpans startMs endMs tierId videoId st))).
Proof.
  intros Hex Hinv. split.
  - intros keepId removeId. by apply NoDangling_mergeSpans.
  - intros startMs endMs tierId videoId. by apply NoDangling_clearOverlappingSpans.
Qed.

Lemma span_operations_keep_anchors_witness :
  ExclusiveAnchors (get holdStore) ∧ NoDangling (get holdStore) ∧
  (∀ keepId removeId, NoDangling (get (mergeSpans keepId removeId holdStore).2)) ∧
  (∀ startMs endMs tierId videoId,
     NoDangling (get (clearOverlappingSpans startMs endMs tierId videoId holdStore))).
Proof.
  assert (ExclusiveAnchors (get holdStore)) as H1
    by (apply (bool_decide_unpack _); vm_compute; exact I).
  assert (NoDangling (get holdStore)) as H2
    by (apply (bool_decide_unpack _); vm_compute; exact I).
  split; [exact H1|]. split; [exact H2|].
  exact (span_operations_keep_anchors holdStore H1 H2).
Defined.

(** ** Releasing a held key *)

Section hold.
Implicit Types (st : Store) (s : AnnotationState).

Lemma find_app_skip {A} (p : A → bool) (l : list A) (x : A) :
  (∀ y, y ∈ l → p y = false) → p x = true → List.find p (l ++ [x]) = Some x.
Proof.
  intros Hl Hx. induction l as [|y l IH]; cbn.
  - by rewrite Hx.
  - rewrite (Hl y) by left. apply IH. intros z Hz. apply Hl. by right.
Qed.

Lemma truthy_generateId_sp uuid : truthy (generateId "sp" uuid) = true.
Proof. reflexivity. Qed.

Lemma not_anchor_not_removed st startMs endMs tierId videoId i :
  Forall (λ sp, i ∉ anchors sp) (spans (get st)) →
  findMarker (markers (get (clearOverlappingSpans startMs endMs tierId videoId st))) i
  = findMarker (markers (get st)) i.
Proof.
  intros Hi. rewrite Forall_forall in Hi. rewrite findMarker_cleared.
  rewrite decide_False.
  - destruct (findMarker (markers (get st)) i) as [m|] eqn:Em; [|done].
    apply findMarker_Some in Em as [_ Hid]. cbn [fmap option_fmap option_map].
    rewrite Hid, loop_update_none.
    + cbn. by rewrite lookup_empty.
    + intros z u Hz Ha. apply action_Trim_anchor in Ha. by apply (Hi z).
  - intros Hrm. apply loop_removeMarkerIds in Hrm as [Hrm|(z & Hz & _ & Hiz)].
    + cbn in Hrm. by apply elem_of_empty in Hrm.
    + by apply (Hi z).
Qed.

End hold.

(** X24.  Releasing a key held for 20 ms or more, when no existing span
    is being extended: provided the id drawn for the end marker is new and
    neither it nor the marker of the key press anchors a span, and no
    marker anchors two spans of the track, the span from the press to the
    release is created, last in the list, with the interval from the
    earlier to the later of the two times, and is the selected span; every
    other span of the track that is left lies outside that interval. *)
Theorem finalizeHold_creates_span (handleEndMarkerPairing : Store → Store)
    (uuidMarker uuidSpan : string) (endTimeMs : Z)
    (hold : HoldState) (tiers : list Tier.t) (markerTypes : list MarkerType.t)
    (st : Store) (startMarker : Marker.t) :
  let startId := hold_startMarkerId hold in
  let endId := generateId "m" uuidMarker in
  let tierId := hold_tierId hold in
  let videoId := hold_videoId hold in
  let lo := Z.min (Marker.time startMarker) endTimeMs in
  let hi := Z.max (Marker.time startMarker) endTimeMs in
  let newSpan :=
    Span.mk (generateId "sp" uuidSpan)
      (if Marker.time startMarker <=? endTimeMs then startId else endId)
      (if Marker.time startMarker <=? endTimeMs then endId else startId)
      tierId videoId EmptyString in
  findMarker (markers (get st)) startId = Some startMarker →
  truthy_opt (hold_existingSpanId hold) = false →
  20 ≤ Z.abs (endTimeMs - Marker.time startMarker) →
  endId ∉ Marker.id <$> markers (get st) →
  Forall (λ sp, (startId ∉ anchors sp) ∧ (endId ∉ anchors sp)) (spans (get st)) →
  ExclusiveWithin tierId videoId (get st) →
  let st' := finalizeHold handleEndMarkerPairing uuidMarker uuidSpan endTimeMs hold tiers markerTypes st in
  last (spans (get st')) = Some newSpan ∧
  interval (markers (get st')) newSpan = Some (lo, hi) ∧
  selectedSpanId (get st') = Some (Span.id newSpan) ∧
  selectedMarkerId (get st') = None ∧
  Forall (λ sp, sp = newSpan ∨ avoids (markers (get st')) tierId videoId (lo, hi) sp)
    (spans (get st')).
Proof.
  intros startId endId tierId videoId lo hi newSpan Hstart Hnoext Hheld Hfresh Hanch Hexcl st'.
  set (ty := holdEndTypeId hold tiers markerTypes).
  set (st1 := (placeMarker uuidMarker endTimeMs tierId videoId st).2).
  set (eM := Marker.mk endId endTimeMs EmptyString tierId videoId false None).
  assert (markers (get st1) = markers (get st) ++ [eM] ∧ spans (get st1) = spans (get st))
    as [Hms1 Hsps1].
  { unfold st1, placeMarker. cbn [snd]. by rewrite get_set. }
  assert (findMarker (markers (get st)) endId = None) as HendNone.
  { apply eq_None_not_Some. by rewrite findMarker_is_Some. }
  assert (startId ≠ endId) as Hne.
  { intros Heq. rewrite Heq, HendNone in Hstart. done. }
  assert (findMarker (markers (get st1)) endId = Some eM) as Hend1.
  { rewrite Hms1, findMarker_app, HendNone. unfold findMarker. cbn [List.find Marker.id eM].
    by rewrite bool_decide_eq_true_2. }
  assert (findMarker (markers (get st1)) startId = Some startMarker) as Hstart1.
  { by rewrite Hms1, findMarker_app, Hstart. }
  set (st2 := confirmMarker endId ty st1).
  destruct (confirmMarker_markers st1 endId ty eM Hend1) as [Hms2 Hsps2].
  fold st2 in Hms2, Hsps2.
  assert (∀ m, Marker.id ((λ m, if bool_decide (Marker.id m = endId)
                                then Marker.confirm ty m
                                else if bool_decide (snappedId (get st1) eM = Some (Marker.id m))
                                then Marker.with_time (Marker.time eM) m else m) m)
               = Marker.id m) as Hfid.
  { intros m. cbn beta. by repeat case_bool_decide. }
  assert (findMarker (markers (get st2)) endId = Some (Marker.confirm ty eM)) as Hend2.
  { rewrite Hms2, findMarker_fmap, Hend1 by exact Hfid. cbn [fmap option_fmap option_map].
    cbn [Marker.id eM]. by rewrite bool_decide_eq_true_2. }
  assert (findMarker (markers (get st2)) startId = Some startMarker) as Hstart2.
  { rewrite Hms2, findMarker_fmap, Hstart1 by exact Hfid. cbn [fmap option_fmap option_map].
    apply findMarker_Some in Hstart as [_ Hid]. rewrite Hid.
    rewrite (bool_decide_eq_false_2 _ Hne).
    rewrite bool_decide_eq_false_2; [done|].
    intros Hsnap. apply snappedId_Some in Hsnap as (S & HS & _ & HSe).
    rewrite Hsps1 in HS. rewrite Forall_forall in Hanch.
    destruct (Hanch S HS) as [Hs _]. apply Hs, elem_of_anchors. by right. }
  assert (spans (get st2) = spans (get st)) as Hsps2' by by rewrite Hsps2.
  set (st3 := clearOverlappingSpans lo hi tierId videoId st2).
  assert (findMarker (markers (get st3)) startId = Some startMarker) as Hstart3.
  { unfold st3. rewrite not_anchor_not_removed; [done|]. rewrite Hsps2'.
    eapply Forall_impl; [exact Hanch|]. by intros sp [? _]. }
  assert (findMarker (markers (get st3)) endId = Some (Marker.confirm ty eM)) as Hend3.
  { unfold st3. rewrite not_anchor_not_removed; [done|]. rewrite Hsps2'.
    eapply Forall_impl; [exact Hanch|]. by intros sp [_ ?]. }
  assert (Forall (avoids (markers (get st3)) tierId videoId (lo, hi)) (spans (get st3)))
    as Hav.
  { apply cleared_avoids. unfold ExclusiveWithin. by rewrite Hsps2'. }
  set (span := NewSpan.mk (Span.startMarkerId newSpan) (Span.endMarkerId newSpan)
                 tierId videoId EmptyString).
  assert (newInterval (markers (get st3)) span = Some (lo, hi)) as Hnew.
  { unfold newInterval, span, newSpan.
    cbn [NewSpan.startMarkerId NewSpan.endMarkerId Span.startMarkerId Span.endMarkerId].
    destruct (Marker.time startMarker <=? endTimeMs) eqn:Ele.
    - rewrite Hstart3, Hend3. done.
    - rewrite Hstart3, Hend3. cbn [Marker.confirm Marker.time eM]. unfold lo, hi.
      f_equal. f_equal; lia. }
  pose proof (addSpan_accepts st3 uuidSpan span (lo, hi) Hnew Hav) as Hadd.
  assert (∀ y, y ∈ spans (get st3) →
            bool_decide (Span.startMarkerId y = Span.startMarkerId newSpan)
            && bool_decide (Span.endMarkerId y = Span.endMarkerId newSpan) = false) as Hold.
  { intros y Hy. unfold st3 in Hy. rewrite clear_spans in Hy.
    apply list_elem_of_filter in Hy as [_ Hy]. rewrite Hsps2' in Hy.
    rewrite Forall_forall in Hanch. destruct (Hanch y Hy) as [Hys Hye].
    apply andb_false_iff. left. apply bool_decide_eq_false_2.
    unfold newSpan. cbn [Span.startMarkerId].
    destruct (_ <=? _); intros Heq; [apply Hys | apply Hye];
      apply elem_of_anchors; by left. }
  assert (st' = selectSpan (Some (Span.id newSpan))
                  (set (mapSpans (λ sps, sps ++ [newSpan])) st3)) as Hst'.
  { unfold st', finalizeHold. cbv zeta. fold startId. rewrite Hstart, Hnoext.
    rewrite (proj2 (Z.ltb_ge _ _) Hheld).
    fold tierId videoId.
    change (placeMarker uuidMarker endTimeMs tierId videoId st).1 with endId.
    fold ty st1 st2 lo hi st3.
    change (NewSpan.mk _ _ tierId videoId EmptyString) with span.
    rewrite Hadd, get_set. cbn [mapSpans spans].
    change (NewSpan.with_id (generateId "sp" uuidSpan) span) with newSpan.
    rewrite (find_app_skip _ (spans (get st3)) newSpan); [done|exact Hold|].
    by rewrite !bool_decide_eq_true_2. }
  rewrite Hst'. unfold selectSpan. rewrite !get_set. cbn [truthy_opt].
  change (Span.id newSpan) with (generateId "sp" uuidSpan).
  rewrite truthy_generateId_sp.
  cbn [mapSpans markers spans selectedSpanId selectedMarkerId].
  split_and!; [apply last_snoc | | done | done |].
  - unfold interval, newSpan. cbn [Span.startMarkerId Span.endMarkerId].
    unfold newInterval, span, newSpan in Hnew.
    cbn [NewSpan.startMarkerId NewSpan.endMarkerId Span.startMarkerId Span.endMarkerId]
      in Hnew. exact Hnew.
  - apply Forall_app. split.
    + eapply Forall_impl; [exact Hav|]. intros sp Hsp. by right.
    + apply Forall_singleton. by left.
Qed.

Lemma finalizeHold_creates_span_witness :
  let hold := mkHold "1" "n0" "sign-start" "t1" "v1" None in
  let newSpan := Span.mk (generateId "sp" "u2") "n0" (generateId "m" "u1") "t1" "v1" EmptyString in
  let st' := finalizeHold (λ st, st) "u1" "u2" 2000 hold [] [] holdStore in
  findMarker (markers (get holdStore)) "n0" = Some (mk_marker "n0" 500 "t1") ∧
  ExclusiveWithin "t1" "v1" (get holdStore) ∧
  last (spans (get st')) = Some newSpan ∧
  interval (markers (get st')) newSpan = Some (500, 2000) ∧
  selectedSpanId (get st') = Some (Span.id newSpan) ∧
  selectedMarkerId (get st') = None ∧
  Forall (λ sp, sp = newSpan ∨ avoids (markers (get st')) "t1" "v1" (500, 2000) sp)
    (spans (get st')).
Proof.
  intros hold newSpan st'.
  assert (findMarker (markers (get holdStore)) "n0" = Some (mk_marker "n0" 500 "t1")) as H1
    by reflexivity.
  assert (truthy_opt (hold_existingSpanId hold) = false) as H2 by reflexivity.
  assert (20 ≤ Z.abs (2000 - Marker.time (mk_marker "n0" 500 "t1"))) as H3
    by (vm_compute; discriminate).
  assert (generateId "m" "u1" ∉ Marker.id <$> markers (get holdStore)) as H4
    by (apply (bool_decide_unpack _); vm_compute; exact I).
  assert (Forall (λ sp, ("n0" ∉ anchors sp) ∧ (generateId "m" "u1" ∉ anchors sp))
            (spans (get holdStore))) as H5
    by (apply (bool_decide_unpack _); vm_compute; exact I).
  assert (ExclusiveWithin "t1" "v1" (get holdStore)) as H6
    by (apply (bool_decide_unpack _); vm_compute; exact I).
  split; [exact H1|]. split; [exact H6|].
  exact (finalizeHold_creates_span (λ st, st) "u1" "u2" 2000 hold [] [] holdStore
           (mk_marker "n0" 500 "t1") H1 H2 H3 H4 H5 H6).
Defined.

Lemma ExclusiveAnchors_of tierId videoId s :
  ExclusiveAnchors s → ExclusiveOf tierId videoId s.
Proof.
  intros H. eapply pairwise_impl; [exact H|]. intros x y _ _ Hxy _. exact Hxy.
Qed.

Lemma confirmMarker_spans markerId typeId st :
  spans (get (confirmMarker markerId typeId st)) = spans (get st).
Proof.
  unfold confirmMarker. cbv zeta.
  destruct (findMarker (markers (get st)) markerId); [|done]. by rewrite get_set.
Qed.

(** X25.  The hold gesture keeps the no-overlap invariant.  When a
    key held for 20 ms or more is released and no existing span is being
    extended, in a store where no marker anchors two spans and the id
    drawn for the end marker is not an anchor of a span: if no two spans
    of one tier and video overlapped before [finalizeHold], none do
    after it. *)
Theorem finalizeHold_keeps_no_overlap (handleEndMarkerPairing : Store → Store)
    (uuidMarker uuidSpan : string) (endTimeMs : Z)
    (hold : HoldState) (tiers : list Tier.t) (markerTypes : list MarkerType.t)
    (st : Store) (startMarker : Marker.t) :
  findMarker (markers (get st)) (hold_startMarkerId hold) = Some startMarker →
  truthy_opt (hold_existingSpanId hold) = false →
  20 ≤ Z.abs (endTimeMs - Marker.time startMarker) →
  Forall (λ sp, generateId "m" uuidMarker ∉ anchors sp) (spans (get st)) →
  ExclusiveAnchors (get st) →
  NoOverlap (get st) →
  NoOverlap
    (get (finalizeHold handleEndMarkerPairing uuidMarker uuidSpan endTimeMs hold
            tiers markerTypes st)).
Proof.
  intros Hstart Hnoext Hheld Hfresh Hex Hinv.
  unfold finalizeHold. cbv zeta. rewrite Hstart, Hnoext.
  rewrite (proj2 (Z.ltb_ge _ _) Hheld).
  set (tierId := hold_tierId hold). set (videoId := hold_videoId hold).
  set (placed := placeMarker uuidMarker endTimeMs tierId videoId st).
  set (st2 := confirmMarker placed.1 _ placed.2).
  set (st3 := clearOverlappingSpans _ _ tierId videoId st2).
  set (st4 := addSpan uuidSpan _ st3).
  assert (NoOverlap (get st4)) as H4.
  { apply NoOverlap_addSpan, NoOverlap_clearOverlappingSpans.
    - apply ExclusiveAnchors_of. unfold ExclusiveAnchors, st2.
      rewrite confirmMarker_spans. unfold placed, placeMarker. cbn [snd].
      by rewrite get_set.
    - apply NoOverlap_confirmMarker.
      + unfold ExclusiveAnchors, placed, placeMarker. cbn [snd]. by rewrite get_set.
      + exact (NoOverlap_quiet (PlaceMarker uuidMarker endTimeMs tierId videoId) st
                 Hfresh Hinv). }
  destruct (List.find _ _); [|exact H4].
  unfold selectSpan. rewrite get_set. unfold NoOverlap in *.
  destruct (truthy_opt (Some _)); exact H4.
Qed.

Lemma finalizeHold_keeps_no_overlap_witness :
  let hold := mkHold "1" "n0" "sign-start" "t1" "v1" None in
  ExclusiveAnchors (get holdStore) ∧ NoOverlap (get holdStore) ∧
  NoOverlap (get (finalizeHold (λ st, st) "u1" "u2" 2000 hold [] [] holdStore)).
Proof.
  intros hold.
  assert (findMarker (markers (get holdStore)) (hold_startMarkerId hold)
          = Some (mk_marker "n0" 500 "t1")) as H1 by reflexivity.
  assert (truthy_opt (hold_existingSpanId hold) = false) as H2 by reflexivity.
  assert (20 ≤ Z.abs (2000 - Marker.time (mk_marker "n0" 500 "t1"))) as H3
    by (vm_compute; discriminate).
  assert (Forall (λ sp, generateId "m" "u1" ∉ anchors sp) (spans (get holdStore))) as H4
    by (apply (bool_decide_unpack _); vm_compute; exact I).
  assert (ExclusiveAnchors (get holdStore)) as H5
    by (apply (bool_decide_unpack _); vm_compute; exact I).
  assert (NoOverlap (get holdStore)) as H6
    by (apply (bool_decide_unpack _); vm_compute; exact I).
  split; [exact H5|]. split; [exact H6|].
  exact (finalizeHold_keeps_no_overlap (λ st, st) "u1" "u2" 2000 hold [] [] holdStore
           (mk_marker "n0" 500 "t1") H1 H2 H3 H4 H5 H6).
Defined.
